(** * SmugMug-Downloader: a shallow embedding of [smdl.py] and
      [retry_failed_images.py], and the properties of the synchronisation
      engine proved over it.

    Conventions of the embedding.
    - A Python [str] is a [string]; a character ([ascii]) is read as the code
      point of that number, so the strings of the model are the Python
      strings over U+0000..U+00FF.  The tables for [\w] and for white space
      are CPython's on that range.
    - A value decoded by [json.loads] is a [json]; Python's [None] and JSON's
      [null] are the same value [JNull].  Numbers are integers.
    - An expression evaluates to a value or to an exception ([outcome]).  A
      statement runs in an error-and-state monad over the [world] (file
      system, request history, log); uncaught exceptions, [sys.exit],
      [continue] and [break] are its signals.
    - The network is an oracle: the reply to a request depends on its URL
      and on the number of requests made before it, so that any pattern of
      transient failures can be stated.
    - The [while] loop over the pages of an album takes fuel; every result
      about it is proved for enough fuel.

    Contents: the Python runtime ([Py]), the world ([Env]), the two scripts
    ([Smdl], [Retry]), the vocabulary of the statements, lemmas, the claims
    C1 to C10 of the specification, and the further properties X1 to X23
    read off the code. *)

From Stdlib Require Import ZArith NArith Ascii String DecimalString List Bool Lia.
From stdpp Require Import base option list strings gmap.

Local Open Scope Z_scope.
Set Warnings "-register-all".

(** ** The Python runtime the two scripts rely on *)

Module Py.

(** *** Characters *)

Definition code (c : ascii) : N := N_of_ascii c.

Definition between (lo hi : N) (c : ascii) : bool :=
  (N.leb lo (code c) && N.leb (code c) hi)%bool.

Definition is_ascii_alnum (c : ascii) : bool :=
  between 48 57 c || between 65 90 c || between 97 122 c.

(** [str.isalnum] above U+007F: the letters, superscript digits and vulgar
    fractions of the Latin-1 supplement. *)
Definition is_latin1_alnum (c : ascii) : bool :=
  N.eqb (code c) 170 || between 178 179 c || N.eqb (code c) 181
  || between 185 186 c || between 188 190 c
  || between 192 214 c || between 216 246 c || between 248 255 c.

(** The class [\w] of a [str] pattern. *)
Definition is_word (c : ascii) : bool :=
  is_ascii_alnum c || Ascii.eqb c "_" || is_latin1_alnum c.

(** [str.isspace], the characters removed by [str.strip()]. *)
Definition is_space (c : ascii) : bool :=
  between 9 13 c || between 28 32 c || N.eqb (code c) 133 || N.eqb (code c) 160.

(** *** [str] methods *)

Fixpoint str_drop (n : nat) (s : string) : string :=
  match n, s with
  | O, _ => s
  | S n', String _ r => str_drop n' r
  | S _, EmptyString => EmptyString
  end.

Fixpoint str_take (n : nat) (s : string) : string :=
  match n, s with
  | O, _ => EmptyString
  | S n', String c r => String c (str_take n' r)
  | S _, EmptyString => EmptyString
  end.

(** [s[i:]] and [s[:i]] for a non-negative index [i]. *)
Definition slice_from (i : Z) (s : string) : string := str_drop (Z.to_nat i) s.
Definition slice_to (i : Z) (s : string) : string := str_take (Z.to_nat i) s.

(** [s.startswith(p)] *)
Fixpoint startswith (p s : string) : bool :=
  match p, s with
  | EmptyString, _ => true
  | String a p', String b s' => Ascii.eqb a b && startswith p' s'
  | String _ _, EmptyString => false
  end.

Fixpoint endswith_char (c : ascii) (s : string) : bool :=
  match s with
  | EmptyString => false
  | String d EmptyString => Ascii.eqb d c
  | String _ r => endswith_char c r
  end.

(** [sub in s] *)
Fixpoint contains (sub s : string) : bool :=
  startswith sub s ||
  match s with
  | EmptyString => false
  | String _ r => contains sub r
  end.

Fixpoint find_from (sub s : string) (i : Z) : Z :=
  if startswith sub s then i
  else match s with
       | EmptyString => -1
       | String _ r => find_from sub r (i + 1)
       end.

(** [s.find(sub)]: the lowest index of [sub], or [-1]. *)
Definition find (sub s : string) : Z := find_from sub s 0.

Fixpoint rfind_from (c : ascii) (s : string) (i : Z) : Z :=
  match s with
  | EmptyString => -1
  | String d r =>
      let j := rfind_from c r (i + 1) in
      if Z.leb 0 j then j else if Ascii.eqb d c then i else -1
  end.

(** [s.rfind(c)] for a one-character [c]: the highest index, or [-1]. *)
Definition rfind (c : ascii) (s : string) : Z := rfind_from c s 0.

Fixpoint lstrip_by (p : ascii -> bool) (s : string) : string :=
  match s with
  | EmptyString => EmptyString
  | String c r => if p c then lstrip_by p r else s
  end.

Fixpoint rstrip_by (p : ascii -> bool) (s : string) : string :=
  match s with
  | EmptyString => EmptyString
  | String c r =>
      match rstrip_by p r with
      | EmptyString => if p c then EmptyString else String c EmptyString
      | r' => String c r'
      end
  end.

(** [s.strip()], [s.lstrip(c)] and [s.rstrip(c)] for a one-character [c]. *)
Definition strip (s : string) : string := rstrip_by is_space (lstrip_by is_space s).
Definition lstrip_char (c : ascii) (s : string) : string := lstrip_by (Ascii.eqb c) s.
Definition rstrip_char (c : ascii) (s : string) : string := rstrip_by (Ascii.eqb c) s.

(** [s.split(c)] for a one-character separator [c]. *)
Fixpoint split_char (c : ascii) (s : string) : list string :=
  match s with
  | EmptyString => [EmptyString]
  | String d r =>
      if Ascii.eqb d c then EmptyString :: split_char c r
      else match split_char c r with
           | h :: t => String d h :: t
           | [] => [String d EmptyString]
           end
  end.

(** *** [os.path] (posixpath) *)

(** [os.path.join(a, b)] *)
Definition path_join (a b : string) : string :=
  if startswith "/" b then b
  else if String.eqb a EmptyString || endswith_char "/" a then a +:+ b
  else a +:+ "/" +:+ b.

(** [os.path.basename(p)]: [p[p.rfind('/') + 1:]] *)
Definition basename (p : string) : string := slice_from (rfind "/" p + 1) p.

Fixpoint has_non_dot (s : string) : bool :=
  match s with
  | EmptyString => false
  | String c r => negb (Ascii.eqb c ".") || has_non_dot r
  end.

(** [os.path.splitext(p)], that is [genericpath._splitext(p, '/', None, '.')]:
    the extension starts at the last dot of the last component, unless only
    dots precede it there. *)
Definition splitext (p : string) : string * string :=
  let sepIndex := rfind "/" p in
  let dotIndex := rfind "." p in
  if Z.ltb sepIndex dotIndex then
    if has_non_dot (slice_to (dotIndex - (sepIndex + 1)) (slice_from (sepIndex + 1) p))
    then (slice_to dotIndex p, slice_from dotIndex p)
    else (p, EmptyString)
  else (p, EmptyString).

(** *** The fragment of [re] the scripts use *)

(** Members of a bracket expression. *)
Inductive set_item : Type :=
  | SWord                 (* \w *)
  | SChar (c : ascii).    (* a literal, escaped or not *)

Definition item_matches (c : ascii) (i : set_item) : bool :=
  match i with
  | SWord => is_word c
  | SChar d => Ascii.eqb c d
  end.

Definition in_set (items : list set_item) (c : ascii) : bool :=
  existsb (item_matches c) items.

(** [re.sub('[^items]', repl, s)]: every character that is not in the set is
    one match, replaced by [repl]. *)
Fixpoint re_sub_negset (items : list set_item) (repl s : string) : string :=
  match s with
  | EmptyString => EmptyString
  | String c r =>
      (if in_set items c then String c EmptyString else repl)
        +:+ re_sub_negset items repl r
  end.

Definition is_newline (c : ascii) : bool := Ascii.eqb c "010".

(** The tail [(.+)lit] of a pattern, matched at the start of [s] by the
    backtracking matcher: [.+] is greedy, so the longest run of characters
    other than a newline is tried first and given back one character at a
    time until [lit] follows.  The result is the text of the group. *)
Fixpoint match_dotplus_then (lit s : string) : option string :=
  match s with
  | EmptyString => None
  | String c r =>
      if is_newline c then None
      else match match_dotplus_then lit r with
           | Some g => Some (String c g)
           | None => if startswith lit r then Some (String c EmptyString) else None
           end
  end.

(** One attempt of [re.search(pre + '(.+)' + post, s)]: a match that starts
    at the start of [s]. *)
Definition match_at (pre post s : string) : option string :=
  if startswith pre s
  then match_dotplus_then post (str_drop (String.length pre) s)
  else None.

(** [re.search(pre + '(.+)' + post, s)]: the start positions are tried from
    left to right; the result is [group(1)] of the first match. *)
Fixpoint re_search_group (pre post s : string) : option string :=
  match match_at pre post s with
  | Some g => Some g
  | None => match s with
            | EmptyString => None
            | String _ r => re_search_group pre post r
            end
  end.

(** *** [str.encode('utf-8')] and [hashlib.sha256] *)

Local Open Scope N_scope.

(** The UTF-8 bytes of a string of code points below U+0100. *)
Fixpoint encode_utf8 (s : string) : list N :=
  match s with
  | EmptyString => []
  | String c r =>
      (if code c <? 128 then [code c]
       else [192 + code c / 64; 128 + code c mod 64]) ++ encode_utf8 r
  end.

Definition mask32 : N := 0xFFFFFFFF.
Definition add32 (a b : N) : N := N.land (a + b) mask32.
Definition rotr (n x : N) : N :=
  N.lor (N.shiftr x n) (N.land (N.shiftl x (32 - n)) mask32).
Definition not32 (x : N) : N := N.lxor x mask32.
Definition xor3 (a b c : N) : N := N.lxor (N.lxor a b) c.
Definition Ch (x y z : N) : N := N.lxor (N.land x y) (N.land (not32 x) z).
Definition Maj (x y z : N) : N := xor3 (N.land x y) (N.land x z) (N.land y z).
Definition Sigma0 (x : N) : N := xor3 (rotr 2 x) (rotr 13 x) (rotr 22 x).
Definition Sigma1 (x : N) : N := xor3 (rotr 6 x) (rotr 11 x) (rotr 25 x).
Definition sigma0 (x : N) : N := xor3 (rotr 7 x) (rotr 18 x) (N.shiftr x 3).
Definition sigma1 (x : N) : N := xor3 (rotr 17 x) (rotr 19 x) (N.shiftr x 10).

(** The constants are derived as the standard defines them: the first 32
    bits of the fractional parts of the cube roots (for the rounds) and of the
    square roots (for the initial state) of the first primes. *)
Definition is_prime (n : nat) : bool :=
  forallb (fun d => negb (Nat.eqb (n mod d) 0)) (seq 2 (n - 2)).

Definition first_primes : list N :=
  Eval vm_compute in map N.of_nat (List.filter is_prime (seq 2 310)).

(** The integer cube root, bit by bit from the top. *)
Fixpoint icbrt_bits (bits : nat) (x r : N) : N :=
  match bits with
  | O => r
  | S b =>
      let r' := r + 2 ^ N.of_nat b in
      if r' * r' * r' <=? x then icbrt_bits b x r' else icbrt_bits b x r
  end.

Definition frac_cbrt32 (p : N) : N := N.land (icbrt_bits 36 (p * 2 ^ 96) 0) mask32.
Definition frac_sqrt32 (p : N) : N := N.land (N.sqrt (p * 2 ^ 64)) mask32.

Definition K256 : list N := Eval vm_compute in map frac_cbrt32 first_primes.

Record hstate : Type :=
  HState { ha : N; hb : N; hc : N; hd : N; he : N; hf : N; hg : N; hh : N }.

Definition H256 : hstate :=
  Eval vm_compute in
    HState (frac_sqrt32 2) (frac_sqrt32 3) (frac_sqrt32 5) (frac_sqrt32 7)
           (frac_sqrt32 11) (frac_sqrt32 13) (frac_sqrt32 17) (frac_sqrt32 19).

Definition sha_round (s : hstate) (kw : N * N) : hstate :=
  let t1 := add32 (add32 (add32 (add32 (hh s) (Sigma1 (he s)))
                                (Ch (he s) (hf s) (hg s))) (fst kw)) (snd kw) in
  let t2 := add32 (Sigma0 (ha s)) (Maj (ha s) (hb s) (hc s)) in
  HState (add32 t1 t2) (ha s) (hb s) (hc s) (add32 (hd s) t1) (he s) (hf s) (hg s).

(** The message schedule, newest word first. *)
Fixpoint extend_schedule (n : nat) (rw : list N) : list N :=
  match n with
  | O => rw
  | S n' =>
      extend_schedule n'
        (add32 (add32 (add32 (sigma1 (nth 1 rw 0)) (nth 6 rw 0))
                      (sigma0 (nth 14 rw 0))) (nth 15 rw 0) :: rw)
  end.

Fixpoint be_words (bs : list N) : list N :=
  match bs with
  | b0 :: b1 :: b2 :: b3 :: r => (((b0 * 256 + b1) * 256 + b2) * 256 + b3) :: be_words r
  | _ => []
  end.

Definition compress (s : hstate) (block : list N) : hstate :=
  let w := rev (extend_schedule 48 (rev (be_words block))) in
  let t := fold_left sha_round (combine K256 w) s in
  HState (add32 (ha s) (ha t)) (add32 (hb s) (hb t)) (add32 (hc s) (hc t))
         (add32 (hd s) (hd t)) (add32 (he s) (he t)) (add32 (hf s) (hf t))
         (add32 (hg s) (hg t)) (add32 (hh s) (hh t)).

Fixpoint be_bytes (n : nat) (x : N) : list N :=
  match n with
  | O => []
  | S n' => be_bytes n' (x / 256) ++ [x mod 256]
  end.

Definition sha_pad (msg : list N) : list N :=
  let len := length msg in
  msg ++ [128] ++ repeat 0 ((119 - len mod 64) mod 64)%nat
      ++ be_bytes 8 (8 * N.of_nat len).

Fixpoint sha_blocks (fuel : nat) (bs : list N) (s : hstate) : hstate :=
  match fuel, bs with
  | S f, _ :: _ => sha_blocks f (skipn 64 bs) (compress s (firstn 64 bs))
  | _, _ => s
  end.

Definition sha256 (msg : list N) : hstate :=
  let p := sha_pad msg in sha_blocks (length p) p H256.

Definition hex_digit (n : N) : ascii :=
  if n <? 10 then ascii_of_N (48 + n) else ascii_of_N (87 + n).

(** The eight lowercase hexadecimal digits of a 32-bit word. *)
Definition hex8 (w : N) : string :=
  String (hex_digit (N.shiftr w 28 mod 16)) (String (hex_digit (N.shiftr w 24 mod 16))
  (String (hex_digit (N.shiftr w 20 mod 16)) (String (hex_digit (N.shiftr w 16 mod 16))
  (String (hex_digit (N.shiftr w 12 mod 16)) (String (hex_digit (N.shiftr w 8 mod 16))
  (String (hex_digit (N.shiftr w 4 mod 16)) (String (hex_digit (w mod 16)) EmptyString))))))).

Definition hexdigest (s : hstate) : string :=
  hex8 (ha s) +:+ hex8 (hb s) +:+ hex8 (hc s) +:+ hex8 (hd s) +:+
  hex8 (he s) +:+ hex8 (hf s) +:+ hex8 (hg s) +:+ hex8 (hh s).

(** [hashlib.sha256(s.encode('utf-8')).hexdigest()] *)
Definition sha256_hexdigest (s : string) : string :=
  hexdigest (sha256 (encode_utf8 s)).

Local Close Scope N_scope.

(** *** Values decoded by [json.loads], and the operations applied to them *)

Inductive json : Type :=
  | JNull                              (* None *)
  | JBool (b : bool)
  | JNum (n : Z)
  | JStr (s : string)
  | JArr (items : list json)
  | JObj (fields : list (string * json)).

(** Exceptions below [Exception]. *)
Inductive exn : Type :=
  | KeyError
  | TypeError
  | AttributeError
  | OSError.

(** The outcome of evaluating an expression: a value, or an exception. *)
Inductive outcome (A : Type) : Type :=
  | Val (a : A)
  | Err (e : exn).
Arguments Val {A} a.
Arguments Err {A} e.

(** Truth value of a value, as tested by [if], [while], [not] and [or]. *)
Definition truthy (v : json) : bool :=
  match v with
  | JNull => false
  | JBool b => b
  | JNum n => negb (Z.eqb n 0)
  | JStr s => negb (String.eqb s EmptyString)
  | JArr l => match l with [] => false | _ => true end
  | JObj l => match l with [] => false | _ => true end
  end.

(** [a or b] *)
Definition py_or (a b : json) : json := if truthy a then a else b.

Fixpoint assoc (k : string) (fields : list (string * json)) : option json :=
  match fields with
  | [] => None
  | (k', v) :: r => if String.eqb k k' then Some v else assoc k r
  end.

(** [v.get(k, d)]; only a [dict] has the method. *)
Definition py_get_default (v : json) (k : string) (d : json) : outcome json :=
  match v with
  | JObj fields => Val (match assoc k fields with Some x => x | None => d end)
  | _ => Err AttributeError
  end.

(** [v.get(k)] *)
Definition py_get (v : json) (k : string) : outcome json := py_get_default v k JNull.

(** [v[k]] for a [str] key [k]. *)
Definition py_item (v : json) (k : string) : outcome json :=
  match v with
  | JObj fields =>
      match assoc k fields with
      | Some x => Val x
      | None => Err KeyError
      end
  | _ => Err TypeError
  end.

Definition is_str (k : string) (v : json) : bool :=
  match v with
  | JStr s => String.eqb s k
  | _ => false
  end.

(** [k in v] for a [str] [k]: a key of a [dict], an element of a [list], a
    substring of a [str]. *)
Definition py_in (k : string) (v : json) : outcome bool :=
  match v with
  | JObj fields => Val (match assoc k fields with Some _ => true | None => false end)
  | JArr items => Val (existsb (is_str k) items)
  | JStr s => Val (contains k s)
  | _ => Err TypeError
  end.

(** [v[:8]]; a [dict] raises as well (the exception class depends on the
    interpreter's version, it is never caught). *)
Definition py_slice_to_8 (v : json) : outcome json :=
  match v with
  | JStr s => Val (JStr (str_take 8 s))
  | JArr items => Val (JArr (firstn 8 items))
  | _ => Err TypeError
  end.

Fixpoint chars (s : string) : list json :=
  match s with
  | EmptyString => []
  | String c r => JStr (String c EmptyString) :: chars r
  end.

(** The elements produced by iterating over [v]. *)
Definition py_iter (v : json) : outcome (list json) :=
  match v with
  | JArr items => Val items
  | JStr s => Val (chars s)
  | JObj fields => Val (map (fun kv => JStr (fst kv)) fields)
  | _ => Err TypeError
  end.

(** [v.strip()] and [v.lstrip('/')]; only a [str] has the methods. *)
Definition py_strip (v : json) : outcome string :=
  match v with
  | JStr s => Val (strip s)
  | _ => Err AttributeError
  end.

Definition py_lstrip_slash (v : json) : outcome string :=
  match v with
  | JStr s => Val (lstrip_char "/" s)
  | _ => Err AttributeError
  end.

(** [repr] of a [str]. *)
Definition dquote : ascii := "034".

Definition repr_quote (s : string) : ascii :=
  if contains "'" s && negb (contains (String dquote EmptyString) s)
  then dquote else "'"%char.

Definition hex2 (c : ascii) : string :=
  String (hex_digit (code c / 16)) (String (hex_digit (code c mod 16)) EmptyString).

Definition repr_char (q c : ascii) : string :=
  if Ascii.eqb c q || Ascii.eqb c "\" then String "\" (String c EmptyString)
  else if Ascii.eqb c "009" then "\t"
  else if Ascii.eqb c "010" then "\n"
  else if Ascii.eqb c "013" then "\r"
  else if between 0 31 c || between 127 160 c || N.eqb (code c) 173
       then "\x" +:+ hex2 c
  else String c EmptyString.

Fixpoint repr_chars (q : ascii) (s : string) : string :=
  match s with
  | EmptyString => EmptyString
  | String c r => repr_char q c +:+ repr_chars q r
  end.

Definition repr_str (s : string) : string :=
  let q := repr_quote s in
  String q (repr_chars q s) +:+ String q EmptyString.

Definition repr_int (n : Z) : string :=
  DecimalString.NilZero.string_of_int (Z.to_int n).

Definition join_comma (parts : list string) : string :=
  match parts with
  | [] => EmptyString
  | p :: r => fold_left (fun acc x => acc +:+ ", " +:+ x) r p
  end.

(** [repr(v)] *)
Fixpoint py_repr (v : json) : string :=
  match v with
  | JNull => "None"
  | JBool true => "True"
  | JBool false => "False"
  | JNum n => repr_int n
  | JStr s => repr_str s
  | JArr items => "[" +:+ join_comma (map py_repr items) +:+ "]"
  | JObj fields =>
      "{" +:+ join_comma (map (fun kv => repr_str (fst kv) +:+ ": " +:+ py_repr (snd kv)) fields)
          +:+ "}"
  end.

(** [str(v)], the text an f-string puts for [{v}]. *)
Definition py_str (v : json) : string :=
  match v with
  | JStr s => s
  | _ => py_repr v
  end.

End Py.

(** ** The world the scripts act on: file system, network, log *)

Module Env.
Import Py.

(** *** File system

    A path names the list of its components: doubled slashes are not
    significant, a leading slash gives the first component [""] (the root).
    The components [.] and [..], links and permissions are not modelled. *)

Inductive node : Type :=
  | File (content : string)
  | Dir.

Definition nonempty (s : string) : bool := negb (String.eqb s EmptyString).

Definition nonempty_list {A : Type} (l : list A) : bool :=
  match l with [] => false | _ => true end.

Definition components (p : string) : list string :=
  (if startswith "/" p then [EmptyString] else []) ++ List.filter nonempty (split_char "/" p).

Definition is_root (cs : list string) : bool :=
  match cs with
  | [] => true                                  (* the working directory *)
  | [c] => String.eqb c EmptyString             (* / *)
  | _ => false
  end.

Definition node_at (fs : gmap (list string) node) (cs : list string) : option node :=
  if is_root cs then Some Dir else fs !! cs.

(** What [stat] finds at path [p]. *)
Definition stat (fs : gmap (list string) node) (p : string) : option node :=
  if String.eqb p EmptyString then None
  else match node_at fs (components p) with
       | Some (File c) => if endswith_char "/" p then None else Some (File c)
       | r => r
       end.

(** [os.path.exists(p)] and [os.path.isfile(p)] *)
Definition path_exists (fs : gmap (list string) node) (p : string) : bool :=
  match stat fs p with Some _ => true | None => false end.

Definition isfile (fs : gmap (list string) node) (p : string) : bool :=
  match stat fs p with Some (File _) => true | _ => false end.

Fixpoint mkdirs (pre rest : list string) (fs : gmap (list string) node)
  : option (gmap (list string) node) :=
  match rest with
  | [] => Some fs
  | c :: r =>
      let cur := pre ++ [c] in
      match node_at fs cur with
      | Some (File _) => None
      | Some Dir => mkdirs cur r fs
      | None => mkdirs cur r (<[cur := Dir]> fs)
      end
  end.

(** [os.makedirs(p)]: creates [p] and its missing ancestors; [None] stands
    for [OSError] (an empty path, an existing [p], a file on the way). *)
Definition makedirs (fs : gmap (list string) node) (p : string)
  : option (gmap (list string) node) :=
  if String.eqb p EmptyString then None
  else match node_at fs (components p) with
       | Some _ => None
       | None => mkdirs [] (components p) fs
       end.

(** [open(p, 'wb')] followed by the writes: the file is created or truncated
    and holds [content]; [None] stands for [OSError] (the parent is not a
    directory, or [p] names a directory). *)
Definition open_write (fs : gmap (list string) node) (p content : string)
  : option (gmap (list string) node) :=
  if String.eqb p EmptyString || endswith_char "/" p then None
  else match node_at fs (components p), node_at fs (removelast (components p)) with
       | Some Dir, _ => None
       | _, Some Dir => Some (<[components p := File content]> fs)
       | _, _ => None
       end.

(** [open(p, 'a')]: a file that is there is opened as it is, a missing one is
    created empty; [None] stands for [OSError] as for [open_write]. *)
Definition open_append (fs : gmap (list string) node) (p : string)
  : option (gmap (list string) node) :=
  if String.eqb p EmptyString || endswith_char "/" p then None
  else match node_at fs (components p), node_at fs (removelast (components p)) with
       | Some Dir, _ => None
       | Some (File _), Some Dir => Some fs
       | None, Some Dir => Some (<[components p := File EmptyString]> fs)
       | _, _ => None
       end.

(** *** Network *)

(** What the scripts observe of a response body: the [<pre>] elements the
    HTML parser finds, each with the value [json.loads] makes of its text
    ([None] when it raises); the bytes that arrive; whether the body arrives
    whole (when it does not, reading it raises after [content]). *)
Record body : Type :=
  Body { pres : list (option json); content : string; complete : bool }.

Inductive reply : Type :=
  | NoReply                                (* [requests.get] raises *)
  | Reply (status : Z) (b : body).

(** The reply to a request for [url], given how many requests were made
    before it. *)
Definition network : Type := nat -> string -> reply.

(** [raise_for_status] raises on 4xx and 5xx. *)
Definition status_is_error (status : Z) : bool :=
  Z.leb 400 status && Z.ltb status 600.

Inductive request : Type :=
  | ApiGet (url : string)       (* a request of [get_json] *)
  | AssetGet (url : string).    (* a streaming request for an asset *)

(** *** Log

    What the scripts log and print is kept as a list of entries, with the
    values formatted into each message.  The log file that [setup_logging]
    opens in the output directory is a node of the file system below: it is
    created when it is missing, and a failure to open it is an [OSError].
    The records the file handler appends to it carry the time of day; they
    are the [Logged] entries of the list, and the node keeps the bytes the
    file held when it was opened.  The log file the recovery script reads is
    a node with its text. *)

Inductive level : Type := DEBUG | INFO | WARNING | ERROR.

Inductive channel : Type :=
  | Logged (l : level)
  | Printed.                    (* [print] *)

(** The exception a handler catches and formats into its message. *)
Inductive failure : Type :=
  | RequestFailed               (* [requests.get] raised *)
  | HttpError (status : Z)      (* [raise_for_status] raised *)
  | BodyBroken                  (* reading the body raised *)
  | NoPreTags                   (* [ValueError], no [<pre>] element *)
  | BadJson                     (* [json.loads] raised *)
  | OpenFailed.                 (* [open] raised *)

(** One constructor per message of the two scripts. *)
Inductive message : Type :=
  | ErrorFetchingJson (url : string) (e : failure)
  | Retrying
  | MaxRetriesReached
  | RetrievingAlbumList
  | CouldNotRetrieveAlbumList
  | AlbumListRetrieved
  | NoAlbumsFound (user : string)
  | NoAlbumsWereFound (user : string)
  | AlbumHasNoUrlPath (album_name : string)
  | CreatedDirectory (path : string)
  | CouldNotCreateDirectory (path : string)
  | CouldNotRetrieveImages (album_name : string)
  | NoImagesFound (album_name : string)
  | CouldNotRetrieveNextPage (album_name : string)
  | UsingHashOfUri (album_name : string)
  | MissingIdAndUri (album_name : string)
  | CouldNotRetrieveImageData (uri : string)
  | NoDownloadUrl (unique_filename album_name : string)
  | DownloadedImage (image_path : string)
  | CouldNotFetchImage (download_url : json) (e : failure)
  | AllDownloadsCompleted
  | Completed
  | UsingCookie
  | NoCookie
  | Starting
  | SpecificAlbums (names : list string)
  | NoSpecificAlbums
  | CreatedOutputDir (path : string)
  | CouldNotCreateOutputDir (path : string)
  | CreatedOutputDirectory (path : string)
  | CouldNotCreateOutputDirectory (path : string)
  | LogFileDoesNotExist (path : string)
  | ImageAlreadyExists (image_path : string)
  | DownloadingImage (image_url : string)
  | RetryProcessCompleted.

(** *** State and effects *)

(** What ends the evaluation of a statement early. [SystemExit] is not an
    [Exception]; [Continue] and [Break] are caught by the enclosing loop;
    [OutOfFuel] stands for a [while] loop that is still running when the
    fuel of the model is spent. *)
Inductive signal : Type :=
  | Exn (e : exn)
  | SystemExit (status : Z)
  | Continue
  | Break
  | OutOfFuel.

(** The outcome of running a statement. *)
Inductive result (A : Type) : Type :=
  | Ok (a : A)
  | Sig (s : signal).
Arguments Ok {A} a.
Arguments Sig {A} s.

Record world : Type :=
  World { w_fs : gmap (list string) node;
          w_requests : list request;        (* newest first *)
          w_log : list (channel * message)  (* newest first *) }.

Definition M (A : Type) : Type := world -> result A * world.

Definition ret {A : Type} (a : A) : M A := fun w => (Ok a, w).

Definition raise {A : Type} (s : signal) : M A := fun w => (Sig s, w).

Definition bind {A B : Type} (c : M A) (k : A -> M B) : M B :=
  fun w => match c w with
           | (Ok a, w') => k a w'
           | (Sig s, w') => (Sig s, w')
           end.

(** An expression evaluated in a statement. *)
Definition lift {A : Type} (o : outcome A) : M A :=
  fun w => (match o with Val a => Ok a | Err e => Sig (Exn e) end, w).

Notation "'let*' x ':=' c 'in' k" := (bind c (fun x => k))
  (at level 10, x name, c at level 100, k at level 200).

Definition emit (ch : channel) (m : message) : M unit :=
  fun w => (Ok tt, World (w_fs w) (w_requests w) ((ch, m) :: w_log w)).

Definition logging (l : level) (m : message) : M unit := emit (Logged l) m.
Definition print (m : message) : M unit := emit Printed m.

(** [requests.get(url, ...)]: the request is recorded and answered. *)
Definition requests_get (net : network) (r : request) : M reply :=
  fun w =>
    let url := match r with ApiGet u => u | AssetGet u => u end in
    (Ok (net (length (w_requests w)) url),
     World (w_fs w) (r :: w_requests w) (w_log w)).

Definition get_fs : M (gmap (list string) node) := fun w => (Ok (w_fs w), w).

Definition put_fs (fs : gmap (list string) node) : M unit :=
  fun w => (Ok tt, World fs (w_requests w) (w_log w)).

(** [for x in xs: body(x)], where the body may [continue] or [break]. *)
Fixpoint for_each {X : Type} (xs : list X) (body : X -> M unit) : M unit :=
  match xs with
  | [] => ret tt
  | x :: r =>
      fun w => match body x w with
               | (Ok _, w') => for_each r body w'
               | (Sig Continue, w') => for_each r body w'
               | (Sig Break, w') => (Ok tt, w')
               | (Sig s, w') => (Sig s, w')
               end
  end.

End Env.

(** ** [smdl.py] *)

Module Smdl.
Import Py Env.

(** The parsed command line. *)
Record arguments : Type :=
  Args { session : option string;
              user : string;
              output : string;
              albums : option string }.

Definition endpoint : string := "https://www.smugmug.com".

Definition num_retries : nat := 5.

(** The body of the [try] of [get_json], from the reply on: the value
    returned, or the exception handled. *)
Definition parse_reply (r : reply) : failure + json :=
  match r with
  | NoReply => inl RequestFailed
  | Reply status b =>
      if negb (complete b) then inl BodyBroken
      else if status_is_error status then inl (HttpError status)
      else match last (pres b) with
           | None => inl NoPreTags
           | Some None => inl BadJson
           | Some (Some j) => inr j
           end
  end.

(** [re.sub(r'[^\w\-_\. ]', '_', filename)] *)
Definition sanitize_filename (filename : string) : string :=
  re_sub_negset [SWord; SChar "-"; SChar "_"; SChar "."; SChar " "] "_" filename.

(** [sanitize_filename] applied to a value: [re.sub] wants a [str]. *)
Definition sanitize_value (v : json) : outcome string :=
  match v with
  | JStr s => Val (sanitize_filename s)
  | _ => Err TypeError
  end.

(** [hashlib.sha256(v.encode('utf-8')).hexdigest()] *)
Definition hash_of_uri (v : json) : outcome json :=
  match v with
  | JStr s => Val (JStr (sha256_hexdigest s))
  | _ => Err AttributeError
  end.

(** [images.extend(more)] *)
Definition py_extend (images more : json) : outcome json :=
  match images with
  | JArr items =>
      match py_iter more with
      | Val extra => Val (JArr (items ++ extra))
      | Err e => Err e
      end
  | _ => Err AttributeError
  end.

Definition is_none (v : json) : bool :=
  match v with JNull => true | _ => false end.

(** [try: c except KeyError: h] *)
Definition except_KeyError {A : Type} (c h : M A) : M A :=
  fun w => match c w with
           | (Sig (Exn KeyError), w') => h w'
           | r => r
           end.

(** Lines 17-39: [setup_logging(output_dir)].  The file handler opens
    [smugmug_downloader.log] in the output directory for appending as soon as
    it is made (the console handler opens nothing); the [OSError] of that
    [open] is not caught.  Both handlers receive every record: the file takes
    all levels, the console [INFO] and above. *)
Definition setup_logging (output_dir : string) : M unit :=
  let log_file := path_join output_dir "smugmug_downloader.log" in
  let* fs := get_fs in
  match open_append fs log_file with
  | Some fs' => put_fs fs'
  | None => raise (Exn OSError)
  end.

Section Script.

Variable net : network.
Variable args : arguments.
(** Bound on the pages fetched for one album. *)
Variable fuel : nat.

Fixpoint get_json_loop (attempts : list nat) (url : string) : M json :=
  match attempts with
  | [] => ret JNull
  | i :: rest =>
      let* r := requests_get net (ApiGet (endpoint +:+ url)) in
      match parse_reply r with
      | inr j => ret j
      | inl e =>
          let* _ := logging ERROR (ErrorFetchingJson (endpoint +:+ url) e) in
          let* _ := if Nat.ltb (i + 1) num_retries
                    then logging INFO Retrying
                    else logging ERROR MaxRetriesReached in
          get_json_loop rest url
      end
  end.

(** [get_json(url)].  For a [url] that is not a [str], [endpoint + url]
    raises in the [try] and again in the handler's message. *)
Definition get_json (url : json) : M json :=
  match url with
  | JStr u => get_json_loop (seq 0 num_retries) u
  | _ => raise (Exn TypeError)
  end.

Definition output_dir : string := rstrip_char "/" (output args).

Definition specific_albums : list string :=
  match albums args with
  | Some a => if nonempty a then map strip (split_char "$" a) else []
  | None => []
  end.

(** The [while next_page_url] loop. *)
Fixpoint paginate (n : nat) (album_name : string) (images next_page_url : json)
  : M json :=
  if negb (truthy next_page_url) then ret images
  else match n with
       | O => raise OutOfFuel
       | S n' =>
           let* next_images_data := get_json next_page_url in
           if is_none next_images_data then
             let* _ := logging ERROR (CouldNotRetrieveNextPage album_name) in
             ret images
           else
             let* resp := lift (py_get_default next_images_data "Response" (JObj [])) in
             let* next_images := lift (py_get_default resp "AlbumImage" (JArr [])) in
             let* images' := lift (py_extend images next_images) in
             let* r := lift (py_item next_images_data "Response") in
             let* pages := lift (py_item r "Pages") in
             let* next := lift (py_get pages "NextPage") in
             paginate n' album_name images' next
       end.

(** Lines 192-203: the unique identifier. *)
Definition derive_unique_id (album_name : string) (image : json) : M json :=
  let* archived := lift (py_get image "ArchivedMD5") in
  let* md5sum := lift (py_get image "MD5Sum") in
  let unique_id := py_or archived md5sum in
  if truthy unique_id then ret unique_id
  else
    let* unique_id := lift (py_get image "id") in
    if truthy unique_id then ret unique_id
    else
      let* image_uri := lift (py_get_default image "Uri" (JStr EmptyString)) in
      if truthy image_uri then
        let* unique_id := lift (hash_of_uri image_uri) in
        let* _ := logging WARNING (UsingHashOfUri album_name) in
        ret unique_id
      else
        let* _ := logging ERROR (MissingIdAndUri album_name) in
        raise Continue.

(** Lines 205-210: the file name. *)
Definition make_unique_filename (image unique_id : json) : outcome string :=
  match py_get_default image "FileName" (JStr "unknown_filename") with
  | Err e => Err e
  | Val file_name =>
      match sanitize_value file_name with
      | Err e => Err e
      | Val sanitized_filename =>
          let (name, ext) := splitext sanitized_filename in
          match py_slice_to_8 unique_id with
          | Err e => Err e
          | Val short_unique_id => Val (name +:+ "_" +:+ py_str short_unique_id +:+ ext)
          end
      end
  end.

(** Lines 218-224: the preferred location. *)
Definition choose_largest_media (uris : json) : outcome (option string) :=
  match py_in "LargestVideo" uris with
  | Err e => Err e
  | Val true => Val (Some "LargestVideo")
  | Val false =>
      match py_in "ImageDownload" uris with
      | Err e => Err e
      | Val true => Val (Some "ImageDownload")
      | Val false =>
          match py_in "LargestImage" uris with
          | Err e => Err e
          | Val true => Val (Some "LargestImage")
          | Val false => Val None
          end
      end
  end.

(** Lines 232-237: the archive link. *)
Definition archived_url (album_name unique_filename : string) (image : json) : M json :=
  let* download_url := lift (py_get image "ArchivedUri") in
  if truthy download_url then ret download_url
  else
    let* _ := logging ERROR (NoDownloadUrl unique_filename album_name) in
    raise Continue.

(** Lines 217-237: the download URL. *)
Definition resolve_download_url (album_name unique_filename : string) (image : json)
  : M json :=
  let* uris := lift (py_item image "Uris") in
  let* largest_media := lift (choose_largest_media uris) in
  match largest_media with
  | Some media =>
      let* present := lift (py_in media uris) in
      if present then
        let* location := lift (py_item uris media) in
        let* uri := lift (py_item location "Uri") in
        let* image_req := get_json uri in
        if is_none image_req then
          let* _ := logging ERROR (CouldNotRetrieveImageData (py_str uri)) in
          raise Continue
        else
          let* resp := lift (py_item image_req "Response") in
          let* entry := lift (py_item resp media) in
          lift (py_item entry "Url")
      else archived_url album_name unique_filename image
  | None => archived_url album_name unique_filename image
  end.

(** The handler of lines 248-250. *)
Definition could_not_fetch (download_url : json) (e : failure) : M unit :=
  let* _ := logging ERROR (CouldNotFetchImage download_url e) in
  raise Continue.

(** Lines 239-250: the download.  A URL that is not a [str] is refused by
    [requests] before anything is sent. *)
Definition download (download_url : json) (image_path : string) : M unit :=
  match download_url with
  | JStr url =>
      let* r := requests_get net (AssetGet url) in
      match r with
      | NoReply => could_not_fetch download_url RequestFailed
      | Reply status b =>
          if status_is_error status then could_not_fetch download_url (HttpError status)
          else
            let* fs := get_fs in
            match open_write fs image_path (content b) with
            | None => could_not_fetch download_url OpenFailed
            | Some fs' =>
                let* _ := put_fs fs' in
                if complete b then logging DEBUG (DownloadedImage image_path)
                else could_not_fetch download_url BodyBroken
            end
      end
  | _ => could_not_fetch download_url RequestFailed
  end.

(** The body of [for image in images]. *)
Definition process_image (album_name album_path : string) (image : json) : M unit :=
  let* unique_id := derive_unique_id album_name image in
  let* unique_filename := lift (make_unique_filename image unique_id) in
  let image_path := path_join album_path unique_filename in
  let* fs := get_fs in
  if isfile fs image_path then raise Continue
  else
    let* download_url := resolve_download_url album_name unique_filename image in
    download download_url image_path.

(** Lines 159-166: the album's directory. *)
Definition ensure_album_path (album_path : string) : M unit :=
  let* fs := get_fs in
  if path_exists fs album_path then ret tt
  else match makedirs fs album_path with
       | Some fs' =>
           let* _ := put_fs fs' in
           logging INFO (CreatedDirectory album_path)
       | None =>
           let* _ := logging ERROR (CouldNotCreateDirectory album_path) in
           raise Continue
       end.

(** Lines 168-188: the images of the album, all pages merged. *)
Definition fetch_images (album_name : string) (album : json) : M json :=
  let* album_uri := lift (py_get album "Uri") in
  let* images_data := get_json (JStr (py_str album_uri +:+ "!images")) in
  if is_none images_data then
    let* _ := logging ERROR (CouldNotRetrieveImages album_name) in
    raise Continue
  else
    let* resp := lift (py_get_default images_data "Response" (JObj [])) in
    let* images := lift (py_get_default resp "AlbumImage" (JArr [])) in
    if negb (truthy images) then
      let* _ := logging INFO (NoImagesFound album_name) in
      raise Continue
    else
      let* r := lift (py_item images_data "Response") in
      let* pages := lift (py_item r "Pages") in
      let* next_page_url := lift (py_get pages "NextPage") in
      paginate fuel album_name images next_page_url.

(** The body of [for album in album_list]. *)
Definition process_album (album : json) : M unit :=
  let* name := lift (py_get_default album "Name" (JStr "Unnamed_Album")) in
  let* album_name := lift (py_strip name) in
  if nonempty_list specific_albums && negb (existsb (String.eqb album_name) specific_albums)
  then raise Continue
  else
    let* url_path := lift (py_get_default album "UrlPath" (JStr EmptyString)) in
    let* album_url_path := lift (py_lstrip_slash url_path) in
    if negb (nonempty album_url_path) then
      let* _ := logging WARNING (AlbumHasNoUrlPath album_name) in
      raise Continue
    else
      let album_path := path_join output_dir album_url_path in
      let* _ := ensure_album_path album_path in
      let* images := fetch_images album_name album in
      let* items := lift (py_iter images) in
      for_each items (process_image album_name album_path).

(** Lines 138-146: the album list. *)
Definition read_album_list (albums_data : json) : M json :=
  except_KeyError
    (let* resp := lift (py_item albums_data "Response") in
     let* album_list := lift (py_item resp "AlbumList") in
     if negb (truthy album_list) then
       let* _ := logging WARNING (NoAlbumsFound (user args)) in
       raise (SystemExit 1)
     else ret album_list)
    (let* _ := logging ERROR (NoAlbumsWereFound (user args)) in
     raise (SystemExit 1)).

(** Lines 130-253: the main script logic. *)
Definition sync : M unit :=
  let* _ := logging INFO RetrievingAlbumList in
  let* albums_data :=
    get_json (JStr ("/api/v2/folder/user/" +:+ user args +:+ "!albumlist")) in
  if is_none albums_data then
    let* _ := logging ERROR CouldNotRetrieveAlbumList in
    raise (SystemExit 1)
  else
    let* _ := logging INFO AlbumListRetrieved in
    let* album_list := read_album_list albums_data in
    let* albums := lift (py_iter album_list) in
    let* _ := for_each albums process_album in
    let* _ := logging INFO AllDownloadsCompleted in
    print Completed.

(** Lines 63-92: the set-up. *)
Definition setup : M unit :=
  let* _ := print (match session args with
                   | Some s => if nonempty s then UsingCookie else NoCookie
                   | None => NoCookie
                   end) in
  let* fs := get_fs in
  let* _ :=
    if path_exists fs output_dir then ret tt
    else match makedirs fs output_dir with
         | Some fs' =>
             let* _ := put_fs fs' in
             print (CreatedOutputDir output_dir)
         | None =>
             let* _ := print (CouldNotCreateOutputDir output_dir) in
             raise (SystemExit 1)
         end in
  let* _ := setup_logging output_dir in
  let* _ := logging INFO Starting in
  logging INFO (match specific_albums with
                | [] => NoSpecificAlbums
                | names => SpecificAlbums names
                end).

(** The script, top to bottom. *)
Definition main : M unit :=
  let* _ := setup in
  sync.

End Script.

End Smdl.

(** ** [retry_failed_images.py] *)

Module Retry.
Import Py Env.

(** The parsed command line. *)
Record arguments : Type :=
  Args { session : string;
         log : string;
         output : string }.

(** [re.sub(r'[^\w\-_\. ]', '_', filename)] *)
Definition sanitize_filename (filename : string) : string :=
  re_sub_negset [SWord; SChar "-"; SChar "_"; SChar "."; SChar " "] "_" filename.

(** [hashlib.sha256(url.encode('utf-8')).hexdigest()[:8]] *)
Definition get_unique_id (url : string) : string :=
  str_take 8 (sha256_hexdigest url).

Definition get_image_filename (url : string) : string :=
  let basename := basename url in
  let (name, ext) := splitext basename in
  let unique_id := get_unique_id url in
  let sanitized_name := sanitize_filename name in
  sanitized_name +:+ "_" +:+ unique_id +:+ ext.

(** [re.search(r'photos/(.+)/D', image_url)] *)
Definition extract_album_path (image_url : string) : string :=
  match re_search_group "photos/" "/D" image_url with
  | Some group1 => group1
  | None => "unknown_album"
  end.

(** The lines a text file yields when iterated: each keeps its end of line,
    and the three line ends [\n], [\r\n] and [\r] are all read as [\n]. *)
Fixpoint lines_from (cur : string -> string) (s : string) : list string :=
  match s with
  | EmptyString =>
      match cur EmptyString with
      | EmptyString => []
      | l => [l]
      end
  | String c r =>
      if Ascii.eqb c "010" then cur (String "010" EmptyString) :: lines_from (fun x => x) r
      else if Ascii.eqb c "013" then
        cur (String "010" EmptyString)
          :: match r with
             | String d r' => if Ascii.eqb d "010" then lines_from (fun x => x) r'
                              else lines_from (fun x => x) r
             | EmptyString => []
             end
      else lines_from (fun x => cur (String c x)) r
  end.

Definition readlines (content : string) : list string := lines_from (fun x => x) content.

Section Script.

Variable net : network.
Variable args : arguments.

Definition LOG_FILE : string := log args.

Definition output_dir : string := rstrip_char "/" (output args).

(** The [try] of [download_image]: only [RequestException] is handled, the
    [OSError] of [open] is not. *)
Definition fetch_image (image_url image_path : string) : M unit :=
  let* _ := logging INFO (DownloadingImage image_url) in
  let* r := requests_get net (AssetGet image_url) in
  match r with
  | NoReply => logging ERROR (CouldNotFetchImage (JStr image_url) RequestFailed)
  | Reply status b =>
      if status_is_error status
      then logging ERROR (CouldNotFetchImage (JStr image_url) (HttpError status))
      else
        let* fs := get_fs in
        match open_write fs image_path (content b) with
        | None => raise (Exn OSError)
        | Some fs' =>
            let* _ := put_fs fs' in
            if complete b then logging INFO (DownloadedImage image_path)
            else logging ERROR (CouldNotFetchImage (JStr image_url) BodyBroken)
        end
  end.

(** After the directory is there: lines 89-109. *)
Definition download_into (album_path image_url : string) : M unit :=
  let image_filename := get_image_filename image_url in
  let image_path := path_join album_path image_filename in
  let* fs := get_fs in
  if isfile fs image_path then logging INFO (ImageAlreadyExists image_path)
  else fetch_image image_url image_path.

Definition download_image (image_url : string) : M unit :=
  let album_url_path := extract_album_path image_url in
  let album_path := path_join output_dir album_url_path in
  let* fs := get_fs in
  if path_exists fs album_path then download_into album_path image_url
  else match makedirs fs album_path with
       | Some fs' =>
           let* _ := put_fs fs' in
           let* _ := logging INFO (CreatedDirectory album_path) in
           download_into album_path image_url
       | None => logging ERROR (CouldNotCreateDirectory album_path)
       end.

(** The body of [for line in log_file]. *)
Definition scan_line (line : string) : M unit :=
  if contains "ERROR - Could not fetch image" line then
    let url_start := find "http" line in
    if negb (Z.eqb url_start (-1)) then
      let image_url := strip (slice_from url_start line) in
      download_image image_url
    else ret tt
  else ret tt.

Definition retry_failed_images : M unit :=
  let* fs := get_fs in
  if negb (path_exists fs LOG_FILE) then
    let* _ := print (LogFileDoesNotExist LOG_FILE) in
    raise (SystemExit 1)
  else
    match stat fs LOG_FILE with
    | Some (File text) => for_each (readlines text) scan_line
    | _ => raise (Exn OSError)       (* [open] of a directory *)
    end.

(** The [__main__] block. *)
Definition main : M unit :=
  let* fs := get_fs in
  let* _ :=
    if path_exists fs output_dir then ret tt
    else match makedirs fs output_dir with
         | Some fs' =>
             let* _ := put_fs fs' in
             logging INFO (CreatedOutputDirectory output_dir)
         | None =>
             let* _ := logging ERROR (CouldNotCreateOutputDirectory output_dir) in
             raise (SystemExit 1)
         end in
  let* _ := retry_failed_images in
  logging INFO RetryProcessCompleted.

End Script.

End Retry.

(** * Properties *)

Import Py Env.

(** ** Vocabulary of the statements *)

Fixpoint all_chars (p : ascii -> bool) (s : string) : bool :=
  match s with
  | EmptyString => true
  | String c r => p c && all_chars p r
  end.

(** A text the dot of a pattern can run over: no newline in it. *)
Definition single_line (s : string) : Prop :=
  all_chars (fun c => negb (is_newline c)) s = true.

(** The characters [sanitize_filename] keeps. *)
Definition allowed (c : ascii) : bool :=
  is_word c || Ascii.eqb c "-" || Ascii.eqb c "_" || Ascii.eqb c "." || Ascii.eqb c " ".

Definition sanitize_char (c : ascii) : ascii := if allowed c then c else "_"%char.

Fixpoint str_map (f : ascii -> ascii) (s : string) : string :=
  match s with
  | EmptyString => EmptyString
  | String c r => String (f c) (str_map f r)
  end.

(** What a match of [pre(.+)post] in [s] is: the text before it, the group
    and the text after it. *)
Definition is_match (pre post s a g b : string) : Prop :=
  s = a +:+ pre +:+ g +:+ post +:+ b /\ g <> EmptyString /\ single_line g.

(** The claim of C8 as the specification words it, for the main script: the
    extension of the remote file name reaches the local name unchanged. *)
Definition extension_kept_as_is : Prop :=
  forall (fields : list (string * json)) (file_name id : string),
    assoc "FileName" fields = Some (JStr file_name) ->
    Smdl.make_unique_filename (JObj fields) (JStr id)
    = Val (str_map sanitize_char (fst (splitext file_name))
            +:+ "_" +:+ str_take 8 id +:+ snd (splitext file_name)).

(** *** Measures of a run *)

Fixpoint count {A : Type} (p : A -> bool) (l : list A) : nat :=
  match l with
  | [] => O
  | x :: r => ((if p x then 1 else 0) + count p r)%nat
  end.

Definition is_error (e : channel * message) : bool :=
  match e with
  | (Logged ERROR, _) => true
  | _ => false
  end.

Definition is_asset (r : request) : bool :=
  match r with
  | AssetGet _ => true
  | ApiGet _ => false
  end.

(** The number of [ERROR] entries logged, and of asset requests sent. *)
Definition errors (w : world) : nat := count is_error (w_log w).
Definition assets (w : world) : nat := count is_asset (w_requests w).

(** Every file and every path of [f] is still there in [f']. *)
Definition fs_le (f f' : gmap (list string) node) : Prop :=
  forall p : string,
    (isfile f p = true -> isfile f' p = true)
    /\ (path_exists f p = true -> path_exists f' p = true).

(** From [w] to [w'] nothing was written and no asset was requested. *)
Definition quiet (w w' : world) : Prop :=
  w_fs w' = w_fs w /\ assets w' = assets w /\ (errors w <= errors w')%nat.

Definition grows (w w' : world) : Prop :=
  fs_le (w_fs w) (w_fs w') /\ (errors w <= errors w')%nat.

(** An unchanged remote state: the reply to a request does not depend on
    when it is made. *)
Definition stable (net : network) : Prop :=
  forall (t t' : nat) (url : string), net t url = net t' url.

(** A computation whose outcome is the same in every world, and quiet. *)
Definition steady {A : Type} (c : M A) : Prop :=
  exists r : result A,
    r <> Sig Break /\ forall w : world, exists w' : world, c w = (r, w') /\ quiet w w'.

(** A computation that logs an error whenever it ends in [continue]. *)
Definition loud {A : Type} (c : M A) : Prop :=
  forall w w' : world, c w = (Sig Continue, w') -> (errors w < errors w')%nat.

Definition calm {A : Type} (c : M A) : Prop :=
  forall (w w' : world) (r : result A), c w = (r, w') -> (errors w <= errors w')%nat.

(** Outcomes of a loop body after which the loop goes on or ends normally. *)
Definition soft {A : Type} (r : result A) : Prop :=
  match r with
  | Ok _ | Sig Continue | Sig Break => True
  | _ => False
  end.

Definition passes {A : Type} (r : result A) : Prop :=
  match r with
  | Ok _ | Sig Continue => True
  | _ => False
  end.

(** What [get_json] returns for [url] when the remote state is unchanged. *)
Definition answer (net : network) (url : string) : json :=
  match Smdl.parse_reply (net O (Smdl.endpoint +:+ url)) with
  | inr j => j
  | inl _ => JNull
  end.

(** *** Image metadata *)

(** [image.get(k)] on the fields of a metadata record. *)
Definition field (fields : list (string * json)) (k : string) : json :=
  match assoc k fields with
  | Some v => v
  | None => JNull
  end.

Definition is_lower_hex (c : ascii) : bool := between 48 57 c || between 97 102 c.

Definition add_log (l : level) (m : message) (w : world) : world :=
  World (w_fs w) (w_requests w) ((Logged l, m) :: w_log w).

Definition has_key (fields : list (string * json)) (k : string) : bool :=
  match assoc k fields with
  | Some _ => true
  | None => false
  end.

(** The value a resolved descriptor holds for [media]:
    [image_req["Response"][media]["Url"]]. *)
Definition url_in_descriptor (image_req : json) (media : string) : outcome json :=
  match py_item image_req "Response" with
  | Err e => Err e
  | Val resp =>
      match py_item resp media with
      | Err e => Err e
      | Val entry => py_item entry "Url"
      end
  end.

(** *** Album listings *)

(** A page of an album listing as the catalog sends it. *)
Definition page_pages (next : option string) : json :=
  JObj match next with
       | Some token => [("NextPage", JStr token)]
       | None => []
       end.

Definition page_response (items : list json) (next : option string) : json :=
  JObj [("AlbumImage", JArr items); ("Pages", page_pages next)].

Definition page_json (items : list json) (next : option string) : json :=
  JObj [("Response", page_response items next)].

(** The catalog answers every request for [url] with the value [j]. *)
Definition serves (net : network) (url : string) (j : json) : Prop :=
  forall t : nat, Smdl.parse_reply (net t (Smdl.endpoint +:+ url)) = inr j.


Definition next_token (rest : list (string * list json)) : json :=
  match rest with
  | (url, _) :: _ => JStr url
  | [] => JNull
  end.



(** A remote state for the examples: the catalog's values by API path and
    the assets' bytes by URL, at any time. *)
Definition catalog (entries : list (string * json)) (files : list (string * string))
  : network :=
  fun _ url =>
    match List.find (fun e => String.eqb url (Smdl.endpoint +:+ fst e)) entries with
    | Some e => Reply 200 (Body [Some (snd e)] EmptyString true)
    | None =>
        match List.find (fun f => String.eqb url (fst f)) files with
        | Some f => Reply 200 (Body [] (snd f) true)
        | None => NoReply
        end
    end.

(** *** The recovery scan *)

(** The lines the scanner retries, and the text it takes for the URL. *)
Definition retried (line : string) : bool :=
  contains "ERROR - Could not fetch image" line
  && negb (Z.eqb (find "http" line) (-1)).

Definition url_of (line : string) : string :=
  strip (slice_from (find "http" line) line).


(** *** File-system order *)

Definition is_dir (n : node) : bool :=
  match n with
  | Dir => true
  | File _ => false
  end.

(** Every node of [f] is in [f'], of the same kind. *)
Definition node_le (f f' : gmap (list string) node) : Prop :=
  forall (cs : list string) (n : node),
    node_at f cs = Some n ->
    exists n', node_at f' cs = Some n' /\ is_dir n' = is_dir n.

(** *** Catalog values for the examples *)

Definition album_json (name url_path uri : string) : json :=
  JObj [("Name", JStr name); ("UrlPath", JStr url_path); ("Uri", JStr uri)].

Definition album_list_json (albums : list json) : json :=
  JObj [("Response", JObj [("AlbumList", JArr albums)])].

Definition image_json (file_name md5 descriptor : string) : json :=
  JObj [("FileName", JStr file_name); ("ArchivedMD5", JStr md5);
        ("Uris", JObj [("LargestImage", JObj [("Uri", JStr descriptor)])])].

Definition descriptor_json (url : string) : json :=
  JObj [("Response", JObj [("LargestImage", JObj [("Url", JStr url)])])].

(** A user with two albums of one image each; [first_image] is the record of
    the image of the first album. *)
Definition two_albums (first_image : json) : network :=
  catalog
    [("/api/v2/folder/user/bob!albumlist",
      album_list_json [album_json "A" "/A" "/api/v2/album/A";
                       album_json "B" "/B" "/api/v2/album/B"]);
     ("/api/v2/album/A!images", page_json [first_image] None);
     ("/api/v2/album/B!images",
      page_json [image_json "b.jpg" "bbbbbbbbbbbbbbbb" "/api/v2/image/b!largestimage"] None);
     ("/api/v2/image/a!largestimage", descriptor_json "https://photos.smugmug.com/a.jpg");
     ("/api/v2/image/b!largestimage", descriptor_json "https://photos.smugmug.com/b.jpg")]
    [("https://photos.smugmug.com/a.jpg", "bytes of a");
     ("https://photos.smugmug.com/b.jpg", "bytes of b")].

Definition bob : Smdl.arguments := Smdl.Args None "bob" "output/" None.

Definition requested (url : string) (w : world) : bool :=
  existsb (fun r => match r with
                    | ApiGet u | AssetGet u => String.eqb u url
                    end) (w_requests w).

(** ** Vocabulary of the further properties *)

(** A name that can be one component of a path. *)
Definition no_slash (s : string) : Prop :=
  all_chars (fun c => negb (Ascii.eqb c "/")) s = true.

(** [c.join(parts)] for a one-character [c]. *)
Fixpoint join_char (c : ascii) (parts : list string) : string :=
  match parts with
  | [] => EmptyString
  | [x] => x
  | x :: rest => x +:+ String c (join_char c rest)
  end.

Definition newline : string := String "010" EmptyString.

(** The line the file handler of the main script writes for a failed
    download: the format of line 30 applied to the message of line 249,
    [details] being the text of the exception. *)
Definition failure_line (asctime url details : string) : string :=
  asctime +:+ " - ERROR - Could not fetch image from " +:+ url +:+ ": "
          +:+ details +:+ newline.

(** *** Footprints of a run *)

(** Every run of [c] takes the world to one related by [R]. *)
Definition obeys {A : Type} (R : world -> world -> Prop) (c : M A) : Prop :=
  forall (w w' : world) (r : result A), c w = (r, w') -> R w w'.

(** Nodes are added, none is removed or replaced. *)
Definition only_adds (w w' : world) : Prop := w_fs w ⊆ w_fs w'.

(** What [stat] found before, it finds after: a file with the same bytes, a
    directory as a directory. *)
Definition preserved (f f' : gmap (list string) node) : Prop :=
  forall (p : string) (n : node), stat f p = Some n -> stat f' p = Some n.

(** The requests sent from [w] to [w']. *)
Definition sent (w w' : world) (rs : list request) : Prop :=
  w_requests w' = rs ++ w_requests w.

(** At most [n] requests were sent, [a] of them for assets. *)
Definition sends_at_most (n a : nat) (w w' : world) : Prop :=
  exists rs : list request,
    sent w w' rs /\ (length rs <= n)%nat /\ (count is_asset rs <= a)%nat.

(** *** Listings that break off or never end *)

(** No request for [url] is ever answered with a value. *)
Definition unreachable (net : network) (url : string) : Prop :=
  forall t : nat, exists e : failure,
    Smdl.parse_reply (net t (Smdl.endpoint +:+ url)) = inl e.

(** The next-page token of a page, as [.get("NextPage")] returns it. *)
Definition token (next : option string) : json :=
  match next with
  | Some t => JStr t
  | None => JNull
  end.




(** The files and directories are the same in [w'] as in [w]. *)
Definition same_fs (w w' : world) : Prop := w_fs w' = w_fs w.

(** The requests are the same in [w'] as in [w]. *)
Definition same_requests (w w' : world) : Prop := w_requests w' = w_requests w.

(** The test of line 151 passes: the album is to be processed. *)
Definition selected (args : Smdl.arguments) (album_name : string) : bool :=
  negb (nonempty_list (Smdl.specific_albums args)
        && negb (existsb (String.eqb album_name) (Smdl.specific_albums args))).

(** ** Strings *)

Lemma app_cons (x : ascii) (a b : string) : String x a +:+ b = String x (a +:+ b).
Proof. reflexivity. Qed.

Lemma app_nil_l (b : string) : EmptyString +:+ b = b.
Proof. reflexivity. Qed.

(** [simpl] leaves [+:+] alone; these equations are used instead. *)
Ltac str_simpl := simpl; rewrite ?app_cons, ?app_nil_l.
Ltac str_simpl_in H := simpl in H; rewrite ?app_cons, ?app_nil_l in H.

Lemma append_assoc (a b c : string) : (a +:+ b) +:+ c = a +:+ (b +:+ c).
Proof. induction a as [|x a IH]; str_simpl; [reflexivity | now rewrite IH]. Qed.

Lemma append_nil_r (a : string) : a +:+ EmptyString = a.
Proof. induction a as [|x a IH]; str_simpl; [reflexivity | now rewrite IH]. Qed.

Lemma startswith_spec (p s : string) :
  startswith p s = true <-> exists r, s = p +:+ r.
Proof.
  revert s. induction p as [|c p IH]; intros s; simpl.
  - split; [intros _; now exists s | reflexivity].
  - destruct s as [|d s]; [split; [discriminate | intros [r Hr]; discriminate]|].
    rewrite andb_true_iff, IH. split.
    + intros [Hc [r Hr]]. apply Ascii.eqb_eq in Hc. exists r. rewrite app_cons. congruence.
    + intros [r Hr]. rewrite app_cons in Hr. injection Hr as -> ->.
      split; [apply Ascii.eqb_refl | now exists r].
Qed.

Lemma startswith_app (p r : string) : startswith p (p +:+ r) = true.
Proof. apply startswith_spec. now exists r. Qed.

Lemma str_drop_app (p r : string) : str_drop (String.length p) (p +:+ r) = r.
Proof. induction p as [|c p IH]; str_simpl; [now destruct r | exact IH]. Qed.

Lemma contains_spec (sub s : string) :
  contains sub s = true <-> exists a b, s = a +:+ sub +:+ b.
Proof.
  induction s as [|c s IH]; simpl.
  - rewrite orb_false_r, startswith_spec. split.
    + intros [r Hr]. exists EmptyString, r. exact Hr.
    + intros [a [b Hab]]. destruct a; [now exists b | discriminate].
  - rewrite orb_true_iff, startswith_spec, IH. split.
    + intros [[r Hr] | [a [b Hab]]].
      * exists EmptyString, r. exact Hr.
      * exists (String c a), b. rewrite app_cons. now rewrite Hab.
    + intros [a [b Hab]]. destruct a as [|x a]; str_simpl_in Hab.
      * left. now exists b.
      * right. exists a, b. congruence.
Qed.



(** ** The pattern [photos/(.+)/D] *)

Lemma single_line_cons (c : ascii) (g : string) :
  single_line (String c g) <-> is_newline c = false /\ single_line g.
Proof.
  unfold single_line. simpl. rewrite andb_true_iff, negb_true_iff. reflexivity.
Qed.

Lemma dotplus_sound (lit s g : string) :
  match_dotplus_then lit s = Some g ->
  g <> EmptyString /\ single_line g /\ exists b, s = g +:+ lit +:+ b.
Proof.
  revert g. induction s as [|c s IH]; intros g; simpl; [discriminate|].
  destruct (is_newline c) eqn:Hc; [discriminate|].
  destruct (match_dotplus_then lit s) as [g0|] eqn:Hm.
  - intros [= <-]. destruct (IH g0 eq_refl) as (_ & Hl & b & Hb).
    split; [discriminate|]. split; [now apply single_line_cons|].
    exists b. rewrite app_cons. now rewrite Hb.
  - destruct (startswith lit s) eqn:Hp; [|discriminate].
    intros [= <-]. apply startswith_spec in Hp as [b Hb].
    split; [discriminate|]. split; [now apply single_line_cons|].
    exists b. str_simpl. now rewrite Hb.
Qed.

Lemma dotplus_complete (lit s : string) :
  match_dotplus_then lit s = None ->
  forall g b, g <> EmptyString -> single_line g -> s <> g +:+ lit +:+ b.
Proof.
  induction s as [|c s IH]; simpl; intros Hm g b Hg Hl Hs.
  - destruct g; [congruence | discriminate].
  - destruct g as [|x g]; [congruence|]. rewrite app_cons in Hs. injection Hs as <- Hs.
    apply single_line_cons in Hl as [Hc Hl]. rewrite Hc in Hm.
    destruct (match_dotplus_then lit s) eqn:Hm'; [discriminate|].
    destruct (startswith lit s) eqn:Hp; [discriminate|].
    destruct g as [|y g].
    + rewrite app_nil_l in Hs. rewrite Hs, startswith_app in Hp. discriminate.
    + now apply (IH eq_refl (String y g) b).
Qed.

(** The group is the longest text that can be matched from the position. *)
Lemma dotplus_longest (lit s g : string) :
  match_dotplus_then lit s = Some g ->
  forall g' b, g' <> EmptyString -> single_line g' -> s = g' +:+ lit +:+ b ->
               (String.length g' <= String.length g)%nat.
Proof.
  revert g. induction s as [|c s IH]; intros g; simpl; [discriminate|].
  destruct (is_newline c) eqn:Hc; [discriminate|].
  intros Hm g' b Hg Hl Hs.
  destruct g' as [|x g']; [congruence|]. rewrite app_cons in Hs. injection Hs as <- Hs.
  apply single_line_cons in Hl as [_ Hl].
  destruct g' as [|y g'].
  - destruct (match_dotplus_then lit s); destruct (startswith lit s);
      try discriminate; injection Hm as <-; simpl; lia.
  - destruct (match_dotplus_then lit s) as [g0|] eqn:Hm'.
    + injection Hm as <-. simpl.
      specialize (IH g0 eq_refl (String y g') b ltac:(discriminate) Hl Hs).
      simpl in IH. lia.
    + exfalso. now apply (dotplus_complete lit s Hm' (String y g') b).
Qed.

Lemma match_at_sound (pre post s g : string) :
  match_at pre post s = Some g -> exists b, is_match pre post s EmptyString g b.
Proof.
  unfold match_at, is_match. destruct (startswith pre s) eqn:Hp; [|discriminate].
  apply startswith_spec in Hp as [r ->]. rewrite str_drop_app. intros Hm.
  apply dotplus_sound in Hm as (Hg & Hl & b & ->). exists b. now rewrite app_nil_l.
Qed.

Lemma match_at_complete (pre post s : string) :
  match_at pre post s = None -> forall g b, ~ is_match pre post s EmptyString g b.
Proof.
  unfold match_at, is_match. intros Hm g b (Hs & Hg & Hl). rewrite app_nil_l in Hs.
  subst s. rewrite startswith_app, str_drop_app in Hm.
  now apply (dotplus_complete post _ Hm g b).
Qed.

Lemma is_match_cons (pre post s a g b : string) (c : ascii) :
  is_match pre post (String c s) (String c a) g b <-> is_match pre post s a g b.
Proof.
  unfold is_match. rewrite app_cons. split; intros (Hs & H); split; auto; congruence.
Qed.

Lemma re_search_sound (pre post s g : string) :
  re_search_group pre post s = Some g -> exists a b, is_match pre post s a g b.
Proof.
  induction s as [|c s IH]; simpl.
  - destruct (match_at pre post EmptyString) eqn:Hm; [|discriminate].
    intros [= ->]. apply match_at_sound in Hm as [b Hb]. now exists EmptyString, b.
  - destruct (match_at pre post (String c s)) eqn:Hm.
    + intros [= ->]. apply match_at_sound in Hm as [b Hb]. now exists EmptyString, b.
    + intros Hr. destruct (IH Hr) as (a & b & Hab). exists (String c a), b.
      now apply is_match_cons.
Qed.

Lemma re_search_complete (pre post s : string) :
  re_search_group pre post s = None -> forall a g b, ~ is_match pre post s a g b.
Proof.
  induction s as [|c s IH]; simpl.
  - destruct (match_at pre post EmptyString) eqn:Hm; [discriminate|].
    intros _ a g b Hab. destruct a as [|x a].
    + now apply (match_at_complete _ _ _ Hm g b).
    + destruct Hab as [Hs _]. discriminate.
  - destruct (match_at pre post (String c s)) eqn:Hm; [discriminate|].
    intros Hr a g b Hab. destruct a as [|x a].
    + now apply (match_at_complete _ _ _ Hm g b).
    + assert (x = c) as -> by (destruct Hab as [Hs _]; rewrite app_cons in Hs; congruence).
      apply (proj1 (is_match_cons _ _ _ _ _ _ _)) in Hab. exact (IH Hr a g b Hab).
Qed.

(** The match found is the leftmost one, and the longest from there. *)
Lemma re_search_leftmost (pre post s g : string) :
  re_search_group pre post s = Some g ->
  exists a b, is_match pre post s a g b
    /\ forall a' g' b', is_match pre post s a' g' b' ->
         (String.length a <= String.length a')%nat
         /\ (String.length a' = String.length a ->
             (String.length g' <= String.length g)%nat).
Proof.
  assert (Hhere : forall s g, match_at pre post s = Some g ->
            exists b, is_match pre post s EmptyString g b
              /\ forall g' b', is_match pre post s EmptyString g' b' ->
                   (String.length g' <= String.length g)%nat).
  { clear. intros s g Hm. destruct (match_at_sound _ _ _ _ Hm) as [b Hb].
    exists b. split; [exact Hb|]. intros g' b' (Hs' & Hg' & Hl').
    unfold match_at in Hm. rewrite app_nil_l in Hs'. subst s.
    rewrite startswith_app, str_drop_app in Hm.
    now apply (dotplus_longest post _ g Hm g' b'). }
  assert (Hnil : forall s g, match_at pre post s = Some g ->
            exists a b, is_match pre post s a g b
              /\ forall a' g' b', is_match pre post s a' g' b' ->
                   (String.length a <= String.length a')%nat
                   /\ (String.length a' = String.length a ->
                       (String.length g' <= String.length g)%nat)).
  { intros s0 g0 Hm. destruct (Hhere _ _ Hm) as (b & Hb & Hmax).
    exists EmptyString, b. split; [exact Hb|]. intros a' g' b' Hab'.
    split; [simpl; lia|]. destruct a'; [|discriminate]. intros _. now apply (Hmax g' b'). }
  revert g. induction s as [|c s IH]; intros g; simpl.
  - destruct (match_at pre post EmptyString) eqn:Hm; [|discriminate].
    intros [= ->]. now apply Hnil.
  - destruct (match_at pre post (String c s)) eqn:Hm.
    + intros [= ->]. now apply Hnil.
    + intros Hr. destruct (IH g Hr) as (a & b & Hab & Hmin).
      exists (String c a), b. split; [now apply is_match_cons|].
      intros a' g' b' Hab'. destruct a' as [|x a'].
      * exfalso. now apply (match_at_complete _ _ _ Hm g' b').
      * assert (x = c) as -> by (destruct Hab' as [Hs _]; rewrite app_cons in Hs; congruence).
        apply (proj1 (is_match_cons _ _ _ _ _ _ _)) in Hab'. destruct (Hmin a' g' b' Hab') as [H1 H2].
        simpl. split; [lia|]. intros Hlen. apply H2. lia.
Qed.

(** ** File names *)

Lemma re_sub_negset_map (items : list set_item) (s : string) :
  re_sub_negset items "_" s
  = str_map (fun c => if in_set items c then c else "_"%char) s.
Proof.
  induction s as [|c s IH]; simpl; [reflexivity|].
  rewrite IH. now destruct (in_set items c).
Qed.

Lemma str_map_ext (f g : ascii -> ascii) (s : string) :
  (forall c, f c = g c) -> str_map f s = str_map g s.
Proof. intros H. induction s as [|c s IH]; simpl; [reflexivity | now rewrite IH, H]. Qed.

Lemma in_set_allowed (c : ascii) :
  in_set [SWord; SChar "-"; SChar "_"; SChar "."; SChar " "] c = allowed c.
Proof. unfold in_set, allowed. simpl. now rewrite orb_false_r, !orb_assoc. Qed.

Lemma smdl_sanitize_map (s : string) :
  Smdl.sanitize_filename s = str_map sanitize_char s.
Proof.
  unfold Smdl.sanitize_filename. rewrite re_sub_negset_map.
  apply str_map_ext. intros c. unfold sanitize_char. now rewrite in_set_allowed.
Qed.

Lemma retry_sanitize_map (s : string) :
  Retry.sanitize_filename s = str_map sanitize_char s.
Proof. exact (smdl_sanitize_map s). Qed.

Lemma str_map_length (f : ascii -> ascii) (s : string) :
  String.length (str_map f s) = String.length s.
Proof. induction s as [|c s IH]; simpl; congruence. Qed.

Lemma str_map_get (f : ascii -> ascii) (s : string) (i : nat) :
  String.get i (str_map f s) = option_map f (String.get i s).
Proof.
  revert i. induction s as [|c s IH]; intros i; simpl; [reflexivity|].
  destruct i; [reflexivity | apply IH].
Qed.

Lemma str_map_take (f : ascii -> ascii) (n : nat) (s : string) :
  str_take n (str_map f s) = str_map f (str_take n s).
Proof.
  revert s. induction n as [|n IH]; intros [|c s]; simpl; try reflexivity.
  now rewrite IH.
Qed.

Lemma str_map_drop (f : ascii -> ascii) (n : nat) (s : string) :
  str_drop n (str_map f s) = str_map f (str_drop n s).
Proof.
  revert s. induction n as [|n IH]; intros [|c s]; simpl; try reflexivity.
  apply IH.
Qed.

(** A map that neither makes nor removes the character [d] keeps its last
    position. *)
Lemma rfind_from_map (f : ascii -> ascii) (d : ascii) (s : string) (i : Z) :
  (forall c, Ascii.eqb (f c) d = Ascii.eqb c d) ->
  rfind_from d (str_map f s) i = rfind_from d s i.
Proof.
  intros Hf. revert i. induction s as [|c s IH]; intros i; simpl; [reflexivity|].
  now rewrite IH, Hf.
Qed.

Lemma rfind_from_absent (d : ascii) (s : string) (i : Z) :
  all_chars (fun c => negb (Ascii.eqb c d)) s = true -> rfind_from d s i = -1.
Proof.
  revert i. induction s as [|c s IH]; intros i; simpl; [reflexivity|].
  rewrite andb_true_iff, negb_true_iff. intros [Hc Hs]. now rewrite (IH _ Hs), Hc.
Qed.

Lemma has_non_dot_map (f : ascii -> ascii) (s : string) :
  (forall c, Ascii.eqb (f c) "." = Ascii.eqb c ".") ->
  has_non_dot (str_map f s) = has_non_dot s.
Proof.
  intros Hf. induction s as [|c s IH]; simpl; [reflexivity|]. now rewrite IH, Hf.
Qed.

Lemma sanitize_char_dot (c : ascii) :
  Ascii.eqb (sanitize_char c) "." = Ascii.eqb c ".".
Proof.
  unfold sanitize_char. destruct (allowed c) eqn:Ha; [reflexivity|].
  destruct (Ascii.eqb_spec c "."); [subst; discriminate | reflexivity].
Qed.

Lemma sanitize_char_not_slash (c : ascii) :
  negb (Ascii.eqb (sanitize_char c) "/") = true.
Proof.
  unfold sanitize_char. destruct (allowed c) eqn:Ha; [|reflexivity].
  destruct (Ascii.eqb_spec c "/"); [subst; discriminate | reflexivity].
Qed.

Lemma sanitized_has_no_slash (s : string) :
  all_chars (fun c => negb (Ascii.eqb c "/")) (str_map sanitize_char s) = true.
Proof.
  induction s as [|c s IH]; simpl; [reflexivity|].
  now rewrite sanitize_char_not_slash, IH.
Qed.

(** On a name without a slash, sanitising and splitting commute: the
    extension of the sanitised name is the sanitised extension. *)
Lemma splitext_sanitize (s : string) :
  all_chars (fun c => negb (Ascii.eqb c "/")) s = true ->
  splitext (str_map sanitize_char s)
  = (str_map sanitize_char (fst (splitext s)), str_map sanitize_char (snd (splitext s))).
Proof.
  intros Hs. unfold splitext, rfind, slice_to, slice_from.
  rewrite (rfind_from_absent "/" _ 0 (sanitized_has_no_slash s)).
  rewrite (rfind_from_absent "/" _ 0 Hs).
  rewrite (rfind_from_map sanitize_char "." s 0 sanitize_char_dot).
  rewrite !str_map_drop, !str_map_take, (has_non_dot_map _ _ sanitize_char_dot).
  destruct (Z.ltb (-1) (rfind_from "." s 0)); [|reflexivity].
  now destruct (has_non_dot _).
Qed.

(** A name made of allowed characters is left as it is. *)
Lemma sanitize_allowed (s : string) :
  all_chars allowed s = true -> str_map sanitize_char s = s.
Proof.
  induction s as [|c s IH]; simpl; [reflexivity|].
  rewrite andb_true_iff. intros [Hc Hs]. unfold sanitize_char at 1.
  now rewrite Hc, (IH Hs).
Qed.


(** ** Reasoning about runs *)

Lemma bind_inv {A B : Type} (c : M A) (k : A -> M B) (w w' : world) (r : result B) :
  bind c k w = (r, w') ->
  (exists a w1, c w = (Ok a, w1) /\ k a w1 = (r, w'))
  \/ (exists s, c w = (Sig s, w') /\ r = Sig s).
Proof.
  unfold bind. destruct (c w) as [[a|s] w1] eqn:Hc.
  - intros Hk. left. now exists a, w1.
  - intros [= <- <-]. right. now exists s.
Qed.

Lemma bind_ok {A B : Type} (c : M A) (k : A -> M B) (w w1 : world) (a : A) :
  c w = (Ok a, w1) -> bind c k w = k a w1.
Proof. unfold bind. now intros ->. Qed.

Lemma bind_sig {A B : Type} (c : M A) (k : A -> M B) (w w1 : world) (s : signal) :
  c w = (Sig s, w1) -> bind c k w = (Sig s, w1).
Proof. unfold bind. now intros ->. Qed.

Lemma quiet_refl (w : world) : quiet w w.
Proof. unfold quiet. auto. Qed.

Lemma quiet_trans (w1 w2 w3 : world) : quiet w1 w2 -> quiet w2 w3 -> quiet w1 w3.
Proof. unfold quiet. intros (-> & -> & H1) (-> & -> & H2). repeat split. lia. Qed.

Lemma fs_le_refl (f : gmap (list string) node) : fs_le f f.
Proof. intros p. auto. Qed.

Lemma fs_le_trans (f1 f2 f3 : gmap (list string) node) :
  fs_le f1 f2 -> fs_le f2 f3 -> fs_le f1 f3.
Proof. intros H1 H2 p. destruct (H1 p), (H2 p). auto. Qed.

Lemma grows_refl (w : world) : grows w w.
Proof. split; [apply fs_le_refl | lia]. Qed.

Lemma grows_trans (w1 w2 w3 : world) : grows w1 w2 -> grows w2 w3 -> grows w1 w3.
Proof. intros [F1 E1] [F2 E2]. split; [eapply fs_le_trans; eauto | lia]. Qed.

Lemma quiet_grows (w w' : world) : quiet w w' -> grows w w'.
Proof. intros (Hf & _ & He). split; [rewrite Hf; apply fs_le_refl | exact He]. Qed.

Lemma emit_quiet (ch : channel) (m : message) (w : world) :
  exists w', emit ch m w = (Ok tt, w') /\ quiet w w'
             /\ errors w' = ((if is_error (ch, m) then 1 else 0) + errors w)%nat.
Proof.
  eexists. split; [reflexivity|]. unfold quiet, errors, assets. simpl.
  repeat split; try reflexivity. lia.
Qed.

(** *** Steady computations *)

Lemma steady_ret {A : Type} (a : A) : steady (ret a).
Proof. exists (Ok a). split; [discriminate|]. intros w. exists w. split; [reflexivity | apply quiet_refl]. Qed.

Lemma steady_raise {A : Type} (s : signal) : s <> Break -> steady (@raise A s).
Proof.
  intros Hs. exists (Sig s). split; [congruence|]. intros w. exists w.
  split; [reflexivity | apply quiet_refl].
Qed.

Lemma steady_lift {A : Type} (o : outcome A) : steady (lift o).
Proof.
  eexists. split; [|intros w; exists w; split; [reflexivity | apply quiet_refl]].
  destruct o; discriminate.
Qed.

Lemma steady_emit (ch : channel) (m : message) : steady (emit ch m).
Proof.
  exists (Ok tt). split; [discriminate|]. intros w.
  destruct (emit_quiet ch m w) as (w' & H & Q & _). now exists w'.
Qed.

Lemma steady_bind {A B : Type} (c : M A) (k : A -> M B) :
  steady c -> (forall a, steady (k a)) -> steady (bind c k).
Proof.
  intros (r & Hr & Hc) Hk. destruct r as [a|s].
  - destruct (Hk a) as (r' & Hr' & Hka). exists r'. split; [exact Hr'|].
    intros w. destruct (Hc w) as (w1 & H1 & Q1). destruct (Hka w1) as (w2 & H2 & Q2).
    exists w2. split; [now rewrite (bind_ok _ _ _ _ _ H1) | eapply quiet_trans; eauto].
  - exists (Sig s). split; [intros [= ->]; now apply Hr|]. intros w.
    destruct (Hc w) as (w1 & H1 & Q1).
    exists w1. split; [now rewrite (bind_sig _ _ _ _ _ H1) | exact Q1].
Qed.

Lemma steady_calm {A : Type} (c : M A) : steady c -> calm c.
Proof.
  intros (r & _ & Hc) w w' r' H. destruct (Hc w) as (w1 & H1 & _ & _ & He).
  rewrite H in H1. injection H1 as <- <-. exact He.
Qed.

Lemma steady_same {A : Type} (c : M A) (w W w' : world) (r : result A) :
  steady c -> c w = (r, w') ->
  r <> Sig Break /\ quiet w w' /\ exists W', c W = (r, W') /\ quiet W W'.
Proof.
  intros (r0 & Hr & Hc) H. destruct (Hc w) as (w1 & H1 & Q1).
  rewrite H in H1. injection H1 as <- <-. split; [exact Hr|]. split; [exact Q1|].
  exact (Hc W).
Qed.

(** *** Loud computations *)

Lemma loud_ret {A : Type} (a : A) : loud (ret a).
Proof. intros w w'. discriminate. Qed.

Lemma loud_lift {A : Type} (o : outcome A) : loud (lift o).
Proof. intros w w'. unfold lift. destruct o; discriminate. Qed.

Lemma loud_raise {A : Type} (s : signal) : s <> Continue -> loud (@raise A s).
Proof. intros Hs w w'. unfold raise. intros [= ]. congruence. Qed.

Lemma loud_emit (ch : channel) (m : message) : loud (emit ch m).
Proof. intros w w'. discriminate. Qed.

Lemma loud_bind {A B : Type} (c : M A) (k : A -> M B) :
  calm c -> loud c -> (forall a, loud (k a)) -> loud (bind c k).
Proof.
  intros Hcalm Hc Hk w w' H. apply bind_inv in H as [(a & w1 & H1 & H2) | (s & H1 & Hs)].
  - specialize (Hcalm _ _ _ H1). specialize (Hk a _ _ H2). lia.
  - injection Hs as <-. exact (Hc _ _ H1).
Qed.

Lemma loud_error_continue {A : Type} (m : message) :
  loud (let* _ := logging ERROR m in @raise A Continue).
Proof.
  intros w w'. unfold bind, logging, emit, raise. intros [= <-].
  unfold errors. simpl. lia.
Qed.

Lemma steady_error_continue {A : Type} (m : message) :
  steady (let* _ := logging ERROR m in @raise A Continue).
Proof. apply steady_bind; [apply steady_emit | intros; now apply steady_raise]. Qed.

(** ** [get_json] *)

Lemma count_app {A : Type} (p : A -> bool) (l1 l2 : list A) :
  count p (l1 ++ l2) = (count p l1 + count p l2)%nat.
Proof. induction l1 as [|x l1 IH]; simpl; [reflexivity | rewrite IH; lia]. Qed.

Lemma count_repeat_false {A : Type} (p : A -> bool) (x : A) (n : nat) :
  p x = false -> count p (repeat x n) = O.
Proof. intros Hx. induction n as [|n IH]; simpl; [reflexivity | now rewrite Hx, IH]. Qed.

Lemma repeat_snoc_app {A : Type} (x : A) (n : nat) (l : list A) :
  repeat x n ++ x :: l = repeat x (S n) ++ l.
Proof. induction n as [|n IH]; simpl; [reflexivity | now rewrite IH]. Qed.

(** The run of the retry loop over any list of attempt numbers: [k] requests
    are sent, all for the same URL; the first [k - 1] replies fail; either the
    list is used up and the result is [None], or the last reply holds the
    value returned. *)
Lemma get_json_loop_run (net : network) (url : string) (l : list nat) (w : world) :
  exists (j : json) (k : nat) (logs : list (channel * message)),
    Smdl.get_json_loop net l url w
    = (Ok j, World (w_fs w)
                   (repeat (ApiGet (Smdl.endpoint +:+ url)) k ++ w_requests w)
                   (logs ++ w_log w))
    /\ (k <= length l)%nat
    /\ (forall m, (S m < k)%nat ->
          exists e, Smdl.parse_reply
                      (net (length (w_requests w) + m)%nat (Smdl.endpoint +:+ url)) = inl e)
    /\ ((k = length l /\ j = JNull
         /\ forall m, (m < k)%nat ->
              exists e, Smdl.parse_reply
                          (net (length (w_requests w) + m)%nat (Smdl.endpoint +:+ url)) = inl e)
        \/ exists m, k = S m
             /\ Smdl.parse_reply
                  (net (length (w_requests w) + m)%nat (Smdl.endpoint +:+ url)) = inr j).
Proof.
  revert w. induction l as [|i l IH]; intros w.
  - exists JNull, O, []. simpl. destruct w. split; [reflexivity|]. split; [lia|].
    split; [intros; lia|]. left. repeat split. intros; lia.
  - simpl. unfold bind at 1, requests_get at 1.
    destruct (Smdl.parse_reply (net (length (w_requests w)) (Smdl.endpoint +:+ url)))
      as [e|j] eqn:Hp.
    + set (w1 := World (w_fs w) (ApiGet (Smdl.endpoint +:+ url) :: w_requests w)
                       (w_log w)).
      match goal with
      | |- context [bind (logging ERROR ?m) ?k w1] =>
          change (bind (logging ERROR m) k w1)
            with (k tt (World (w_fs w1) (w_requests w1) ((Logged ERROR, m) :: w_log w1)))
      end.
      cbv beta.
      match goal with
      | |- context [bind ?c ?k ?w2] =>
          assert (exists e2, bind c k w2
                             = k tt (World (w_fs w2) (w_requests w2) (e2 :: w_log w2)))
            as [e2 ->]
            by (destruct (Nat.ltb (i + 1) Smdl.num_retries); eexists; reflexivity)
      end.
      cbv beta. simpl w_fs. simpl w_requests. simpl w_log.
      match goal with
      | |- context [Smdl.get_json_loop net l url ?w3] =>
          destruct (IH w3) as (j & k & logs & Hrun & Hk & Hfail & Hend)
      end.
      simpl in Hrun, Hfail, Hend. rewrite Hrun.
      exists j, (S k). eexists. split.
      { rewrite repeat_snoc_app. do 2 f_equal. exact (app_assoc _ [_; _] _). }
      split; [simpl; lia|]. split.
      { intros [|m] Hm.
        - exists e. now rewrite Nat.add_0_r.
        - destruct (Hfail m ltac:(lia)) as [e' He']. exists e'.
          now rewrite <- Nat.add_succ_comm. }
      destruct Hend as [(-> & -> & Hall) | (m & -> & Hm)].
      * left. repeat split. intros [|m] Hm.
        -- exists e. now rewrite Nat.add_0_r.
        -- destruct (Hall m ltac:(simpl in Hm; lia)) as [e' He']. exists e'.
           now rewrite <- Nat.add_succ_comm.
      * right. exists (S m). split; [reflexivity|]. now rewrite <- Nat.add_succ_comm.
    + exists j, 1%nat, []. simpl. split; [reflexivity|]. split; [lia|].
      split; [intros; lia|]. right. exists O. now rewrite Nat.add_0_r.
Qed.

(** The same for [get_json] itself: between 1 and 5 requests. *)
Lemma get_json_run (net : network) (url : string) (w : world) :
  exists (j : json) (k : nat) (logs : list (channel * message)),
    Smdl.get_json net (JStr url) w
    = (Ok j, World (w_fs w)
                   (repeat (ApiGet (Smdl.endpoint +:+ url)) k ++ w_requests w)
                   (logs ++ w_log w))
    /\ (1 <= k <= 5)%nat
    /\ (forall m, (S m < k)%nat ->
          exists e, Smdl.parse_reply
                      (net (length (w_requests w) + m)%nat (Smdl.endpoint +:+ url)) = inl e)
    /\ ((k = 5%nat /\ j = JNull
         /\ forall m, (m < 5)%nat ->
              exists e, Smdl.parse_reply
                          (net (length (w_requests w) + m)%nat (Smdl.endpoint +:+ url)) = inl e)
        \/ exists m, k = S m
             /\ Smdl.parse_reply
                  (net (length (w_requests w) + m)%nat (Smdl.endpoint +:+ url)) = inr j).
Proof.
  unfold Smdl.get_json.
  destruct (get_json_loop_run net url (seq 0 Smdl.num_retries) w)
    as (j & k & logs & Hrun & Hk & Hfail & Hend).
  exists j, k, logs. split; [exact Hrun|]. simpl in Hk.
  split; [|split; [exact Hfail|]].
  - destruct Hend as [(-> & _) | (m & -> & _)]; simpl; lia.
  - destruct Hend as [(-> & -> & Hall) | Hlast]; [left | right; exact Hlast].
    repeat split. exact Hall.
Qed.

Lemma get_json_quiet (net : network) (v : json) (w w' : world) (r : result json) :
  Smdl.get_json net v w = (r, w') -> quiet w w'.
Proof.
  destruct v; unfold Smdl.get_json, raise; try (intros [= <- <-]; apply quiet_refl).
  destruct (get_json_loop_run net s (seq 0 Smdl.num_retries) w)
    as (j & k & logs & Hrun & _).
  rewrite Hrun. intros [= <- <-]. unfold quiet, assets, errors. simpl.
  rewrite !count_app, count_repeat_false by reflexivity.
  repeat split; lia.
Qed.

(** With an unchanged remote state [get_json] is a function of the URL. *)
Lemma get_json_stable (net : network) (url : string) (w : world) :
  stable net -> fst (Smdl.get_json net (JStr url) w) = Ok (answer net url).
Proof.
  intros Hs. unfold Smdl.get_json.
  destruct (get_json_loop_run net url (seq 0 Smdl.num_retries) w)
    as (j & k & logs & Hrun & _ & _ & Hend).
  rewrite Hrun. simpl. f_equal. unfold answer.
  destruct Hend as [(-> & -> & Hall) | (m & -> & Hm)].
  - destruct (Hall O ltac:(simpl; lia)) as [e He].
    rewrite (Hs _ O) in He. now rewrite He.
  - rewrite (Hs _ O) in Hm. now rewrite Hm.
Qed.

Lemma steady_get_json (net : network) (v : json) :
  stable net -> steady (Smdl.get_json net v).
Proof.
  intros Hs. destruct v;
    try (apply steady_raise; discriminate).
  exists (Ok (answer net s)). split; [discriminate|]. intros w.
  destruct (Smdl.get_json net (JStr s) w) as [r w'] eqn:H.
  exists w'. split.
  - pose proof (get_json_stable net s w Hs) as Hr. rewrite H in Hr. simpl in Hr.
    now rewrite Hr.
  - exact (get_json_quiet _ _ _ _ _ H).
Qed.

Lemma get_json_total (net : network) (v : json) (w w' : world) (r : result json) :
  Smdl.get_json net v w = (r, w') ->
  (exists j, r = Ok j) \/ r = Sig (Exn TypeError).
Proof.
  destruct v; unfold Smdl.get_json, raise; try (intros [= <- <-]; now right).
  destruct (get_json_loop_run net s (seq 0 Smdl.num_retries) w)
    as (j & k & logs & Hrun & _).
  rewrite Hrun. intros [= <- <-]. left. now exists j.
Qed.

Lemma loud_get_json (net : network) (v : json) : loud (Smdl.get_json net v).
Proof.
  intros w w' H. apply get_json_total in H as [[j Hj] | Hj]; discriminate.
Qed.

Lemma calm_get_json (net : network) (v : json) : calm (Smdl.get_json net v).
Proof. intros w w' r H. apply get_json_quiet in H. apply H. Qed.

(** ** The identity deriver *)

Lemma all_chars_app (p : ascii -> bool) (a b : string) :
  all_chars p (a +:+ b) = all_chars p a && all_chars p b.
Proof.
  induction a as [|c a IH]; str_simpl; [reflexivity|]. simpl.
  now rewrite IH, andb_assoc.
Qed.

Lemma str_length_app (a b : string) :
  String.length (a +:+ b) = (String.length a + String.length b)%nat.
Proof. induction a as [|c a IH]; str_simpl; simpl; [reflexivity | now rewrite IH]. Qed.

Lemma str_take_length (n : nat) (s : string) :
  String.length (str_take n s) = Nat.min n (String.length s).
Proof.
  revert s. induction n as [|n IH]; intros [|c s]; simpl; try reflexivity.
  now rewrite IH.
Qed.

Lemma str_take_all_chars (p : ascii -> bool) (n : nat) (s : string) :
  all_chars p s = true -> all_chars p (str_take n s) = true.
Proof.
  revert s. induction n as [|n IH]; intros [|c s]; simpl; try reflexivity.
  rewrite !andb_true_iff. intros [Hc Hs]. split; [exact Hc | now apply IH].
Qed.

Lemma hex_digit_lower (n : N) : (n < 16)%N -> is_lower_hex (hex_digit n) = true.
Proof.
  intros Hn. destruct n as [|p]; [reflexivity|].
  do 4 (destruct p as [p|p|]; try reflexivity); exfalso; lia.
Qed.

Lemma hex8_lower (w : N) :
  String.length (hex8 w) = 8%nat /\ all_chars is_lower_hex (hex8 w) = true.
Proof.
  split; [reflexivity|]. unfold hex8. cbn [all_chars].
  rewrite !hex_digit_lower by (apply N.mod_lt; discriminate). reflexivity.
Qed.

(** A digest is 64 lowercase hexadecimal digits. *)
Lemma sha256_hexdigest_shape (s : string) :
  String.length (sha256_hexdigest s) = 64%nat
  /\ all_chars is_lower_hex (sha256_hexdigest s) = true.
Proof.
  unfold sha256_hexdigest, hexdigest.
  rewrite !str_length_app, !all_chars_app.
  repeat match goal with
         | |- context [hex8 ?w] =>
             let H := fresh in
             destruct (hex8_lower w) as [H ->]; rewrite H; clear H
         end.
  split; reflexivity.
Qed.

Lemma py_get_field (fields : list (string * json)) (k : string) :
  py_get (JObj fields) k = Val (field fields k).
Proof. reflexivity. Qed.

(** The run of [derive_unique_id] on a metadata record. *)
Lemma derive_unique_id_run (album_name : string)
      (fields : list (string * json)) (w : world) :
  Smdl.derive_unique_id album_name (JObj fields) w
  = match List.find truthy
            [field fields "ArchivedMD5"; field fields "MD5Sum"; field fields "id"] with
    | Some unique_id => (Ok unique_id, w)
    | None =>
        match assoc "Uri" fields with
        | Some (JStr uri) =>
            if nonempty uri
            then (Ok (JStr (sha256_hexdigest uri)), add_log WARNING (UsingHashOfUri album_name) w)
            else (Sig Continue, add_log ERROR (MissingIdAndUri album_name) w)
        | Some v =>
            if truthy v then (Sig (Exn AttributeError), w)
            else (Sig Continue, add_log ERROR (MissingIdAndUri album_name) w)
        | None => (Sig Continue, add_log ERROR (MissingIdAndUri album_name) w)
        end
    end.
Proof.
  unfold Smdl.derive_unique_id. rewrite !py_get_field. cbn [List.find]. unfold py_or.
  generalize (field fields "ArchivedMD5") (field fields "MD5Sum") (field fields "id").
  intros a m i. unfold bind at 1 2. cbn [lift].
  destruct (truthy a) eqn:Ha; [now rewrite Ha|].
  destruct (truthy m) eqn:Hm; [reflexivity|].
  unfold bind at 1. cbn [lift].
  destruct (truthy i) eqn:Hi; [reflexivity|].
  unfold py_get_default. unfold bind at 1. cbn [lift].
  destruct (assoc "Uri" fields) as [v|]; [|reflexivity].
  destruct v as [| b | n | uri | items | fs]; try reflexivity.
  - now destruct b.
  - cbn [truthy]. now destruct (Z.eqb n 0).
  - cbn [truthy]. unfold nonempty. now destruct (String.eqb uri EmptyString).
  - now destruct items.
  - now destruct fs.
Qed.

Lemma make_unique_filename_str (image : json) (file_name id : string) :
  py_get_default image "FileName" (JStr "unknown_filename") = Val (JStr file_name) ->
  Smdl.make_unique_filename image (JStr id)
  = Val (fst (splitext (Smdl.sanitize_filename file_name))
           +:+ "_" +:+ str_take 8 id
           +:+ snd (splitext (Smdl.sanitize_filename file_name))).
Proof.
  intros Hf. unfold Smdl.make_unique_filename. rewrite Hf. simpl.
  now destruct (splitext (Smdl.sanitize_filename file_name)).
Qed.

Lemma derive_unique_id_pure (n1 n2 : string) (fields : list (string * json))
      (w1 w2 : world) :
  fst (Smdl.derive_unique_id n1 (JObj fields) w1)
  = fst (Smdl.derive_unique_id n2 (JObj fields) w2).
Proof.
  rewrite !derive_unique_id_run.
  destruct (List.find _ _); [reflexivity|].
  destruct (assoc "Uri" fields) as [[| | |uri| |]|]; try reflexivity;
    match goal with |- context [if ?b then _ else _] => now destruct b end.
Qed.

(** ** The download resolver *)

Lemma choose_largest_media_obj (uris : list (string * json)) :
  Smdl.choose_largest_media (JObj uris)
  = Val (List.find (has_key uris) ["LargestVideo"; "ImageDownload"; "LargestImage"]).
Proof.
  unfold Smdl.choose_largest_media, py_in, has_key. cbn [List.find].
  destruct (assoc "LargestVideo" uris); [reflexivity|].
  destruct (assoc "ImageDownload" uris); [reflexivity|].
  now destruct (assoc "LargestImage" uris).
Qed.

Lemma find_has_key (uris : list (string * json)) (l : list string) (media : string) :
  List.find (has_key uris) l = Some media -> has_key uris media = true.
Proof. intros H. now apply List.find_some in H. Qed.

Lemma archived_url_run (album_name unique_filename : string)
      (fields : list (string * json)) (w : world) :
  Smdl.archived_url album_name unique_filename (JObj fields) w
  = if truthy (field fields "ArchivedUri")
    then (Ok (field fields "ArchivedUri"), w)
    else (Sig Continue, add_log ERROR (NoDownloadUrl unique_filename album_name) w).
Proof.
  unfold Smdl.archived_url. rewrite py_get_field. unfold bind at 1. cbn [lift].
  now destruct (truthy (field fields "ArchivedUri")).
Qed.

Lemma resolve_with_media (net : network) (album_name unique_filename media : string)
      (fields uris : list (string * json)) (location uri : json) (w : world) :
  assoc "Uris" fields = Some (JObj uris) ->
  List.find (has_key uris) ["LargestVideo"; "ImageDownload"; "LargestImage"] = Some media ->
  assoc media uris = Some location ->
  py_item location "Uri" = Val uri ->
  Smdl.resolve_download_url net album_name unique_filename (JObj fields) w
  = match Smdl.get_json net uri w with
    | (Ok JNull, w1) =>
        (Sig Continue, add_log ERROR (CouldNotRetrieveImageData (py_str uri)) w1)
    | (Ok image_req, w1) =>
        (match url_in_descriptor image_req media with
         | Val url => Ok url
         | Err e => Sig (Exn e)
         end, w1)
    | (Sig s, w1) => (Sig s, w1)
    end.
Proof.
  intros HU Hfind Hloc Huri. unfold Smdl.resolve_download_url.
  unfold py_item at 1. rewrite HU. unfold bind at 1. cbn [lift].
  rewrite choose_largest_media_obj, Hfind. unfold bind at 1. cbn [lift].
  unfold py_in. apply find_has_key in Hfind as Hk. unfold has_key in Hk.
  unfold bind at 1. cbn [lift]. rewrite Hloc.
  unfold py_item at 1. rewrite Hloc. unfold bind at 1. cbn [lift].
  rewrite Huri. unfold bind at 1. cbn [lift].
  unfold bind at 1. destruct (Smdl.get_json net uri w) as [[image_req|s] w1]; [|reflexivity].
  unfold url_in_descriptor.
  destruct image_req; try reflexivity;
    unfold Smdl.is_none; cbv iota;
    unfold bind at 1; cbn [lift];
    (destruct (py_item _ "Response") as [resp|e]; [|reflexivity]);
    unfold bind at 1; cbn [lift];
    (destruct (py_item resp media) as [entry|e]; [|reflexivity]);
    now destruct (py_item entry "Url").
Qed.

Lemma resolve_without_media (net : network) (album_name unique_filename : string)
      (fields uris : list (string * json)) (w : world) :
  assoc "Uris" fields = Some (JObj uris) ->
  List.find (has_key uris) ["LargestVideo"; "ImageDownload"; "LargestImage"] = None ->
  Smdl.resolve_download_url net album_name unique_filename (JObj fields) w
  = Smdl.archived_url album_name unique_filename (JObj fields) w.
Proof.
  intros HU Hfind. unfold Smdl.resolve_download_url.
  unfold py_item at 1. rewrite HU. unfold bind at 1. cbn [lift].
  rewrite choose_largest_media_obj, Hfind. unfold bind at 1. cbn [lift]. reflexivity.
Qed.

(** ** Pagination *)

Lemma get_json_served (net : network) (url : string) (j : json) (w : world) :
  serves net url j ->
  Smdl.get_json net (JStr url) w
  = (Ok j, World (w_fs w) (ApiGet (Smdl.endpoint +:+ url) :: w_requests w) (w_log w)).
Proof.
  intros Hs. unfold Smdl.get_json. cbn [seq Smdl.num_retries Smdl.get_json_loop].
  unfold bind at 1, requests_get at 1. now rewrite Hs.
Qed.


Lemma next_token_truthy (rest : list (string * list json)) :
  Forall (fun p => nonempty (fst p) = true) rest ->
  truthy (next_token rest) = match rest with [] => false | _ => true end.
Proof. intros H. destruct H as [|[url items] rest Hu _]; [reflexivity | exact Hu]. Qed.





(** ** The recovery scan *)

Lemma scan_line_run (net : network) (args : Retry.arguments) (line : string) :
  Retry.scan_line net args line
  = if retried line then Retry.download_image net args (url_of line) else ret tt.
Proof.
  unfold Retry.scan_line, retried, url_of.
  destruct (contains _ line); [|reflexivity].
  now destruct (Z.eqb (find "http" line) (-1)).
Qed.






(** ** The file system *)

Lemma node_le_refl (f : gmap (list string) node) : node_le f f.
Proof. intros cs n H. now exists n. Qed.

Lemma node_le_trans (f1 f2 f3 : gmap (list string) node) :
  node_le f1 f2 -> node_le f2 f3 -> node_le f1 f3.
Proof.
  intros H1 H2 cs n Hn. destruct (H1 cs n Hn) as (n2 & Hn2 & K2).
  destruct (H2 cs n2 Hn2) as (n3 & Hn3 & K3). exists n3. split; [exact Hn3 | congruence].
Qed.

Lemma node_le_fs_le (f f' : gmap (list string) node) : node_le f f' -> fs_le f f'.
Proof.
  intros H p. unfold isfile, path_exists, stat.
  destruct (String.eqb p EmptyString); [split; discriminate|].
  destruct (node_at f (components p)) as [n|] eqn:Hn; [|split; discriminate].
  destruct (H _ _ Hn) as (n' & -> & K).
  destruct n as [c|], n' as [c'|]; try discriminate K;
    destruct (endswith_char "/" p); split; auto.
Qed.

Lemma node_at_insert (f : gmap (list string) node) (cs cs' : list string) (n : node) :
  node_at (<[cs := n]> f) cs'
  = if is_root cs' then Some Dir
    else if decide (cs = cs') then Some n else node_at f cs'.
Proof.
  unfold node_at. destruct (is_root cs'); [reflexivity|].
  rewrite lookup_insert. now destruct (decide (cs = cs')).
Qed.

Lemma insert_node_le (f : gmap (list string) node) (cs : list string) (n : node) :
  (forall old, node_at f cs = Some old -> is_dir old = is_dir n) ->
  node_le f (<[cs := n]> f).
Proof.
  intros Hold cs' m Hm. rewrite node_at_insert.
  unfold node_at in Hm |- *. destruct (is_root cs') eqn:Hr.
  - injection Hm as <-. now exists Dir.
  - destruct (decide (cs = cs')) as [->|Hne].
    + exists n. split; [reflexivity|]. symmetry. apply Hold.
      unfold node_at. now rewrite Hr.
    + now exists m.
Qed.

Lemma mkdirs_node_le (rest : list string) :
  forall (pre : list string) (f f' : gmap (list string) node),
    mkdirs pre rest f = Some f' -> node_le f f'.
Proof.
  induction rest as [|c rest IH]; intros pre f f'; simpl.
  - intros [= <-]. apply node_le_refl.
  - destruct (node_at f (pre ++ [c])) as [[content|]|] eqn:Hn; [discriminate| |].
    + apply IH.
    + intros Hm. eapply node_le_trans; [|exact (IH _ _ _ Hm)].
      apply insert_node_le. intros old Hold. congruence.
Qed.

Lemma mkdirs_dir (rest : list string) :
  forall (pre : list string) (f f' : gmap (list string) node),
    mkdirs pre rest f = Some f' -> rest <> [] -> node_at f' (pre ++ rest) = Some Dir.
Proof.
  induction rest as [|c rest IH]; intros pre f f' Hm Hne; [congruence|].
  simpl in Hm.
  assert (Hstep : exists f1, mkdirs (pre ++ [c]) rest f1 = Some f'
                             /\ node_at f1 (pre ++ [c]) = Some Dir).
  { destruct (node_at f (pre ++ [c])) as [[content|]|] eqn:Hn; [discriminate| |].
    - now exists f.
    - exists (<[pre ++ [c] := Dir]> f). split; [exact Hm|].
      rewrite node_at_insert. destruct (is_root (pre ++ [c])); [reflexivity|].
      now destruct (decide (pre ++ [c] = pre ++ [c])). }
  destruct Hstep as (f1 & Hm1 & Hd).
  destruct rest as [|c' rest].
  - simpl in Hm1. injection Hm1 as <-. exact Hd.
  - replace (pre ++ c :: c' :: rest) with ((pre ++ [c]) ++ c' :: rest)
      by (now rewrite <- app_assoc).
    apply (IH _ _ _ Hm1). discriminate.
Qed.

Lemma makedirs_grows (f f' : gmap (list string) node) (p : string) :
  makedirs f p = Some f' -> fs_le f f' /\ path_exists f' p = true.
Proof.
  unfold makedirs. destruct (String.eqb p EmptyString) eqn:Hp; [discriminate|].
  destruct (node_at f (components p)) as [n|] eqn:Hn; [discriminate|].
  intros Hm. split; [apply node_le_fs_le; exact (mkdirs_node_le _ _ _ _ Hm)|].
  assert (components p <> []) as Hne.
  { intros E. rewrite E in Hn. discriminate Hn. }
  pose proof (mkdirs_dir _ _ _ _ Hm Hne) as Hd. simpl in Hd.
  unfold path_exists, stat. now rewrite Hp, Hd.
Qed.

Lemma open_write_grows (f f' : gmap (list string) node) (p content : string) :
  open_write f p content = Some f' -> fs_le f f' /\ isfile f' p = true.
Proof.
  unfold open_write.
  destruct (String.eqb p EmptyString) eqn:Hp; [discriminate|].
  destruct (endswith_char "/" p) eqn:He; [discriminate|]. cbn [orb].
  destruct (node_at f (components p)) as [[old|]|] eqn:Hn;
    [| discriminate |];
    (destruct (node_at f (removelast (components p))) as [[?|]|]; try discriminate;
     intros [= <-]; split;
     [ apply node_le_fs_le, insert_node_le; intros o Ho; rewrite Hn in Ho; now inversion Ho
     | unfold isfile, stat; rewrite Hp, node_at_insert;
       unfold node_at in Hn; destruct (is_root (components p)); [discriminate Hn|];
       destruct (decide (components p = components p)); [|congruence];
       now rewrite He ]).
Qed.

Lemma open_append_grows (f f' : gmap (list string) node) (p : string) :
  open_append f p = Some f' -> fs_le f f' /\ isfile f' p = true.
Proof.
  unfold open_append.
  destruct (String.eqb p EmptyString) eqn:Hp; [discriminate|].
  destruct (endswith_char "/" p) eqn:He; [discriminate|]. cbn [orb].
  destruct (node_at f (components p)) as [[old|]|] eqn:Hn; [| discriminate |];
    (destruct (node_at f (removelast (components p))) as [[?|]|]; try discriminate).
  - intros [= <-]. split; [apply fs_le_refl|].
    unfold isfile, stat. now rewrite Hp, Hn, He.
  - intros [= <-]. split.
    + apply node_le_fs_le, insert_node_le. intros o Ho. rewrite Hn in Ho. discriminate Ho.
    + unfold isfile, stat. rewrite Hp, node_at_insert.
      unfold node_at in Hn. destruct (is_root (components p)); [discriminate Hn|].
      destruct (decide (components p = components p)); [|congruence].
      now rewrite He.
Qed.

Lemma node_at_weaken (f g : gmap (list string) node) (cs : list string) (n : node) :
  f ⊆ g -> node_at f cs = Some n -> node_at g cs = Some n.
Proof.
  intros Hsub. unfold node_at. destruct (is_root cs); [easy|].
  intros H. exact (lookup_weaken _ _ _ _ H Hsub).
Qed.

(** A log file that was opened is opened again, as it is, in every file
    system that holds the nodes of the first. *)
Lemma open_append_again (f f' g : gmap (list string) node) (p : string) :
  open_append f p = Some f' -> f' ⊆ g -> open_append g p = Some g.
Proof.
  unfold open_append.
  destruct (String.eqb p EmptyString || endswith_char "/" p); [discriminate|].
  assert (Hfile : forall c, node_at f' (components p) = Some (File c) ->
                       node_at f' (removelast (components p)) = Some Dir ->
                       f' ⊆ g ->
                       match node_at g (components p), node_at g (removelast (components p)) with
                       | Some Dir, _ => None
                       | Some (File _), Some Dir => Some g
                       | None, Some Dir => Some (<[components p := File EmptyString]> g)
                       | _, _ => None
                       end = Some g).
  { intros c Hn Hp Hsub.
    now rewrite (node_at_weaken _ _ _ _ Hsub Hn), (node_at_weaken _ _ _ _ Hsub Hp). }
  destruct (node_at f (components p)) as [[old|]|] eqn:Hn; [| discriminate |];
    (destruct (node_at f (removelast (components p))) as [[?|]|] eqn:Hp; try discriminate).
  - intros [= <-]. now apply (Hfile old).
  - intros [= <-]. apply (Hfile EmptyString).
    + rewrite node_at_insert. unfold node_at in Hn.
      destruct (is_root (components p)); [discriminate Hn|].
      now destruct (decide (components p = components p)).
    + rewrite node_at_insert.
      destruct (is_root (removelast (components p))); [reflexivity|].
      destruct (decide (components p = removelast (components p))) as [E|_]; [|exact Hp].
      rewrite <- E in Hp. congruence.
Qed.

(** ** A second run *)

Ltac steady_step :=
  first
    [ apply steady_ret
    | apply steady_lift
    | apply steady_emit
    | apply steady_raise; discriminate
    | apply steady_get_json; assumption
    | apply steady_bind; [|intros]
    | match goal with
      | |- steady (if ?b then _ else _) => destruct b
      | |- steady (match ?x with _ => _ end) => destruct x
      end ].

Ltac loud_step :=
  first
    [ apply loud_error_continue
    | apply loud_ret
    | apply loud_lift
    | apply loud_emit
    | apply loud_raise; discriminate
    | apply loud_get_json
    | apply loud_bind; [first [apply calm_get_json | apply steady_calm; repeat steady_step] | |intros]
    | match goal with
      | |- loud (if ?b then _ else _) => destruct b
      | |- loud (match ?x with _ => _ end) => destruct x
      end ].

Lemma lift_inv {A : Type} (o : outcome A) (w w' : world) (r : result A) :
  lift o w = (r, w') ->
  w' = w /\ r = match o with Val a => Ok a | Err e => Sig (Exn e) end.
Proof. unfold lift. now intros [= <- <-]. Qed.

Lemma bind_lift {A B : Type} (o : outcome A) (k : A -> M B) (w : world) :
  bind (lift o) k w = match o with Val a => k a w | Err e => (Sig (Exn e), w) end.
Proof. unfold bind, lift. now destruct o. Qed.

Lemma steady_quiet {A : Type} (c : M A) (w w' : world) (r : result A) :
  steady c -> c w = (r, w') -> quiet w w'.
Proof. intros S H. now destruct (steady_same c w w w' r S H) as (_ & Q & _). Qed.

Lemma steady_derive (album_name : string) (image : json) :
  steady (Smdl.derive_unique_id album_name image).
Proof. unfold Smdl.derive_unique_id. repeat steady_step. Qed.

Lemma loud_derive (album_name : string) (image : json) :
  loud (Smdl.derive_unique_id album_name image).
Proof. unfold Smdl.derive_unique_id. repeat loud_step. Qed.

Lemma steady_archived_url (album_name unique_filename : string) (image : json) :
  steady (Smdl.archived_url album_name unique_filename image).
Proof. unfold Smdl.archived_url. repeat steady_step. Qed.

Lemma steady_resolve (net : network) (album_name unique_filename : string) (image : json) :
  stable net -> steady (Smdl.resolve_download_url net album_name unique_filename image).
Proof.
  intros Hs. unfold Smdl.resolve_download_url.
  repeat first [apply steady_archived_url | steady_step].
Qed.

Lemma loud_archived_url (album_name unique_filename : string) (image : json) :
  loud (Smdl.archived_url album_name unique_filename image).
Proof. unfold Smdl.archived_url. repeat loud_step. Qed.

Lemma loud_resolve (net : network) (album_name unique_filename : string) (image : json) :
  stable net -> loud (Smdl.resolve_download_url net album_name unique_filename image).
Proof.
  intros Hs. unfold Smdl.resolve_download_url.
  repeat first [apply loud_archived_url | loud_step].
Qed.

Lemma steady_paginate (net : network) (album_name : string) :
  stable net ->
  forall (n : nat) (images next : json),
    steady (Smdl.paginate net n album_name images next).
Proof.
  intros Hs. induction n as [|n IH]; intros images next; cbn [Smdl.paginate];
    repeat first [apply IH | steady_step].
Qed.

Lemma steady_fetch_images (net : network) (fuel : nat) (album_name : string) (album : json) :
  stable net -> steady (Smdl.fetch_images net fuel album_name album).
Proof.
  intros Hs. unfold Smdl.fetch_images.
  repeat first [apply steady_paginate; assumption | steady_step].
Qed.

Lemma add_log_error_grows (m : message) (w : world) :
  grows w (add_log ERROR m w) /\ (errors w < errors (add_log ERROR m w))%nat.
Proof. unfold grows, errors. simpl. split; [split; [apply fs_le_refl | lia] | lia]. Qed.

(** The download either writes the file and ends normally, or logs an error
    and goes on to the next image; it never raises. *)
Lemma download_run (net : network) (download_url : json) (image_path : string)
      (w w' : world) (r : result unit) :
  Smdl.download net download_url image_path w = (r, w') ->
  grows w w'
  /\ ((r = Ok tt /\ isfile (w_fs w') image_path = true)
      \/ (r = Sig Continue /\ (errors w < errors w')%nat)).
Proof.
  unfold Smdl.download, Smdl.could_not_fetch.
  destruct download_url as [| | |url| |];
    try (unfold bind, logging, emit, raise; intros [= <- <-];
         split; [split; [apply fs_le_refl | unfold errors; simpl; lia]
                | right; split; [reflexivity | unfold errors; simpl; lia]]).
  unfold bind at 1, requests_get at 1.
  destruct (net (length (w_requests w)) url) as [|status b].
  { unfold bind, logging, emit, raise; intros [= <- <-].
    split; [split; [apply fs_le_refl | unfold errors; simpl; lia]
           | right; split; [reflexivity | unfold errors; simpl; lia]]. }
  destruct (status_is_error status).
  { unfold bind, logging, emit, raise; intros [= <- <-].
    split; [split; [apply fs_le_refl | unfold errors; simpl; lia]
           | right; split; [reflexivity | unfold errors; simpl; lia]]. }
  unfold bind at 1, get_fs at 1. cbn [w_fs].
  destruct (open_write (w_fs w) image_path (content b)) as [fs'|] eqn:Ho.
  2: { unfold bind, logging, emit, raise; intros [= <- <-].
       split; [split; [apply fs_le_refl | unfold errors; simpl; lia]
              | right; split; [reflexivity | unfold errors; simpl; lia]]. }
  apply open_write_grows in Ho as [Hle Hfile].
  unfold bind at 1, put_fs at 1. cbn [w_requests w_log].
  destruct (complete b).
  - unfold logging, emit. intros [= <- <-]. split.
    + split; [exact Hle | unfold errors; simpl; lia].
    + left. split; [reflexivity | exact Hfile].
  - unfold bind, logging, emit, raise. intros [= <- <-]. split.
    + split; [exact Hle | unfold errors; simpl; lia].
    + right. split; [reflexivity | unfold errors; simpl; lia].
Qed.

Lemma process_image_skip (net : network) (album_name album_path : string)
      (image unique_id : json) (unique_filename : string) (w w1 : world) :
  Smdl.derive_unique_id album_name image w = (Ok unique_id, w1) ->
  Smdl.make_unique_filename image unique_id = Val unique_filename ->
  isfile (w_fs w1) (path_join album_path unique_filename) = true ->
  Smdl.process_image net album_name album_path image w = (Sig Continue, w1).
Proof.
  intros Hd Hf Hfile. unfold Smdl.process_image.
  rewrite (bind_ok _ _ _ _ _ Hd). rewrite Hf.
  unfold bind at 1. cbn [lift]. unfold bind at 1, get_fs at 1. now rewrite Hfile.
Qed.

Lemma process_image_grows (net : network) (album_name album_path : string)
      (image : json) (w w' : world) (r : result unit) :
  stable net ->
  Smdl.process_image net album_name album_path image w = (r, w') -> grows w w'.
Proof.
  intros Hs H. unfold Smdl.process_image in H.
  apply bind_inv in H as [(id & w1 & Hd & H) | (s & Hd & _)];
    [|exact (quiet_grows _ _ (steady_quiet _ _ _ _ (steady_derive _ _) Hd))].
  pose proof (quiet_grows _ _ (steady_quiet _ _ _ _ (steady_derive _ _) Hd)) as G1.
  apply bind_inv in H as [(f & w1' & Hf & H) | (s & Hf & _)];
    apply lift_inv in Hf as [-> Hf]; [|exact G1].
  unfold bind at 1, get_fs at 1 in H.
  destruct (isfile (w_fs w1) (path_join album_path f)).
  - unfold raise in H. injection H as _ <-. exact G1.
  - apply bind_inv in H as [(url & w2 & Hr & H) | (s & Hr & _)].
    + pose proof (quiet_grows _ _ (steady_quiet _ _ _ _ (steady_resolve _ _ _ _ Hs) Hr)) as G2.
      apply download_run in H as [G3 _].
      eapply grows_trans; [exact G1|]. eapply grows_trans; eauto.
    + pose proof (quiet_grows _ _ (steady_quiet _ _ _ _ (steady_resolve _ _ _ _ Hs) Hr)) as G2.
      eapply grows_trans; eauto.
Qed.

(** An image that a first run passed without logging an error is skipped by
    a later run: its file is there. *)
Lemma process_image_replay (net : network) (album_name album_path : string)
      (image : json) (w w' W : world) (r : result unit) :
  stable net ->
  Smdl.process_image net album_name album_path image w = (r, w') ->
  soft r -> errors w' = errors w -> fs_le (w_fs w') (w_fs W) ->
  passes r
  /\ exists W', Smdl.process_image net album_name album_path image W = (Sig Continue, W')
                /\ quiet W W'.
Proof.
  intros Hs H Hsoft Herr Hle. unfold Smdl.process_image in H.
  apply bind_inv in H as [(id & w1 & Hd & H) | (s & Hd & ->)].
  2: { exfalso. destruct s; try contradiction.
       - apply loud_derive in Hd. lia.
       - now destruct (steady_same _ w w _ _ (steady_derive _ _) Hd) as (Hb & _). }
  destruct (steady_same _ w W _ _ (steady_derive _ _) Hd) as (_ & Q1 & W1 & HdW & QW).
  apply bind_inv in H as [(f & w1' & Hf & H) | (s & Hf & ->)];
    apply lift_inv in Hf as [-> Hf].
  2: { destruct (Smdl.make_unique_filename image id); [discriminate Hf|].
       injection Hf as ->. contradiction. }
  assert (Hmk : Smdl.make_unique_filename image id = Val f)
    by (destruct (Smdl.make_unique_filename image id); congruence).
  assert (Hgoal : isfile (w_fs w') (path_join album_path f) = true -> r <> Sig Break ->
                  passes r
                  /\ exists W', Smdl.process_image net album_name album_path image W
                                = (Sig Continue, W') /\ quiet W W').
  { intros Hfile Hnb. split; [destruct r as [|[]]; try contradiction; simpl; auto|].
    exists W1. split; [|exact QW].
    apply (process_image_skip net album_name album_path image id f W W1 HdW Hmk).
    destruct QW as (-> & _). now apply Hle. }
  unfold bind at 1, get_fs at 1 in H.
  destruct (isfile (w_fs w1) (path_join album_path f)) eqn:Hfile.
  - unfold raise in H. injection H as <- <-. apply Hgoal; [exact Hfile | discriminate].
  - destruct Q1 as (_ & _ & E1).
    apply bind_inv in H as [(url & w2 & Hr & H) | (s & Hr & ->)].
    + pose proof (steady_quiet _ _ _ _ (steady_resolve _ _ _ _ Hs) Hr) as (_ & _ & E2).
      apply download_run in H as [_ [[-> Hf'] | [-> E3]]].
      * apply Hgoal; [exact Hf' | discriminate].
      * exfalso. lia.
    + exfalso. destruct s; try contradiction.
      * apply (loud_resolve _ _ _ _ Hs) in Hr. lia.
      * now destruct (steady_same _ w1 w1 _ _ (steady_resolve _ _ _ _ Hs) Hr) as (Hb & _).
Qed.

(** *** Loops *)

Lemma for_each_result {X : Type} (body : X -> M unit) (xs : list X) (w w' : world)
      (s : signal) :
  for_each xs body w = (Sig s, w') -> s <> Continue /\ s <> Break.
Proof.
  revert w. induction xs as [|x xs IH]; intros w; cbn [for_each]; [discriminate|].
  destruct (body x w) as [[[]|[]] w1]; try (apply IH); try discriminate;
    intros [= <- <-]; split; discriminate.
Qed.

Lemma for_each_grows {X : Type} (body : X -> M unit) (xs : list X) :
  (forall x w r w', body x w = (r, w') -> grows w w') ->
  forall (w w' : world) (r : result unit), for_each xs body w = (r, w') -> grows w w'.
Proof.
  intros Hbody. induction xs as [|x xs IH]; intros w w' r; cbn [for_each].
  - intros [= <- <-]. apply grows_refl.
  - destruct (body x w) as [r1 w1] eqn:Hb. pose proof (Hbody _ _ _ _ Hb) as G1.
    destruct r1 as [[]|[]]; try (intros [= <- <-]; exact G1);
      intros H; apply IH in H; eapply grows_trans; eauto.
Qed.

(** A loop that a first run went through without logging an error is gone
    through again, quietly, by a run that starts where the first one
    ended. *)
Lemma for_each_replay {X : Type} (body : X -> M unit) (xs : list X) :
  (forall x w r w', body x w = (r, w') -> grows w w') ->
  (forall x w w' W r,
      body x w = (r, w') -> soft r -> errors w' = errors w -> fs_le (w_fs w') (w_fs W) ->
      passes r /\ exists r' W', body x W = (r', W') /\ passes r' /\ quiet W W') ->
  forall (w w' W : world),
    for_each xs body w = (Ok tt, w') -> errors w' = errors w ->
    fs_le (w_fs w') (w_fs W) ->
    exists W', for_each xs body W = (Ok tt, W') /\ quiet W W'.
Proof.
  intros Hgrows Hreplay. induction xs as [|x xs IH]; intros w w' W; cbn [for_each].
  - intros [= <-] _ _. exists W. split; [reflexivity | apply quiet_refl].
  - destruct (body x w) as [r1 w1] eqn:Hb. intros H Herr Hle.
    pose proof (Hgrows _ _ _ _ Hb) as [F1 E1].
    assert (Hrest : soft r1 ->
                    (passes r1 -> for_each xs body w1 = (Ok tt, w')) ->
                    (r1 = Sig Break -> w' = w1) ->
                    exists W', (let (r0, w0) := body x W in
                                match r0 with
                                | Ok _ | Sig Continue => for_each xs body w0
                                | Sig Break => (Ok tt, w0)
                                | Sig s => (Sig s, w0)
                                end) = (Ok tt, W') /\ quiet W W').
    { intros Hsoft Hpass Hbreak.
      assert (errors w' = errors w1 /\ fs_le (w_fs w1) (w_fs w')) as [E2 F2].
      { destruct r1 as [[]|[]]; try contradiction.
        - pose proof (for_each_grows body xs Hgrows _ _ _ (Hpass I)) as [F2 E2].
          split; [lia | exact F2].
        - pose proof (for_each_grows body xs Hgrows _ _ _ (Hpass I)) as [F2 E2].
          split; [lia | exact F2].
        - rewrite (Hbreak eq_refl). split; [reflexivity | apply fs_le_refl]. }
      destruct (Hreplay x w w1 W r1 Hb Hsoft ltac:(lia)
                  (fs_le_trans _ _ _ F2 Hle)) as (Hp & r' & W1 & HbW & Hp' & Q1).
      rewrite HbW.
      destruct (IH w1 w' W1 (Hpass Hp) E2) as (W' & HW & Q2).
      { destruct Q1 as (-> & _). exact Hle. }
      exists W'. split; [|eapply quiet_trans; eauto].
      destruct r' as [[]|[]]; try contradiction; exact HW. }
    destruct r1 as [[]|[]]; try discriminate H.
    + apply Hrest; [exact I | intros _; exact H | discriminate].
    + apply Hrest; [exact I | intros _; exact H | discriminate].
    + apply Hrest; [exact I | contradiction | intros _; now injection H].
Qed.

(** *** Albums *)

(** A steady step at the head of a computation, in a first run from [w] and
    in a later run from [W]. *)
Lemma replay_bind_steady {A B : Type} (c : M A) (k : A -> M B) (w w' W : world)
      (r : result B) :
  steady c -> bind c k w = (r, w') ->
  (exists a w1 W1,
      quiet w w1 /\ quiet W W1 /\ k a w1 = (r, w') /\ bind c k W = k a W1)
  \/ (exists s W1,
         r = Sig s /\ s <> Break /\ quiet w w' /\ quiet W W1
         /\ bind c k W = (Sig s, W1) /\ c w = (Sig s, w')).
Proof.
  intros S H. apply bind_inv in H as [(a & w1 & Hc & Hk) | (s & Hc & ->)].
  - destruct (steady_same c w W _ _ S Hc) as (_ & Q & W1 & HW & QW).
    left. exists a, w1, W1.
    split; [exact Q|]. split; [exact QW|]. split; [exact Hk|].
    exact (bind_ok _ _ _ _ _ HW).
  - destruct (steady_same c w W _ _ S Hc) as (Hb & Q & W1 & HW & QW).
    right. exists s, W1.
    split; [reflexivity|]. split; [congruence|]. split; [exact Q|]. split; [exact QW|].
    split; [exact (bind_sig _ _ _ _ _ HW) | exact Hc].
Qed.

Lemma ensure_album_path_run (album_path : string) (w w' : world) (r : result unit) :
  Smdl.ensure_album_path album_path w = (r, w') ->
  grows w w'
  /\ ((r = Ok tt /\ path_exists (w_fs w') album_path = true)
      \/ (r = Sig Continue /\ (errors w < errors w')%nat)).
Proof.
  unfold Smdl.ensure_album_path. unfold bind at 1, get_fs at 1.
  destruct (path_exists (w_fs w) album_path) eqn:He.
  - intros [= <- <-]. split; [apply grows_refl | left; now split].
  - destruct (makedirs (w_fs w) album_path) as [fs'|] eqn:Hm.
    + apply makedirs_grows in Hm as [Hle Hex].
      unfold bind, put_fs, logging, emit. intros [= <- <-]. split.
      * split; [exact Hle | unfold errors; simpl; lia].
      * left. now split.
    + unfold bind, logging, emit, raise. intros [= <- <-]. split.
      * split; [apply fs_le_refl | unfold errors; simpl; lia].
      * right. split; [reflexivity | unfold errors; simpl; lia].
Qed.

Lemma ensure_album_path_there (album_path : string) (W : world) :
  path_exists (w_fs W) album_path = true ->
  Smdl.ensure_album_path album_path W = (Ok tt, W).
Proof.
  intros H. unfold Smdl.ensure_album_path. unfold bind at 1, get_fs at 1. now rewrite H.
Qed.

Lemma quiet_fs_le (w w' : world) (F : gmap (list string) node) :
  quiet w w' -> fs_le (w_fs w') F -> fs_le (w_fs w) F.
Proof. intros (-> & _) H. exact H. Qed.

Lemma album_images_grows (net : network) (fuel : nat) (album_name album_path : string)
      (album : json) (w w' : world) (r : result unit) :
  stable net ->
  (let* _ := Smdl.ensure_album_path album_path in
   let* images := Smdl.fetch_images net fuel album_name album in
   let* items := lift (py_iter images) in
   for_each items (Smdl.process_image net album_name album_path)) w = (r, w') ->
  grows w w'.
Proof.
  intros Hs H.
  apply bind_inv in H as [([] & wa & He & H) | (s & He & _)];
    apply ensure_album_path_run in He as [Ga _]; [|exact Ga].
  apply bind_inv in H as [(images & wf & Hf & H) | (s & Hf & _)];
    pose proof (quiet_grows _ _ (steady_quiet _ _ _ _
                  (steady_fetch_images net fuel album_name album Hs) Hf)) as Gf;
    [|eapply grows_trans; eauto].
  apply bind_inv in H as [(items & wi & Hi & H) | (s & Hi & _)];
    apply lift_inv in Hi as [-> _]; [|eapply grows_trans; eauto].
  apply for_each_grows in H;
    [|intros x v r0 v'; apply (process_image_grows net album_name album_path x v v' r0 Hs)].
  eapply grows_trans; [exact Ga|]. eapply grows_trans; eauto.
Qed.

Lemma album_images_replay (net : network) (fuel : nat) (album_name album_path : string)
      (album : json) (w w' W : world) (r : result unit) :
  stable net ->
  (let* _ := Smdl.ensure_album_path album_path in
   let* images := Smdl.fetch_images net fuel album_name album in
   let* items := lift (py_iter images) in
   for_each items (Smdl.process_image net album_name album_path)) w = (r, w') ->
  soft r -> errors w' = errors w -> fs_le (w_fs w') (w_fs W) ->
  passes r
  /\ exists r' W',
      (let* _ := Smdl.ensure_album_path album_path in
       let* images := Smdl.fetch_images net fuel album_name album in
       let* items := lift (py_iter images) in
       for_each items (Smdl.process_image net album_name album_path)) W = (r', W')
      /\ passes r' /\ quiet W W'.
Proof.
  intros Hs H Hsoft Herr Hle.
  pose proof (album_images_grows net fuel album_name album_path album w w' r Hs H)
    as [_ Etotal].
  apply bind_inv in H as [([] & wa & He & H) | (s & He & ->)];
    apply ensure_album_path_run in He as [[Fa Ea] Hcase].
  2: { exfalso. destruct Hcase as [[Hr _] | [_ Hlt]]; [discriminate Hr | lia]. }
  destruct Hcase as [[_ Hthere] | [Hr _]]; [|discriminate Hr].
  assert (Hrest : grows wa w').
  { apply bind_inv in H as [(images & wf & Hf & H) | (s & Hf & _)];
      pose proof (quiet_grows _ _ (steady_quiet _ _ _ _
                    (steady_fetch_images net fuel album_name album Hs) Hf)) as Gf;
      [|exact Gf].
    apply bind_inv in H as [(items & wi & Hi & H) | (s & Hi & _)];
      apply lift_inv in Hi as [-> _]; [|exact Gf].
    apply for_each_grows in H;
      [|intros x v r0 v'; apply (process_image_grows net album_name album_path x v v' r0 Hs)].
    eapply grows_trans; eauto. }
  destruct Hrest as [Frest Erest].
  assert (HthereW : path_exists (w_fs W) album_path = true).
  { apply Hle. now apply Frest. }
  rewrite (bind_ok _ _ _ _ _ (ensure_album_path_there album_path W HthereW)).
  apply (replay_bind_steady _ _ wa w' W r
           (steady_fetch_images net fuel album_name album Hs)) in H
    as [(images & wf & Wf & Qf & QW & H & ->) | (s & Wf & -> & Hb & Qf & QW & -> & _)].
  2: { destruct s; try contradiction. split; [exact I|].
       exists (Sig Continue), Wf. split; [reflexivity|]. split; [exact I | exact QW]. }
  rewrite bind_lift in H |- *.
  destruct (py_iter images) as [items|e].
  2: { injection H as <- _. contradiction. }
  destruct r as [[]|s].
  2: { apply for_each_result in H as [Hc Hb]. destruct s; contradiction. }
  split; [exact I|].
  destruct Qf as (Ff & _ & Ef).
  destruct (for_each_replay (Smdl.process_image net album_name album_path) items
              (fun x v r0 v' => process_image_grows net album_name album_path x v v' r0 Hs)
              (fun x v v' V r0 Hrun Hsoft0 He0 Hle0 =>
                 match process_image_replay net album_name album_path x v v' V r0
                         Hs Hrun Hsoft0 He0 Hle0 with
                 | conj Hp (ex_intro _ V' (conj HV QV)) =>
                     conj Hp (ex_intro _ (Sig Continue) (ex_intro _ V' (conj HV (conj I QV))))
                 end)
              wf w' Wf H) as (W' & HW & QW').
  - pose proof (for_each_grows _ items
                  (fun x v r0 v' => process_image_grows net album_name album_path x v v' r0 Hs)
                  _ _ _ H) as [_ E3]. lia.
  - destruct QW as (-> & _). exact Hle.
  - exists (Ok tt), W'. split; [exact HW|]. split; [exact I|]. eapply quiet_trans; eauto.
Qed.

Lemma process_album_unfold (net : network) (args : Smdl.arguments) (fuel : nat)
      (album : json) (w : world) :
  Smdl.process_album net args fuel album w
  = match py_get_default album "Name" (JStr "Unnamed_Album") with
    | Err e => (Sig (Exn e), w)
    | Val name =>
        match py_strip name with
        | Err e => (Sig (Exn e), w)
        | Val album_name =>
            if nonempty_list (Smdl.specific_albums args)
               && negb (existsb (String.eqb album_name) (Smdl.specific_albums args))
            then (Sig Continue, w)
            else
              match py_get_default album "UrlPath" (JStr EmptyString) with
              | Err e => (Sig (Exn e), w)
              | Val url_path =>
                  match py_lstrip_slash url_path with
                  | Err e => (Sig (Exn e), w)
                  | Val album_url_path =>
                      if negb (nonempty album_url_path)
                      then (Sig Continue, add_log WARNING (AlbumHasNoUrlPath album_name) w)
                      else
                        (let* _ := Smdl.ensure_album_path
                                     (path_join (Smdl.output_dir args) album_url_path) in
                         let* images := Smdl.fetch_images net fuel album_name album in
                         let* items := lift (py_iter images) in
                         for_each items
                           (Smdl.process_image net album_name
                              (path_join (Smdl.output_dir args) album_url_path))) w
                  end
              end
        end
    end.
Proof.
  unfold Smdl.process_album. rewrite bind_lift.
  destruct (py_get_default album "Name" _) as [name|e]; [|reflexivity].
  rewrite bind_lift. destruct (py_strip name) as [album_name|e]; [|reflexivity].
  destruct (nonempty_list _ && _); [reflexivity|].
  rewrite bind_lift.
  destruct (py_get_default album "UrlPath" _) as [url_path|e]; [|reflexivity].
  rewrite bind_lift. destruct (py_lstrip_slash url_path) as [album_url_path|e]; [|reflexivity].
  now destruct (negb (nonempty album_url_path)).
Qed.

Lemma add_log_quiet (l : level) (m : message) (w : world) : quiet w (add_log l m w).
Proof. unfold quiet, assets, errors. simpl. repeat split. lia. Qed.

Lemma process_album_grows (net : network) (args : Smdl.arguments) (fuel : nat)
      (album : json) (w w' : world) (r : result unit) :
  stable net ->
  Smdl.process_album net args fuel album w = (r, w') -> grows w w'.
Proof.
  intros Hs. rewrite process_album_unfold.
  repeat match goal with
         | |- context [match ?x with _ => _ end] =>
             lazymatch x with
             | bind _ _ _ => fail
             | _ => destruct x
             end
         end;
    try (intros [= <- <-]; first [apply grows_refl | apply quiet_grows, add_log_quiet]).
  apply album_images_grows. exact Hs.
Qed.

Lemma process_album_replay (net : network) (args : Smdl.arguments) (fuel : nat)
      (album : json) (w w' W : world) (r : result unit) :
  stable net ->
  Smdl.process_album net args fuel album w = (r, w') ->
  soft r -> errors w' = errors w -> fs_le (w_fs w') (w_fs W) ->
  passes r
  /\ exists r' W', Smdl.process_album net args fuel album W = (r', W')
                   /\ passes r' /\ quiet W W'.
Proof.
  intros Hs. rewrite !process_album_unfold.
  repeat match goal with
         | |- context [match ?x with _ => _ end] =>
             lazymatch x with
             | bind _ _ _ => fail
             | _ => destruct x
             end
         end;
    try (intros [= <- <-] Hsoft _ _; simpl in Hsoft;
         first [ contradiction
               | split; [exact I|];
                 eexists; eexists; split; [reflexivity|]; split; [exact I|];
                 first [apply quiet_refl | apply add_log_quiet] ]).
  apply album_images_replay. exact Hs.
Qed.

(** *** The whole run *)

Lemma steady_except_KeyError {A : Type} (c h : M A) :
  steady c -> steady h -> steady (Smdl.except_KeyError c h).
Proof.
  intros (rc & Hrc & Hc) (rh & Hrh & Hh).
  assert (Hother : (forall w w', c w = (rc, w') ->
                      Smdl.except_KeyError c h w = (rc, w')) ->
                   steady (Smdl.except_KeyError c h)).
  { intros Hsame. exists rc. split; [exact Hrc|]. intros w.
    destruct (Hc w) as (w1 & H1 & Q1). exists w1. split; [now apply Hsame | exact Q1]. }
  destruct rc as [a|[[]| | | |]];
    try (apply Hother; intros w w' H; unfold Smdl.except_KeyError; now rewrite H).
  exists rh. split; [exact Hrh|]. intros w.
  destruct (Hc w) as (w1 & H1 & Q1). destruct (Hh w1) as (w2 & H2 & Q2).
  exists w2. split; [|eapply quiet_trans; eauto].
  unfold Smdl.except_KeyError. now rewrite H1.
Qed.

Lemma steady_read_album_list (args : Smdl.arguments) (albums_data : json) :
  steady (Smdl.read_album_list args albums_data).
Proof.
  unfold Smdl.read_album_list. apply steady_except_KeyError; repeat steady_step.
Qed.

Lemma steady_logging (l : level) (m : message) : steady (logging l m).
Proof. apply steady_emit. Qed.

Lemma sync_replay (net : network) (args : Smdl.arguments) (fuel : nat) (w w' W : world) :
  stable net ->
  Smdl.sync net args fuel w = (Ok tt, w') ->
  errors w' = errors w -> fs_le (w_fs w') (w_fs W) ->
  grows w w'
  /\ exists W', Smdl.sync net args fuel W = (Ok tt, W') /\ quiet W W'.
Proof.
  intros Hs H Herr Hle. unfold Smdl.sync in H |- *.
  apply (replay_bind_steady _ _ w w' W _ (steady_logging _ _)) in H
    as [([] & w1 & W1 & Q1 & QW1 & H & ->) | (s & ? & Hr & _)]; [|discriminate Hr].
  apply (replay_bind_steady _ _ w1 w' W1 _ (steady_get_json net _ Hs)) in H
    as [(data & w2 & W2 & Q2 & QW2 & H & ->) | (s & ? & Hr & _)]; [|discriminate Hr].
  destruct (Smdl.is_none data).
  { exfalso. unfold bind, logging, emit, raise in H. discriminate H. }
  apply (replay_bind_steady _ _ w2 w' W2 _ (steady_logging _ _)) in H
    as [([] & w3 & W3 & Q3 & QW3 & H & ->) | (s & ? & Hr & _)]; [|discriminate Hr].
  apply (replay_bind_steady _ _ w3 w' W3 _ (steady_read_album_list args data)) in H
    as [(album_list & w4 & W4 & Q4 & QW4 & H & ->) | (s & ? & Hr & _)]; [|discriminate Hr].
  rewrite bind_lift in H |- *. destruct (py_iter album_list) as [albums|e]; [|discriminate H].
  apply bind_inv in H as [([] & w5 & Hloop & H) | (s & _ & Hr)]; [|discriminate Hr].
  unfold bind, logging, print, emit in H. injection H as <-.
  pose proof (quiet_trans _ _ _ (quiet_trans _ _ _ (quiet_trans _ _ _ Q1 Q2) Q3) Q4) as Q.
  pose proof (quiet_trans _ _ _ (quiet_trans _ _ _ (quiet_trans _ _ _ QW1 QW2) QW3) QW4)
    as QW.
  pose proof (for_each_grows _ albums
                (fun x v r0 v' => process_album_grows net args fuel x v v' r0 Hs)
                _ _ _ Hloop) as [F5 E5].
  destruct Q as (Ff & _ & Ef).
  unfold errors in Herr. cbn [w_log count is_error] in Herr. fold (errors w5) in Herr.
  fold (errors w) in Herr. cbn [w_fs] in Hle.
  split.
  { split; [cbn [w_fs]; now rewrite <- Ff | unfold errors at 2; cbn [w_log count is_error];
            fold (errors w5); lia]. }
  destruct (for_each_replay (Smdl.process_album net args fuel) albums
              (fun x v r0 v' => process_album_grows net args fuel x v v' r0 Hs)
              (fun x v v' V r0 => process_album_replay net args fuel x v v' V r0 Hs)
              w4 w5 W4 Hloop ltac:(lia)) as (W5 & HW & QW5).
  { destruct QW as (-> & _). exact Hle. }
  rewrite (bind_ok _ _ _ _ _ HW).
  eexists. split; [reflexivity|].
  eapply quiet_trans; [exact QW|]. eapply quiet_trans; [exact QW5|].
  unfold quiet, assets, errors. cbn. repeat split. lia.
Qed.

(** What [setup_logging] and the two entries after it do. *)
Lemma setup_logging_run (output_dir : string) (m1 m2 : message) (W w' : world)
      (r : result unit) :
  (let* _ := Smdl.setup_logging output_dir in
   let* _ := logging INFO m1 in
   logging INFO m2) W = (r, w') ->
  w_requests w' = w_requests W
  /\ errors w' = errors W
  /\ ((r = Sig (Exn OSError)
       /\ w_fs w' = w_fs W
       /\ open_append (w_fs W) (path_join output_dir "smugmug_downloader.log") = None)
      \/ (r = Ok tt
          /\ open_append (w_fs W) (path_join output_dir "smugmug_downloader.log")
             = Some (w_fs w'))).
Proof.
  unfold Smdl.setup_logging. unfold bind at 1. unfold bind at 1, get_fs at 1.
  destruct (open_append (w_fs W) _) as [fs'|] eqn:Ho.
  - unfold put_fs, bind, logging, emit. intros [= <- <-]. cbn.
    split; [reflexivity|]. split; [reflexivity|]. right. now split.
  - unfold raise. intros [= <- <-].
    split; [reflexivity|]. split; [reflexivity|]. left. now split.
Qed.

(** The ways the set-up ends: the output directory cannot be made; or it is
    there or made, and the log file is opened or not. *)
Lemma setup_steps (args : Smdl.arguments) (w w' : world) (r : result unit) :
  Smdl.setup args w = (r, w') ->
  w_requests w' = w_requests w
  /\ errors w' = errors w
  /\ ((r = Sig (SystemExit 1)
       /\ w_fs w' = w_fs w
       /\ path_exists (w_fs w) (Smdl.output_dir args) = false
       /\ makedirs (w_fs w) (Smdl.output_dir args) = None
       /\ head (w_log w') = Some (Printed, CouldNotCreateOutputDir (Smdl.output_dir args)))
      \/ exists fs1 : gmap (list string) node,
           ((path_exists (w_fs w) (Smdl.output_dir args) = true /\ fs1 = w_fs w)
            \/ (path_exists (w_fs w) (Smdl.output_dir args) = false
                /\ makedirs (w_fs w) (Smdl.output_dir args) = Some fs1))
           /\ ((r = Sig (Exn OSError)
                /\ w_fs w' = fs1
                /\ open_append fs1 (path_join (Smdl.output_dir args)
                                              "smugmug_downloader.log") = None)
               \/ (r = Ok tt
                   /\ open_append fs1 (path_join (Smdl.output_dir args)
                                                 "smugmug_downloader.log")
                      = Some (w_fs w')))).
Proof.
  assert (Hcookie : forall m : message,
             match m with UsingCookie | NoCookie => True | _ => False end ->
             is_error (Printed, m) = false) by (intros m _; reflexivity).
  unfold Smdl.setup. unfold bind at 1, print at 1, emit at 1.
  unfold bind at 1, get_fs at 1. cbn [w_fs].
  destruct (path_exists (w_fs w) (Smdl.output_dir args)) eqn:He.
  - unfold bind at 1, ret at 1. intros H.
    apply setup_logging_run in H as (Hreq & Herr & Hcases). cbn [w_fs w_requests] in *.
    split; [exact Hreq|]. split; [rewrite Herr; reflexivity|].
    right. exists (w_fs w). split; [left; now split | exact Hcases].
  - destruct (makedirs (w_fs w) (Smdl.output_dir args)) as [fs'|] eqn:Hm.
    + unfold bind at 1. unfold bind at 1, put_fs at 1. unfold print at 1, emit at 1.
      cbn [w_fs w_requests w_log]. intros H.
      apply setup_logging_run in H as (Hreq & Herr & Hcases). cbn [w_fs w_requests] in *.
      split; [exact Hreq|]. split; [rewrite Herr; reflexivity|].
      right. exists fs'. split; [right; now split | exact Hcases].
    + unfold bind, print, emit, raise. intros [= <- <-]. cbn.
      split; [reflexivity|]. split; [reflexivity|]. left. repeat split; reflexivity.
Qed.

Lemma setup_run (args : Smdl.arguments) (w w' : world) (r : result unit) :
  Smdl.setup args w = (r, w') ->
  fs_le (w_fs w) (w_fs w') /\ errors w' = errors w
  /\ (r = Ok tt ->
      path_exists (w_fs w') (Smdl.output_dir args) = true
      /\ isfile (w_fs w') (path_join (Smdl.output_dir args) "smugmug_downloader.log")
         = true).
Proof.
  intros H. destruct (setup_steps _ _ _ _ H) as (_ & Herr & Hcases).
  split; [|split; [exact Herr|]].
  - destruct Hcases as [(_ & -> & _) | (fs1 & Hdir & Hlog)]; [apply fs_le_refl|].
    assert (fs_le (w_fs w) fs1) as H1.
    { destruct Hdir as [[_ ->] | [_ Hm]]; [apply fs_le_refl|].
      exact (proj1 (makedirs_grows _ _ _ Hm)). }
    destruct Hlog as [(_ & -> & _) | (_ & Ho)]; [exact H1|].
    exact (fs_le_trans _ _ _ H1 (proj1 (open_append_grows _ _ _ Ho))).
  - intros ->. destruct Hcases as [([=] & _) | (fs1 & Hdir & [([=] & _) | (_ & Ho)])].
    destruct (open_append_grows _ _ _ Ho) as [Hle Hfile]. split; [|exact Hfile].
    apply Hle. destruct Hdir as [[He ->] | [_ Hm]]; [exact He|].
    exact (proj2 (makedirs_grows _ _ _ Hm)).
Qed.

Lemma setup_there (args : Smdl.arguments) (W : world) :
  path_exists (w_fs W) (Smdl.output_dir args) = true ->
  open_append (w_fs W) (path_join (Smdl.output_dir args) "smugmug_downloader.log")
  = Some (w_fs W) ->
  exists W', Smdl.setup args W = (Ok tt, W') /\ quiet W W'.
Proof.
  intros He Hlog. unfold Smdl.setup. unfold bind at 1, print at 1, emit at 1.
  unfold bind at 1, get_fs at 1. cbn [w_fs]. rewrite He.
  unfold bind at 1, ret at 1. unfold Smdl.setup_logging.
  unfold bind at 1. unfold bind at 1, get_fs at 1. cbn [w_fs].
  rewrite Hlog.
  unfold put_fs, bind, logging, emit. eexists. split; [reflexivity|].
  unfold quiet, assets, errors. cbn. repeat split.
  destruct (Smdl.session args) as [s|]; [destruct (nonempty s)|]; cbn; lia.
Qed.

(** ** Paths and names *)

Lemma all_chars_impl (p q : ascii -> bool) (s : string) :
  (forall c, p c = true -> q c = true) -> all_chars p s = true -> all_chars q s = true.
Proof.
  intros Hpq. induction s as [|c s IH]; simpl; [reflexivity|].
  rewrite !andb_true_iff. intros [Hc Hs]. split; [now apply Hpq | now apply IH].
Qed.

Lemma str_drop_all_chars (p : ascii -> bool) (n : nat) (s : string) :
  all_chars p s = true -> all_chars p (str_drop n s) = true.
Proof.
  revert s. induction n as [|n IH]; intros [|c s]; simpl; try easy.
  rewrite andb_true_iff. intros [_ Hs]. now apply IH.
Qed.

Lemma str_take_drop (n : nat) (s : string) : str_take n s +:+ str_drop n s = s.
Proof.
  revert s. induction n as [|n IH]; intros [|c s]; str_simpl; try reflexivity.
  now rewrite IH.
Qed.

(** Where [rfind] points, the last [c] stands: nothing after it is a [c]. *)
Lemma rfind_from_tail (c : ascii) (s : string) (i : Z) :
  0 <= i ->
  (rfind_from c s i = -1 /\ all_chars (fun x => negb (Ascii.eqb x c)) s = true)
  \/ (i <= rfind_from c s i
      /\ all_chars (fun x => negb (Ascii.eqb x c))
                   (str_drop (Z.to_nat (rfind_from c s i - i + 1)) s) = true).
Proof.
  revert i. induction s as [|d s IH]; intros i Hi; simpl; [now left|].
  destruct (IH (i + 1) ltac:(lia)) as [[Hj Hall] | [Hj Hall]].
  - rewrite Hj. simpl. destruct (Ascii.eqb d c) eqn:Hd.
    + right. split; [lia|]. now replace (i - i + 1) with 1 by lia.
    + left. split; [reflexivity|]. simpl. now rewrite Hall.
  - destruct (Z.leb 0 (rfind_from c s (i + 1))) eqn:Hle; [|lia].
    right. split; [lia|].
    replace (Z.to_nat (rfind_from c s (i + 1) - i + 1))
      with (S (Z.to_nat (rfind_from c s (i + 1) - (i + 1) + 1))) by lia.
    exact Hall.
Qed.

Lemma basename_no_slash (p : string) : no_slash (basename p).
Proof.
  unfold no_slash, basename, slice_from, rfind.
  destruct (rfind_from_tail "/" p 0 ltac:(lia)) as [[Hj Hall] | [Hj Hall]].
  - rewrite Hj. exact Hall.
  - now rewrite Z.sub_0_r in Hall.
Qed.

(** The two parts [splitext] returns are a cut of its argument. *)
Lemma splitext_cut (p : string) :
  exists n : nat, splitext p = (str_take n p, str_drop n p)
                  \/ splitext p = (p, EmptyString).
Proof.
  unfold splitext, slice_to, slice_from.
  destruct (Z.ltb _ _); [|exists O; now right].
  destruct (has_non_dot _); [|exists O; now right].
  eexists. left. reflexivity.
Qed.

Lemma splitext_all_chars (q : ascii -> bool) (p : string) :
  all_chars q p = true ->
  all_chars q (fst (splitext p)) = true /\ all_chars q (snd (splitext p)) = true.
Proof.
  intros Hp. destruct (splitext_cut p) as [n [-> | ->]]; simpl.
  - split; [now apply str_take_all_chars | now apply str_drop_all_chars].
  - now split.
Qed.

Lemma splitext_join (p : string) : fst (splitext p) +:+ snd (splitext p) = p.
Proof.
  destruct (splitext_cut p) as [n [-> | ->]]; simpl.
  - apply str_take_drop.
  - apply append_nil_r.
Qed.

(** *** [split] and [join] *)

Lemma split_char_cons (c : ascii) (s : string) :
  exists h t, split_char c s = h :: t.
Proof.
  induction s as [|d s [h [t IH]]]; simpl; [now eexists; eexists|].
  destruct (Ascii.eqb d c); [now eexists; eexists|].
  rewrite IH. now eexists; eexists.
Qed.

Lemma split_char_none (c : ascii) (s : string) :
  all_chars (fun x => negb (Ascii.eqb x c)) s = true -> split_char c s = [s].
Proof.
  induction s as [|d s IH]; simpl; [reflexivity|].
  rewrite andb_true_iff, negb_true_iff. intros [Hd Hs]. now rewrite Hd, (IH Hs).
Qed.

Lemma split_char_app (c : ascii) (a b : string) :
  split_char c (a +:+ String c b) = split_char c a ++ split_char c b.
Proof.
  induction a as [|d a IH]; str_simpl.
  - now rewrite Ascii.eqb_refl.
  - destruct (Ascii.eqb d c); [now rewrite IH|].
    rewrite IH. now destruct (split_char_cons c a) as [h [t ->]].
Qed.

Lemma split_char_parts (c : ascii) (s : string) :
  Forall (fun x => all_chars (fun y => negb (Ascii.eqb y c)) x = true) (split_char c s).
Proof.
  induction s as [|d s IH]; simpl; [now repeat constructor|].
  destruct (Ascii.eqb d c) eqn:Hd; [now constructor|].
  destruct (split_char c s) as [|h t]; [repeat constructor; simpl; now rewrite Hd|].
  inversion IH as [|? ? Hh Ht]; subst. constructor; [|exact Ht].
  simpl. now rewrite Hd, Hh.
Qed.

Lemma split_join_char (c : ascii) (parts : list string) :
  parts <> [] ->
  Forall (fun x => all_chars (fun y => negb (Ascii.eqb y c)) x = true) parts ->
  split_char c (join_char c parts) = parts.
Proof.
  induction parts as [|x rest IH]; [congruence|]. intros _ Hall.
  inversion Hall as [|? ? Hx Hrest]; subst.
  destruct rest as [|y rest]; [exact (split_char_none c x Hx)|].
  change (join_char c (x :: y :: rest)) with (x +:+ String c (join_char c (y :: rest))).
  rewrite split_char_app, (split_char_none c x Hx), IH; [reflexivity|discriminate|exact Hrest].
Qed.

(** *** [strip] *)

Lemma lstrip_by_all_chars (p q : ascii -> bool) (s : string) :
  all_chars p s = true -> all_chars p (lstrip_by q s) = true.
Proof.
  induction s as [|c s IH]; simpl; [reflexivity|].
  rewrite andb_true_iff. intros [Hc Hs].
  destruct (q c); [now apply IH | simpl; now rewrite Hc, Hs].
Qed.

Lemma rstrip_by_all_chars (p q : ascii -> bool) (s : string) :
  all_chars p s = true -> all_chars p (rstrip_by q s) = true.
Proof.
  induction s as [|c s IH]; simpl; [reflexivity|].
  rewrite andb_true_iff. intros [Hc Hs]. specialize (IH Hs).
  destruct (rstrip_by q s) as [|d r].
  - destruct (q c); simpl; [reflexivity | now rewrite Hc].
  - simpl. simpl in IH. now rewrite Hc, IH.
Qed.

Lemma strip_all_chars (p : ascii -> bool) (s : string) :
  all_chars p s = true -> all_chars p (strip s) = true.
Proof. intros H. now apply rstrip_by_all_chars, lstrip_by_all_chars. Qed.

Lemma lstrip_by_first (p : ascii -> bool) (c : ascii) (s : string) :
  p c = false -> lstrip_by p (String c s) = String c s.
Proof. intros H. simpl. now rewrite H. Qed.

(** A character that is kept keeps what stands before it. *)
Lemma rstrip_by_keep (p : ascii -> bool) (a : string) (c : ascii) (b : string) :
  p c = false -> rstrip_by p (a +:+ String c b) = a +:+ String c (rstrip_by p b).
Proof.
  intros Hc. induction a as [|x a IH]; str_simpl.
  - destruct (rstrip_by p b); [now rewrite Hc | reflexivity].
  - rewrite IH. now destruct a.
Qed.

(** *** One-character texts *)

Lemma contains_char (c : ascii) (s : string) :
  contains (String c EmptyString) s = negb (all_chars (fun x => negb (Ascii.eqb x c)) s).
Proof.
  induction s as [|d s IH]; simpl; [reflexivity|].
  rewrite IH, (Ascii.eqb_sym c d), andb_true_r.
  now destruct (Ascii.eqb d c).
Qed.

Lemma endswith_char_spec (c : ascii) (s : string) :
  endswith_char c s = true -> exists a, s = a +:+ String c EmptyString.
Proof.
  induction s as [|d s IH]; simpl; [discriminate|].
  destruct s as [|e s].
  - intros H. apply Ascii.eqb_eq in H as ->. now exists EmptyString.
  - intros H. destruct (IH H) as [a Ha]. exists (String d a). str_simpl. now rewrite Ha.
Qed.

Lemma startswith_char_app (c : ascii) (a b : string) :
  a <> EmptyString ->
  startswith (String c EmptyString) (a +:+ b) = startswith (String c EmptyString) a.
Proof. destruct a; [congruence | reflexivity]. Qed.

(** *** Joined paths *)

Lemma components_plain (f : string) :
  f <> EmptyString -> no_slash f -> components f = [f].
Proof.
  intros Hne Hf. unfold components. rewrite (split_char_none "/" f Hf).
  destruct f as [|c f]; [congruence|]. unfold no_slash in Hf. simpl in Hf.
  apply andb_true_iff in Hf as [Hc _]. apply negb_true_iff in Hc.
  cbn [startswith]. rewrite Ascii.eqb_sym, Hc. reflexivity.
Qed.

Lemma components_app_sep (a b : string) :
  components (a +:+ String "/" b)
  = components (a +:+ String "/" EmptyString) ++ List.filter nonempty (split_char "/" b).
Proof.
  unfold components. rewrite !split_char_app, !List.filter_app.
  cbn [split_char List.filter nonempty String.eqb negb]. rewrite app_nil_r, <- app_assoc.
  f_equal. now destruct a.
Qed.

Lemma components_trailing_sep (a : string) :
  a <> EmptyString -> components (a +:+ String "/" EmptyString) = components a.
Proof.
  intros Ha. unfold components. rewrite split_char_app, List.filter_app.
  cbn [split_char List.filter nonempty String.eqb negb]. rewrite app_nil_r.
  f_equal. now destruct a.
Qed.

(** A name without a slash, joined to a directory, names a direct child of
    that directory. *)
Lemma components_path_join (a f : string) :
  f <> EmptyString -> no_slash f ->
  components (path_join a f) = components a ++ [f].
Proof.
  intros Hne Hf.
  assert (startswith "/" f = false) as Hsf.
  { destruct f as [|c f]; [congruence|]. unfold no_slash in Hf. simpl in Hf.
    apply andb_true_iff in Hf as [Hc _]. apply negb_true_iff in Hc.
    cbn [startswith]. now rewrite Ascii.eqb_sym, Hc. }
  assert (List.filter nonempty (split_char "/" f) = [f]) as Hff.
  { rewrite (split_char_none "/" f Hf). destruct f; [congruence | reflexivity]. }
  unfold path_join. rewrite Hsf.
  destruct a as [|x a]; [rewrite app_nil_l; now apply components_plain|].
  cbn [String.eqb orb].
  destruct (endswith_char "/" (String x a)) eqn:He.
  - apply endswith_char_spec in He as [a' Ha']. rewrite Ha'.
    rewrite append_assoc. change (String "/" EmptyString +:+ f) with (String "/" f).
    rewrite components_app_sep, Hff. reflexivity.
  - change ("/" +:+ f) with (String "/" f).
    rewrite components_app_sep, Hff. now rewrite components_trailing_sep.
Qed.

(** *** [find] past a text that holds no match *)

Lemma find_from_step (sub : string) (c : ascii) (s : string) (i : Z) :
  startswith sub (String c s) = false ->
  find_from sub (String c s) i = find_from sub s (i + 1).
Proof. intros H. cbn [find_from]. now rewrite H. Qed.

Lemma find_from_skip (x : ascii) (sub a s : string) (i : Z) :
  all_chars (fun c => negb (Ascii.eqb c x)) a = true ->
  find_from (String x sub) (a +:+ s) i
  = find_from (String x sub) s (i + Z.of_nat (String.length a)).
Proof.
  revert i. induction a as [|c a IH]; intros i; str_simpl.
  - intros _. now rewrite Z.add_0_r.
  - rewrite andb_true_iff, negb_true_iff. intros [Hc Ha].
    rewrite (Ascii.eqb_sym x c), Hc. cbn [andb].
    rewrite (IH (i + 1) Ha). f_equal. lia.
Qed.

(** ** Lines of the log and the album filter *)

Lemma str_drop_add (a s : string) (n : nat) :
  str_drop (String.length a + n) (a +:+ s) = str_drop n s.
Proof. induction a as [|c a IH]; str_simpl; [reflexivity | exact IH]. Qed.

Lemma append_not_shorter (a b : string) : b <> EmptyString -> a +:+ b <> a.
Proof.
  intros Hb E. apply (f_equal String.length) in E. rewrite str_length_app in E.
  destruct b; [congruence | simpl in E; lia].
Qed.

(** The first [http] of a failure line is the start of the URL. *)
Lemma find_http_failure_line (asctime url details : string) :
  all_chars (fun c => negb (Ascii.eqb c "h")) asctime = true ->
  startswith "http" url = true ->
  find "http" (failure_line asctime url details)
  = Z.of_nat (String.length asctime + 38).
Proof.
  intros Hts Hurl. unfold find, failure_line.
  rewrite (find_from_skip "h" "ttp" asctime _ 0 Hts).
  rewrite !app_cons, app_nil_l.
  repeat (rewrite find_from_step by reflexivity).
  apply startswith_spec in Hurl as [r ->]. rewrite !app_cons, app_nil_l.
  cbn [find_from startswith Ascii.eqb Bool.eqb andb]. lia.
Qed.

Lemma slice_failure_line (asctime url details : string) :
  str_drop (String.length asctime + 38) (failure_line asctime url details)
  = url +:+ ": " +:+ details +:+ newline.
Proof. unfold failure_line. rewrite str_drop_add. reflexivity. Qed.

Lemma failure_line_marked (asctime url details : string) :
  contains "ERROR - Could not fetch image" (failure_line asctime url details) = true.
Proof.
  apply contains_spec.
  exists (asctime +:+ " - "), (" from " +:+ url +:+ ": " +:+ details +:+ newline).
  unfold failure_line. rewrite append_assoc. reflexivity.
Qed.

(** The requests of one call of [download_image]: none, or one for the text
    it was given. *)
Lemma download_image_requests (net : network) (args : Retry.arguments)
      (image_url : string) (w : world) :
  w_requests (snd (Retry.download_image net args image_url w)) = w_requests w
  \/ w_requests (snd (Retry.download_image net args image_url w))
     = AssetGet image_url :: w_requests w.
Proof.
  unfold Retry.download_image, Retry.download_into, Retry.fetch_image.
  unfold bind, get_fs, put_fs, logging, emit, requests_get, raise. simpl.
  repeat match goal with
         | |- context [match ?x with _ => _ end] => destruct x; simpl
         end; auto.
Qed.

(** *** The album filter *)

Lemma existsb_eqb_In (x : string) (l : list string) :
  existsb (String.eqb x) l = true <-> In x l.
Proof.
  rewrite existsb_exists. split.
  - intros [y [Hy He]]. apply String.eqb_eq in He. now subst.
  - intros H. exists x. split; [exact H | apply String.eqb_refl].
Qed.

(** No name of the filter holds a [$]. *)
Lemma specific_albums_no_dollar (args : Smdl.arguments) (x : string) :
  In x (Smdl.specific_albums args) ->
  all_chars (fun c => negb (Ascii.eqb c "$")) x = true.
Proof.
  unfold Smdl.specific_albums. destruct (Smdl.albums args) as [a|]; [|contradiction].
  destruct (nonempty a); [|contradiction].
  rewrite in_map_iff. intros [y [<- Hy]]. apply strip_all_chars.
  exact (proj1 (List.Forall_forall _ _) (split_char_parts "$" a) y Hy).
Qed.

Lemma specific_albums_given (args : Smdl.arguments) (a : string) :
  Smdl.albums args = Some a -> nonempty a = true ->
  nonempty_list (Smdl.specific_albums args) = true.
Proof.
  intros Ha Hne. unfold Smdl.specific_albums. rewrite Ha, Hne.
  now destruct (split_char_cons "$" a) as [h [t ->]].
Qed.

(** ** Footprints *)

(** What every relation between worlds that is reflexive, transitive and
    blind to the log inherits from the parts of a computation. *)
Section Footprint.

Variable R : world -> world -> Prop.
Hypothesis R_refl : forall w : world, R w w.
Hypothesis R_trans : forall w1 w2 w3 : world, R w1 w2 -> R w2 w3 -> R w1 w3.
Hypothesis R_log :
  forall (w : world) (e : channel * message),
    R w (World (w_fs w) (w_requests w) (e :: w_log w)).

Lemma obeys_ret {A : Type} (a : A) : obeys R (ret a).
Proof. intros w w' r [= <- <-]. apply R_refl. Qed.

Lemma obeys_raise {A : Type} (s : signal) : obeys R (@raise A s).
Proof. intros w w' r [= <- <-]. apply R_refl. Qed.

Lemma obeys_lift {A : Type} (o : outcome A) : obeys R (lift o).
Proof. intros w w' r [= <- <-]. apply R_refl. Qed.

Lemma obeys_get_fs : obeys R get_fs.
Proof. intros w w' r [= <- <-]. apply R_refl. Qed.

Lemma obeys_emit (ch : channel) (m : message) : obeys R (emit ch m).
Proof. intros w w' r [= <- <-]. apply R_log. Qed.

Lemma obeys_logging (l : level) (m : message) : obeys R (logging l m).
Proof. apply obeys_emit. Qed.

Lemma obeys_print (m : message) : obeys R (print m).
Proof. apply obeys_emit. Qed.

Lemma obeys_bind {A B : Type} (c : M A) (k : A -> M B) :
  obeys R c -> (forall a, obeys R (k a)) -> obeys R (bind c k).
Proof.
  intros Hc Hk w w' r H. apply bind_inv in H as [(a & w1 & H1 & H2) | (s & H1 & _)].
  - eapply R_trans; [exact (Hc _ _ _ H1) | exact (Hk a _ _ _ H2)].
  - exact (Hc _ _ _ H1).
Qed.

Lemma obeys_for_each {X : Type} (body : X -> M unit) (xs : list X) :
  (forall x, obeys R (body x)) -> obeys R (for_each xs body).
Proof.
  intros Hb. induction xs as [|x xs IH]; intros w w' r; cbn [for_each].
  - intros [= <- <-]. apply R_refl.
  - destruct (body x w) as [[[]|s] w1] eqn:Hx; pose proof (Hb x _ _ _ Hx) as H1.
    + intros H. eapply R_trans; [exact H1 | exact (IH _ _ _ H)].
    + destruct s; try (intros [= <- <-]; exact H1).
      intros H. eapply R_trans; [exact H1 | exact (IH _ _ _ H)].
Qed.

Lemma obeys_except_KeyError {A : Type} (c h : M A) :
  obeys R c -> obeys R h -> obeys R (Smdl.except_KeyError c h).
Proof.
  intros Hc Hh w w' r. unfold Smdl.except_KeyError.
  destruct (c w) as [[a|s] w1] eqn:H1; pose proof (Hc _ _ _ H1) as HR.
  - intros [= <- <-]. exact HR.
  - destruct s as [[]| | | |]; try (intros [= <- <-]; exact HR).
    intros H. eapply R_trans; [exact HR | exact (Hh _ _ _ H)].
Qed.

End Footprint.

Lemma obeys_weaken {A : Type} (R R' : world -> world -> Prop) (c : M A) :
  (forall w w', R w w' -> R' w w') -> obeys R c -> obeys R' c.
Proof. intros HR Hc w w' r H. exact (HR _ _ (Hc _ _ _ H)). Qed.

(** One step through a computation built from the parts above. *)
Ltac obeys_step refl trans log :=
  first
    [ assumption
    | apply (obeys_ret _ refl)
    | apply (obeys_raise _ refl)
    | apply (obeys_lift _ refl)
    | apply (obeys_get_fs _ refl)
    | apply (obeys_emit _ log)
    | apply (obeys_logging _ log)
    | apply (obeys_print _ log)
    | apply (obeys_bind _ trans); [|intros]
    | match goal with
      | |- obeys _ (if ?b then _ else _) => destruct b
      | |- obeys _ (match ?x with _ => _ end) => destruct x
      end ].

(** *** The file system is left alone *)

Lemma same_fs_refl (w : world) : same_fs w w.
Proof. reflexivity. Qed.

Lemma same_fs_trans (w1 w2 w3 : world) : same_fs w1 w2 -> same_fs w2 w3 -> same_fs w1 w3.
Proof. unfold same_fs. congruence. Qed.

Lemma same_fs_log (w : world) (e : channel * message) :
  same_fs w (World (w_fs w) (w_requests w) (e :: w_log w)).
Proof. reflexivity. Qed.

Ltac same_fs_step := obeys_step same_fs_refl same_fs_trans same_fs_log.

Lemma same_fs_get_json (net : network) (v : json) : obeys same_fs (Smdl.get_json net v).
Proof. intros w w' r H. exact (proj1 (get_json_quiet _ _ _ _ _ H)). Qed.

Lemma same_fs_derive (album_name : string) (image : json) :
  obeys same_fs (Smdl.derive_unique_id album_name image).
Proof. unfold Smdl.derive_unique_id. repeat same_fs_step. Qed.

Lemma same_fs_resolve (net : network) (album_name unique_filename : string) (image : json) :
  obeys same_fs (Smdl.resolve_download_url net album_name unique_filename image).
Proof.
  pose proof (same_fs_get_json net) as Hg.
  unfold Smdl.resolve_download_url, Smdl.archived_url.
  repeat first [apply Hg | same_fs_step].
Qed.

Lemma same_fs_paginate (net : network) (album_name : string) :
  forall (n : nat) (images next : json),
    obeys same_fs (Smdl.paginate net n album_name images next).
Proof.
  pose proof (same_fs_get_json net) as Hg.
  induction n as [|n IH]; intros images next; cbn [Smdl.paginate];
    repeat first [apply Hg | apply IH | same_fs_step].
Qed.

Lemma same_fs_fetch_images (net : network) (fuel : nat) (album_name : string) (album : json) :
  obeys same_fs (Smdl.fetch_images net fuel album_name album).
Proof.
  pose proof (same_fs_get_json net) as Hg.
  pose proof (same_fs_paginate net album_name fuel) as Hp.
  unfold Smdl.fetch_images. repeat first [apply Hg | apply Hp | same_fs_step].
Qed.

(** *** Nodes are only added *)

Lemma only_adds_refl (w : world) : only_adds w w.
Proof. unfold only_adds. reflexivity. Qed.

Lemma only_adds_trans (w1 w2 w3 : world) :
  only_adds w1 w2 -> only_adds w2 w3 -> only_adds w1 w3.
Proof. unfold only_adds. intros H1 H2. now transitivity (w_fs w2). Qed.

Lemma only_adds_log (w : world) (e : channel * message) :
  only_adds w (World (w_fs w) (w_requests w) (e :: w_log w)).
Proof. unfold only_adds. reflexivity. Qed.

Ltac only_adds_step := obeys_step only_adds_refl only_adds_trans only_adds_log.

Lemma same_fs_only_adds (w w' : world) : same_fs w w' -> only_adds w w'.
Proof. unfold same_fs, only_adds. now intros ->. Qed.

Lemma node_at_none (f : gmap (list string) node) (cs : list string) :
  node_at f cs = None -> f !! cs = None.
Proof. unfold node_at. now destruct (is_root cs). Qed.

Lemma mkdirs_adds (rest : list string) :
  forall (pre : list string) (f f' : gmap (list string) node),
    mkdirs pre rest f = Some f' -> f ⊆ f'.
Proof.
  induction rest as [|c rest IH]; intros pre f f'; cbn [mkdirs].
  - now intros [= <-].
  - destruct (node_at f (pre ++ [c])) as [[content|]|] eqn:Hn; [discriminate| |].
    + apply IH.
    + intros Hm. transitivity (<[pre ++ [c] := Dir]> f); [|exact (IH _ _ _ Hm)].
      apply insert_subseteq, node_at_none, Hn.
Qed.

Lemma makedirs_adds (f f' : gmap (list string) node) (p : string) :
  makedirs f p = Some f' -> f ⊆ f'.
Proof.
  unfold makedirs. destruct (String.eqb p EmptyString); [discriminate|].
  destruct (node_at f (components p)); [discriminate|]. apply mkdirs_adds.
Qed.

(** Writing a file where [isfile] found none replaces nothing. *)
Lemma open_write_adds (f f' : gmap (list string) node) (p content : string) :
  isfile f p = false -> open_write f p content = Some f' -> f ⊆ f'.
Proof.
  unfold isfile, stat, open_write.
  destruct (String.eqb p EmptyString); [discriminate|].
  destruct (endswith_char "/" p); [discriminate|]. cbn [orb].
  destruct (node_at f (components p)) as [[old|]|] eqn:Hn; try discriminate.
  intros _. destruct (node_at f (removelast (components p))) as [[?|]|]; try discriminate.
  intros [= <-]. apply insert_subseteq, node_at_none, Hn.
Qed.

(** Opening the log file replaces nothing. *)
Lemma open_append_adds (f f' : gmap (list string) node) (p : string) :
  open_append f p = Some f' -> f ⊆ f'.
Proof.
  unfold open_append.
  destruct (String.eqb p EmptyString || endswith_char "/" p); [discriminate|].
  destruct (node_at f (components p)) as [[old|]|] eqn:Hn; [| discriminate |];
    (destruct (node_at f (removelast (components p))) as [[?|]|]; try discriminate).
  - now intros [= <-].
  - intros [= <-]. apply insert_subseteq, node_at_none, Hn.
Qed.

Lemma subseteq_preserved (f f' : gmap (list string) node) : f ⊆ f' -> preserved f f'.
Proof.
  intros Hsub p n. unfold stat, node_at.
  destruct (String.eqb p EmptyString); [discriminate|].
  destruct (is_root (components p)); [easy|].
  destruct (f !! components p) as [x|] eqn:Hx; [|discriminate].
  now rewrite (lookup_weaken _ _ _ _ Hx Hsub).
Qed.

(** A branch that ends after log entries only. *)
Ltac ends_here :=
  unfold bind, logging, print, emit, raise, ret; intros [= <- <-]; unfold only_adds; reflexivity.

(** *** The main script *)

Lemma only_adds_download (net : network) (download_url : json) (image_path : string)
      (w w' : world) (r : result unit) :
  isfile (w_fs w) image_path = false ->
  Smdl.download net download_url image_path w = (r, w') -> only_adds w w'.
Proof.
  intros Hfile. unfold Smdl.download, Smdl.could_not_fetch.
  destruct download_url as [| | |url| |];
    try (ends_here).
  unfold bind at 1, requests_get at 1.
  destruct (net (length (w_requests w)) url) as [|status b];
    [ends_here|].
  destruct (status_is_error status); [ends_here|].
  unfold bind at 1, get_fs at 1. cbn [w_fs].
  destruct (open_write (w_fs w) image_path (content b)) as [fs'|] eqn:Ho;
    [|ends_here].
  apply (open_write_adds _ _ _ _ Hfile) in Ho.
  unfold bind, put_fs, logging, emit, raise. cbn [w_fs w_requests w_log].
  destruct (complete b); intros [= <- <-]; exact Ho.
Qed.

Lemma only_adds_process_image (net : network) (album_name album_path : string)
      (image : json) :
  obeys only_adds (Smdl.process_image net album_name album_path image).
Proof.
  intros w w' r H. unfold Smdl.process_image in H.
  apply bind_inv in H as [(unique_id & w1 & H1 & H) | (s & H1 & _)];
    [|exact (same_fs_only_adds _ _ (same_fs_derive _ _ _ _ _ H1))].
  apply same_fs_derive in H1. apply same_fs_only_adds in H1 as H1'.
  apply (only_adds_trans _ _ _ H1'). clear H1'.
  rewrite bind_lift in H.
  destruct (Smdl.make_unique_filename image unique_id) as [unique_filename|e];
    [|injection H as <- <-; apply only_adds_refl].
  unfold bind at 1, get_fs at 1 in H.
  destruct (isfile (w_fs w1) (path_join album_path unique_filename)) eqn:Hfile;
    [injection H as <- <-; apply only_adds_refl|].
  apply bind_inv in H as [(download_url & w2 & H2 & H) | (s & H2 & _)];
    [|exact (same_fs_only_adds _ _ (same_fs_resolve _ _ _ _ _ _ _ H2))].
  apply same_fs_resolve in H2. apply same_fs_only_adds in H2 as H2'.
  apply (only_adds_trans _ _ _ H2'). unfold same_fs in H2. rewrite <- H2 in Hfile.
  exact (only_adds_download _ _ _ _ _ _ Hfile H).
Qed.

Lemma only_adds_ensure_album_path (album_path : string) :
  obeys only_adds (Smdl.ensure_album_path album_path).
Proof.
  intros w w' r. unfold Smdl.ensure_album_path.
  unfold bind at 1, get_fs at 1.
  destruct (path_exists (w_fs w) album_path); [ends_here|].
  destruct (makedirs (w_fs w) album_path) as [fs'|] eqn:Hm;
    [|ends_here].
  intros [= <- <-]. exact (makedirs_adds _ _ _ Hm).
Qed.

Lemma only_adds_process_album (net : network) (args : Smdl.arguments) (fuel : nat)
      (album : json) :
  obeys only_adds (Smdl.process_album net args fuel album).
Proof.
  pose proof (only_adds_ensure_album_path) as He.
  pose proof (fun n a => obeys_weaken _ _ _ same_fs_only_adds
                           (same_fs_fetch_images net fuel n a)) as Hf.
  pose proof (only_adds_process_image net) as Hi.
  unfold Smdl.process_album.
  repeat first [ apply He | apply Hf
               | apply (obeys_for_each _ only_adds_refl only_adds_trans); intros; apply Hi
               | only_adds_step ].
Qed.

Lemma only_adds_sync (net : network) (args : Smdl.arguments) (fuel : nat) :
  obeys only_adds (Smdl.sync net args fuel).
Proof.
  pose proof (fun v => obeys_weaken _ _ _ same_fs_only_adds (same_fs_get_json net v)) as Hg.
  pose proof (only_adds_process_album net args fuel) as Ha.
  unfold Smdl.sync, Smdl.read_album_list.
  repeat first [ apply Hg
               | apply (obeys_for_each _ only_adds_refl only_adds_trans); exact Ha
               | apply (obeys_except_KeyError _ only_adds_trans)
               | only_adds_step ].
Qed.

Lemma only_adds_setup (args : Smdl.arguments) : obeys only_adds (Smdl.setup args).
Proof.
  intros w w' r H. unfold only_adds.
  destruct (setup_steps _ _ _ _ H) as (_ & _ & [(_ & -> & _) | (fs1 & Hdir & Hlog)]);
    [reflexivity|].
  assert (w_fs w ⊆ fs1) as H1.
  { destruct Hdir as [[_ ->] | [_ Hm]]; [reflexivity | exact (makedirs_adds _ _ _ Hm)]. }
  destruct Hlog as [(_ & -> & _) | (_ & Ho)]; [exact H1|].
  transitivity fs1; [exact H1 | exact (open_append_adds _ _ _ Ho)].
Qed.

(** *** The recovery script *)

Lemma only_adds_download_into (net : network) (album_path image_url : string) :
  obeys only_adds (Retry.download_into net album_path image_url).
Proof.
  intros w w' r. unfold Retry.download_into, Retry.fetch_image.
  unfold bind at 1, get_fs at 1.
  destruct (isfile (w_fs w) _) eqn:Hfile; [ends_here|].
  unfold bind at 1, logging at 1, emit at 1. unfold bind at 1, requests_get at 1.
  cbn [w_fs w_requests w_log].
  destruct (net _ image_url) as [|status b]; [ends_here|].
  destruct (status_is_error status); [ends_here|].
  unfold bind at 1, get_fs at 1. cbn [w_fs].
  destruct (open_write (w_fs w) _ (content b)) as [fs'|] eqn:Ho;
    [|ends_here].
  apply (open_write_adds _ _ _ _ Hfile) in Ho.
  unfold bind, put_fs, logging, emit. cbn [w_fs w_requests w_log].
  destruct (complete b); intros [= <- <-]; exact Ho.
Qed.

Lemma only_adds_download_image (net : network) (args : Retry.arguments) (image_url : string) :
  obeys only_adds (Retry.download_image net args image_url).
Proof.
  intros w w' r. unfold Retry.download_image.
  unfold bind at 1, get_fs at 1.
  destruct (path_exists (w_fs w) _); [apply only_adds_download_into|].
  destruct (makedirs (w_fs w) _) as [fs'|] eqn:Hm;
    [|ends_here].
  apply makedirs_adds in Hm.
  unfold bind at 1, put_fs at 1. unfold bind at 1, logging at 1, emit at 1.
  cbn [w_fs w_requests w_log]. intros H. apply only_adds_download_into in H.
  unfold only_adds in *. cbn [w_fs] in H. now transitivity fs'.
Qed.

Lemma only_adds_retry_failed_images (net : network) (args : Retry.arguments) :
  obeys only_adds (Retry.retry_failed_images net args).
Proof.
  intros w w' r. unfold Retry.retry_failed_images.
  unfold bind at 1, get_fs at 1.
  destruct (path_exists (w_fs w) (Retry.LOG_FILE args));
    [|ends_here].
  cbn [negb]. destruct (stat (w_fs w) (Retry.LOG_FILE args)) as [[text|]|];
    try (ends_here).
  apply (obeys_for_each _ only_adds_refl only_adds_trans). intros line.
  rewrite scan_line_run. destruct (retried line);
    [apply only_adds_download_image | apply (obeys_ret _ only_adds_refl)].
Qed.

Lemma only_adds_retry_main (net : network) (args : Retry.arguments) :
  obeys only_adds (Retry.main net args).
Proof.
  intros w w' r. unfold Retry.main.
  unfold bind at 1, get_fs at 1.
  assert (Hrest : obeys only_adds
                    (let* _ := Retry.retry_failed_images net args in
                     logging INFO RetryProcessCompleted)).
  { apply (obeys_bind _ only_adds_trans); [apply only_adds_retry_failed_images|].
    intros _. apply (obeys_logging _ only_adds_log). }
  destruct (path_exists (w_fs w) (Retry.output_dir args)); [apply Hrest|].
  destruct (makedirs (w_fs w) (Retry.output_dir args)) as [fs'|] eqn:Hm.
  - apply makedirs_adds in Hm.
    unfold bind at 1. unfold bind at 1, put_fs at 1. unfold logging at 1, emit at 1.
    cbn [w_fs w_requests w_log]. intros H. apply Hrest in H.
    unfold only_adds in *. cbn [w_fs] in H. now transitivity fs'.
  - unfold bind, logging, emit, raise. ends_here.
Qed.

(** *** The second run *)

(** After a run that ended normally without logging an error, a second run
    against the same remote state ends normally too, writes nothing and
    requests no asset. *)
Lemma main_replay (net : network) (args : Smdl.arguments) (fuel : nat) (w0 w1 : world) :
  stable net ->
  Smdl.main net args fuel w0 = (Ok tt, w1) ->
  errors w1 = errors w0 ->
  exists w2, Smdl.main net args fuel w1 = (Ok tt, w2) /\ quiet w1 w2.
Proof.
  intros Hs H Herr. unfold Smdl.main in H |- *.
  apply bind_inv in H as [([] & ws & Hsetup & Hsync) | (s & _ & Hr)]; [|discriminate Hr].
  pose proof (only_adds_sync _ _ _ _ _ _ Hsync) as Hadds.
  destruct (setup_steps _ _ _ _ Hsetup)
    as (_ & _ & [([=] & _) | (fs1 & _ & [([=] & _) | (_ & Hopen)])]).
  apply setup_run in Hsetup as (Fs & Es & Hthere).
  destruct (Hthere eq_refl) as [Hdir _].
  destruct (sync_replay net args fuel ws w1 w1 Hs Hsync ltac:(lia) (fs_le_refl _))
    as ([F1 _] & _).
  destruct (setup_there args w1 (proj2 (F1 _) Hdir) (open_append_again _ _ _ _ Hopen Hadds))
    as (Ws & HWs & QWs).
  rewrite (bind_ok _ _ _ _ _ HWs).
  destruct (sync_replay net args fuel ws w1 Ws Hs Hsync ltac:(lia)) as (_ & w2 & H2 & Q2).
  { destruct QWs as (-> & _). apply fs_le_refl. }
  exists w2. split; [exact H2 | eapply quiet_trans; eauto].
Qed.

(** ** Requests *)

Lemma same_requests_refl (w : world) : same_requests w w.
Proof. reflexivity. Qed.

Lemma same_requests_trans (w1 w2 w3 : world) :
  same_requests w1 w2 -> same_requests w2 w3 -> same_requests w1 w3.
Proof. unfold same_requests. congruence. Qed.

Lemma same_requests_log (w : world) (e : channel * message) :
  same_requests w (World (w_fs w) (w_requests w) (e :: w_log w)).
Proof. reflexivity. Qed.

Ltac same_requests_step :=
  obeys_step same_requests_refl same_requests_trans same_requests_log.

Lemma sends_none (n a : nat) (w w' : world) : same_requests w w' -> sends_at_most n a w w'.
Proof. intros H. exists []. repeat split; [exact H | simpl; lia | simpl; lia]. Qed.

Lemma sends_sum (n1 a1 n2 a2 : nat) (w1 w2 w3 : world) :
  sends_at_most n1 a1 w1 w2 -> sends_at_most n2 a2 w2 w3 ->
  sends_at_most (n1 + n2) (a1 + a2) w1 w3.
Proof.
  intros (rs1 & H1 & Hn1 & Ha1) (rs2 & H2 & Hn2 & Ha2). exists (rs2 ++ rs1).
  unfold sent in *. rewrite H2, H1, <- app_assoc, length_app, count_app.
  repeat split; lia.
Qed.

Lemma sends_more (n a n' a' : nat) (w w' : world) :
  (n <= n')%nat -> (a <= a')%nat -> sends_at_most n a w w' -> sends_at_most n' a' w w'.
Proof. intros Hn Ha (rs & H & Hl & Hc). exists rs. repeat split; [exact H | lia | lia]. Qed.

Lemma costs_free {A : Type} (n a : nat) (c : M A) :
  obeys same_requests c -> obeys (sends_at_most n a) c.
Proof. apply obeys_weaken. apply sends_none. Qed.

Lemma costs_bind {A B : Type} (n1 a1 n2 a2 : nat) (c : M A) (k : A -> M B) :
  obeys (sends_at_most n1 a1) c -> (forall x, obeys (sends_at_most n2 a2) (k x)) ->
  obeys (sends_at_most (n1 + n2) (a1 + a2)) (bind c k).
Proof.
  intros Hc Hk w w' r H. apply bind_inv in H as [(x & w1 & H1 & H2) | (s & H1 & _)].
  - exact (sends_sum _ _ _ _ _ _ _ (Hc _ _ _ H1) (Hk x _ _ _ H2)).
  - apply (sends_more n1 a1); [lia | lia | exact (Hc _ _ _ H1)].
Qed.

Lemma costs_bind_free_l {A B : Type} (n a : nat) (c : M A) (k : A -> M B) :
  obeys same_requests c -> (forall x, obeys (sends_at_most n a) (k x)) ->
  obeys (sends_at_most n a) (bind c k).
Proof.
  intros Hc Hk. apply (costs_bind 0 0 n a); [now apply costs_free | exact Hk].
Qed.

Lemma costs_bind_free_r {A B : Type} (n a : nat) (c : M A) (k : A -> M B) :
  obeys (sends_at_most n a) c -> (forall x, obeys same_requests (k x)) ->
  obeys (sends_at_most n a) (bind c k).
Proof.
  intros Hc Hk w w' r H.
  apply (sends_more (n + 0) (a + 0)); [lia | lia |].
  revert w w' r H. apply costs_bind; [exact Hc | intros x; apply costs_free, Hk].
Qed.

(** [get_json]: at most five requests, none for an asset. *)
Lemma costs_get_json (net : network) (v : json) :
  obeys (sends_at_most 5 0) (Smdl.get_json net v).
Proof.
  intros w w' r. destruct v as [| | |url| |];
    try (unfold Smdl.get_json, raise; intros [= <- <-]; apply sends_none; reflexivity).
  destruct (get_json_run net url w) as (j & k & logs & Hrun & Hk & _).
  rewrite Hrun. intros [= <- <-].
  exists (repeat (ApiGet (Smdl.endpoint +:+ url)) k).
  split; [reflexivity|]. rewrite repeat_length, count_repeat_false by reflexivity.
  split; lia.
Qed.

Lemma same_requests_derive (album_name : string) (image : json) :
  obeys same_requests (Smdl.derive_unique_id album_name image).
Proof. unfold Smdl.derive_unique_id. repeat same_requests_step. Qed.

Lemma same_requests_archived_url (album_name unique_filename : string) (image : json) :
  obeys same_requests (Smdl.archived_url album_name unique_filename image).
Proof. unfold Smdl.archived_url. repeat same_requests_step. Qed.

Lemma costs_resolve (net : network) (album_name unique_filename : string) (image : json) :
  obeys (sends_at_most 5 0)
        (Smdl.resolve_download_url net album_name unique_filename image).
Proof.
  pose proof (same_requests_archived_url album_name unique_filename image) as Ha.
  unfold Smdl.resolve_download_url.
  repeat first
    [ apply costs_free; solve [repeat same_requests_step]
    | apply costs_bind_free_r;
        [apply costs_get_json | intros; solve [repeat same_requests_step]]
    | apply costs_bind_free_l; [solve [repeat same_requests_step] | intros]
    | match goal with
      | |- obeys _ (if ?b then _ else _) => destruct b
      | |- obeys _ (match ?x with _ => _ end) => destruct x
      end ].
Qed.

(** The download: at most one request, for the URL resolved. *)
Lemma download_requests (net : network) (download_url : json) (image_path : string)
      (w : world) :
  w_requests (snd (Smdl.download net download_url image_path w)) = w_requests w
  \/ exists url, download_url = JStr url
       /\ w_requests (snd (Smdl.download net download_url image_path w))
          = AssetGet url :: w_requests w.
Proof.
  unfold Smdl.download, Smdl.could_not_fetch.
  destruct download_url as [| | |url| |]; try (left; reflexivity).
  right. exists url. split; [reflexivity|].
  unfold bind, get_fs, put_fs, logging, emit, requests_get, raise. simpl.
  repeat match goal with
         | |- context [match ?x with _ => _ end] => destruct x; simpl
         end; reflexivity.
Qed.

Lemma costs_download (net : network) (download_url : json) (image_path : string) :
  obeys (sends_at_most 1 1) (Smdl.download net download_url image_path).
Proof.
  intros w w' r H.
  destruct (download_requests net download_url image_path w) as [Hs | (url & _ & Hs)];
    rewrite H in Hs; cbn [snd] in Hs.
  - now apply sends_none.
  - exists [AssetGet url]. repeat split; [exact Hs | simpl; lia | simpl; lia].
Qed.

Lemma costs_process_image (net : network) (album_name album_path : string) (image : json) :
  obeys (sends_at_most 6 1) (Smdl.process_image net album_name album_path image).
Proof.
  unfold Smdl.process_image.
  apply costs_bind_free_l; [apply same_requests_derive | intros unique_id].
  apply costs_bind_free_l; [same_requests_step | intros unique_filename].
  apply costs_bind_free_l; [same_requests_step | intros fs].
  destruct (isfile fs _); [apply costs_free; same_requests_step|].
  apply (costs_bind 5 0 1 1); [apply costs_resolve | intros; apply costs_download].
Qed.

(** *** One call of the recovery download *)



(** ** Listings that break off or never end *)

(** A URL that never answers costs the five attempts and gives [None]. *)
Lemma get_json_unreachable (net : network) (url : string) (w : world) :
  unreachable net url ->
  exists logs : list (channel * message),
    Smdl.get_json net (JStr url) w
    = (Ok JNull, World (w_fs w)
                       (repeat (ApiGet (Smdl.endpoint +:+ url)) 5 ++ w_requests w)
                       (logs ++ w_log w)).
Proof.
  intros Hu. destruct (get_json_run net url w) as (j & k & logs & Hrun & _ & _ & Hend).
  exists logs. destruct Hend as [(-> & -> & _) | (m & _ & Hm)]; [exact Hrun|].
  destruct (Hu (length (w_requests w) + m)%nat) as [e He]. congruence.
Qed.




Lemma rstrip_by_all (p : ascii -> bool) (s : string) :
  all_chars p s = true -> rstrip_by p s = EmptyString.
Proof.
  induction s as [|c s IH]; simpl; [reflexivity|].
  rewrite andb_true_iff. intros [Hc Hs]. now rewrite (IH Hs), Hc.
Qed.

(** *** The log file *)

Lemma log_file_parent (output_dir : string) :
  removelast (components (path_join output_dir "smugmug_downloader.log"))
  = components output_dir.
Proof.
  rewrite components_path_join; [apply List.removelast_last | discriminate | ].
  unfold no_slash. vm_compute. reflexivity.
Qed.

(** Nothing can be opened below a regular file. *)
Lemma open_append_under_file (f : gmap (list string) node) (output_dir : string) :
  isfile f output_dir = true ->
  open_append f (path_join output_dir "smugmug_downloader.log") = None.
Proof.
  unfold isfile, stat. destruct (String.eqb output_dir EmptyString); [discriminate|].
  destruct (node_at f (components output_dir)) as [[c|]|] eqn:Hn; try discriminate.
  intros _. unfold open_append. rewrite log_file_parent, Hn.
  destruct (_ || _); [reflexivity|].
  destruct (node_at f (components (path_join output_dir "smugmug_downloader.log")))
    as [[?|]|]; reflexivity.
Qed.

Lemma isfile_path_exists (f : gmap (list string) node) (p : string) :
  isfile f p = true -> path_exists f p = true.
Proof. unfold isfile, path_exists. now destruct (stat f p) as [[?|]|]. Qed.

(** *** An album whose listing does not arrive *)



(** *** The results of a loop *)


(** *** Files that are written *)

Lemma open_write_stat (f f' : gmap (list string) node) (p content : string) :
  open_write f p content = Some f' -> stat f' p = Some (File content).
Proof.
  unfold open_write, stat.
  destruct (String.eqb p EmptyString) eqn:Hp; [discriminate|].
  destruct (endswith_char "/" p) eqn:He; [discriminate|]. cbn [orb].
  assert (Hroot : is_root (components p) = true -> node_at f (components p) = Some Dir)
    by (unfold node_at; now intros ->).
  destruct (is_root (components p)) eqn:Hr.
  - rewrite (Hroot eq_refl). discriminate.
  - destruct (node_at f (components p)) as [[old|]|];
      destruct (node_at f (removelast (components p))) as [[?|]|]; try discriminate;
      intros [= <-]; rewrite node_at_insert, Hr;
      destruct (decide (components p = components p)); congruence.
Qed.

Lemma stat_isfile (f : gmap (list string) node) (p content : string) :
  stat f p = Some (File content) -> isfile f p = true.
Proof. unfold isfile. now intros ->. Qed.

(** The download when the body breaks off: what arrived stays on disk. *)
Lemma download_broken (net : network) (url image_path : string) (status : Z) (b : body)
      (fs' : gmap (list string) node) (w : world) :
  net (length (w_requests w)) url = Reply status b ->
  status_is_error status = false ->
  complete b = false ->
  open_write (w_fs w) image_path (content b) = Some fs' ->
  Smdl.download net (JStr url) image_path w
  = (Sig Continue,
     World fs' (AssetGet url :: w_requests w)
           ((Logged ERROR, CouldNotFetchImage (JStr url) BodyBroken) :: w_log w)).
Proof.
  intros Hnet Hst Hc Ho. unfold Smdl.download, Smdl.could_not_fetch.
  unfold bind at 1, requests_get at 1. rewrite Hnet, Hst.
  unfold bind at 1, get_fs at 1. cbn [w_fs]. rewrite Ho.
  unfold bind at 1, put_fs at 1. rewrite Hc. reflexivity.
Qed.

Lemma fetch_image_broken (net : network) (url image_path : string) (status : Z) (b : body)
      (fs' : gmap (list string) node) (w : world) :
  net (length (w_requests w)) url = Reply status b ->
  status_is_error status = false ->
  complete b = false ->
  open_write (w_fs w) image_path (content b) = Some fs' ->
  Retry.fetch_image net url image_path w
  = (Ok tt,
     World fs' (AssetGet url :: w_requests w)
           ((Logged ERROR, CouldNotFetchImage (JStr url) BodyBroken)
              :: (Logged INFO, DownloadingImage url) :: w_log w)).
Proof.
  intros Hnet Hst Hc Ho. unfold Retry.fetch_image.
  unfold bind at 1, logging at 1, emit at 1.
  unfold bind at 1, requests_get at 1. cbn [w_fs w_requests w_log]. rewrite Hnet, Hst.
  unfold bind at 1, get_fs at 1. cbn [w_fs]. rewrite Ho.
  unfold bind at 1, put_fs at 1. rewrite Hc. reflexivity.
Qed.

(** *** Stripped paths *)

Lemma rstrip_char_last (c : ascii) (s : string) :
  endswith_char c (rstrip_char c s) = false.
Proof.
  unfold rstrip_char. induction s as [|d s IH]; cbn [rstrip_by endswith_char]; [reflexivity|].
  destruct (rstrip_by (Ascii.eqb c) s) as [|e r] eqn:Hr.
  - destruct (Ascii.eqb c d) eqn:Hd; [reflexivity|].
    cbn [endswith_char]. now rewrite Ascii.eqb_sym.
  - exact IH.
Qed.

Lemma lstrip_char_first (c : ascii) (s : string) :
  startswith (String c EmptyString) (lstrip_char c s) = false.
Proof.
  unfold lstrip_char. induction s as [|d s IH]; cbn [lstrip_by]; [reflexivity|].
  destruct (Ascii.eqb c d) eqn:Hd; [exact IH|].
  cbn [startswith]. now rewrite Hd.
Qed.

(** *** The end of the main logic *)

Lemma sync_ends (net : network) (args : Smdl.arguments) (fuel : nat) (w w' : world) :
  Smdl.sync net args fuel w = (Ok tt, w') ->
  exists rest : list (channel * message),
    w_log w' = (Printed, Completed) :: (Logged INFO, AllDownloadsCompleted) :: rest.
Proof.
  unfold Smdl.sync. intros H.
  apply bind_inv in H as [(? & w1 & _ & H) | (s & _ & [=])].
  apply bind_inv in H as [(albums_data & w2 & _ & H) | (s & _ & [=])].
  destruct (Smdl.is_none albums_data).
  { apply bind_inv in H as [(? & w3 & _ & H) | (s & _ & [=])]. discriminate H. }
  apply bind_inv in H as [(? & w3 & _ & H) | (s & _ & [=])].
  apply bind_inv in H as [(album_list & w4 & _ & H) | (s & _ & [=])].
  apply bind_inv in H as [(albums & w5 & _ & H) | (s & _ & [=])].
  apply bind_inv in H as [(? & w6 & _ & H) | (s & _ & [=])].
  unfold bind, logging, print, emit in H. injection H as <-.
  now exists (w_log w6).
Qed.

(** ** Claims on names and paths *)

(** C8, as the code has it.  [sanitize_filename] replaces, character by
    character, whatever is outside the allow-list (word characters, hyphen,
    underscore, dot, space) by an underscore, in both scripts.  The derived id
    is never sanitised.  The recovery script sanitises the base name only and
    keeps the extension as it is.  The main script sanitises the whole
    [FileName] before it is split, so the extension of the local name is the
    sanitised extension (for a name without a slash), which is the remote
    extension when that holds allowed characters only. *)
Theorem sanitization_scope :
  (forall s : string,
      Smdl.sanitize_filename s = str_map sanitize_char s
      /\ Retry.sanitize_filename s = str_map sanitize_char s)
  /\ (forall url : string,
         Retry.get_image_filename url
         = str_map sanitize_char (fst (splitext (basename url)))
             +:+ "_" +:+ Retry.get_unique_id url +:+ snd (splitext (basename url)))
  /\ (forall (fields : list (string * json)) (file_name id : string),
         assoc "FileName" fields = Some (JStr file_name) ->
         Smdl.make_unique_filename (JObj fields) (JStr id)
         = Val (fst (splitext (str_map sanitize_char file_name))
                 +:+ "_" +:+ str_take 8 id
                 +:+ snd (splitext (str_map sanitize_char file_name))))
  /\ (forall file_name : string,
         all_chars (fun c => negb (Ascii.eqb c "/")) file_name = true ->
         splitext (str_map sanitize_char file_name)
         = (str_map sanitize_char (fst (splitext file_name)),
            str_map sanitize_char (snd (splitext file_name))))
  /\ (forall ext : string,
         all_chars allowed ext = true -> str_map sanitize_char ext = ext).
Proof.
  split; [intros s; split; [apply smdl_sanitize_map | apply retry_sanitize_map]|].
  split.
  { intros url. unfold Retry.get_image_filename.
    destruct (splitext (basename url)) as [name ext]. simpl.
    now rewrite retry_sanitize_map. }
  split.
  { intros fields file_name id Hf. unfold Smdl.make_unique_filename. simpl.
    rewrite Hf. simpl. rewrite smdl_sanitize_map.
    now destruct (splitext (str_map sanitize_char file_name)). }
  split; [exact splitext_sanitize | exact sanitize_allowed].
Qed.

(** The example of the specification: [My Photo?!*.jpg], here with the id
    [0123456789abcdef]. *)
Lemma sanitization_scope_witness :
  Smdl.make_unique_filename (JObj [("FileName", JStr "My Photo?!*.jpg")])
                            (JStr "0123456789abcdef")
  = Val "My Photo____01234567.jpg"
  /\ splitext (str_map sanitize_char "My Photo?!*.jpg")
     = ("My Photo___", ".jpg").
Proof.
  split.
  - rewrite (proj1 (proj2 (proj2 sanitization_scope))
               [("FileName", JStr "My Photo?!*.jpg")] "My Photo?!*.jpg"
               "0123456789abcdef" eq_refl).
    vm_compute. reflexivity.
  - rewrite (proj1 (proj2 (proj2 (proj2 sanitization_scope))) "My Photo?!*.jpg" eq_refl).
    vm_compute. reflexivity.
Defined.

(** C8 as worded fails in the main script: of [a.j?g] the local name keeps
    the extension [.j_g]. *)
Lemma extension_is_sanitized : ~ extension_kept_as_is.
Proof.
  intros H.
  specialize (H [("FileName", JStr "a.j?g")] "a.j?g" "0123456789abcdef" eq_refl).
  vm_compute in H. discriminate H.
Qed.

(** C10.  [extract_album_path] is total.  Either the pattern matches: then the
    result is the group of the leftmost match, the longest one from there,
    a non-empty text without newline that stands in the URL between
    [photos/] and [/D].  Or nothing in the URL matches and the result is
    [unknown_album]. *)
Theorem extract_album_path_total (image_url : string) :
  (exists a b : string,
      is_match "photos/" "/D" image_url a (Retry.extract_album_path image_url) b
      /\ forall a' g' b' : string,
           is_match "photos/" "/D" image_url a' g' b' ->
           (String.length a <= String.length a')%nat
           /\ (String.length a' = String.length a ->
               (String.length g' <= String.length (Retry.extract_album_path image_url))%nat))
  \/ (Retry.extract_album_path image_url = "unknown_album"
      /\ forall a g b : string, ~ is_match "photos/" "/D" image_url a g b).
Proof.
  unfold Retry.extract_album_path.
  destruct (re_search_group "photos/" "/D" image_url) as [g|] eqn:Hs.
  - left. exact (re_search_leftmost _ _ _ _ Hs).
  - right. split; [reflexivity | exact (re_search_complete _ _ _ Hs)].
Qed.

(** The URL format of the comment in [extract_album_path]: the group runs
    from the image key to the album path. *)
Example extract_album_path_documented_url :
  Retry.extract_album_path
    "https://photos.smugmug.com/photos/i-xxxxx/0/M/album_path/D/i-xxxxx-D.jpg"
  = "i-xxxxx/0/M/album_path"
  /\ Retry.extract_album_path "https://example.org/a.jpg" = "unknown_album".
Proof. split; vm_compute; reflexivity. Qed.

(** ** Claims on the metadata fetcher *)

(** C6.  [get_json] on a URL never raises.  It sends [k] requests, between 1
    and 5, all for that URL; each of the first [k - 1] replies is a failed
    attempt; then either all 5 attempts have failed and the result is [None],
    or the last reply holds the value returned.  A reply is a failed attempt
    when the request raises, when the status is 4xx or 5xx, when the body has
    no [<pre>] element, and when the text of the last one is not JSON. *)
Theorem get_json_bounded (net : network) (url : string) (w : world) :
  (exists (j : json) (k : nat) (logs : list (channel * message)),
      Smdl.get_json net (JStr url) w
      = (Ok j, World (w_fs w)
                     (repeat (ApiGet (Smdl.endpoint +:+ url)) k ++ w_requests w)
                     (logs ++ w_log w))
      /\ (1 <= k <= 5)%nat
      /\ (forall m, (S m < k)%nat ->
            exists e, Smdl.parse_reply
                        (net (length (w_requests w) + m)%nat (Smdl.endpoint +:+ url)) = inl e)
      /\ ((k = 5%nat /\ j = JNull
           /\ forall m, (m < 5)%nat ->
                exists e, Smdl.parse_reply
                            (net (length (w_requests w) + m)%nat (Smdl.endpoint +:+ url)) = inl e)
          \/ exists m, k = S m
               /\ Smdl.parse_reply
                    (net (length (w_requests w) + m)%nat (Smdl.endpoint +:+ url)) = inr j))
  /\ Smdl.parse_reply NoReply = inl RequestFailed
  /\ (forall (status : Z) (b : body),
         status_is_error status = true \/ pres b = [] \/ last (pres b) = Some None ->
         exists e, Smdl.parse_reply (Reply status b) = inl e).
Proof.
  split; [|split; [reflexivity|]].
  - apply get_json_run.
  - intros status b H. unfold Smdl.parse_reply.
    destruct (complete b); simpl; [|eauto].
    destruct H as [-> | [-> | ->]]; simpl; eauto.
    destruct (status_is_error status); eauto.
    destruct (status_is_error status); eauto.
Qed.

(** Five failures of five kinds in a row: five requests, the result is [None]. *)
Example get_json_gives_up :
  let net : network := fun t _ =>
    match t with
    | O => NoReply
    | 1%nat => Reply 503 (Body [] EmptyString true)
    | 2%nat => Reply 200 (Body [] "<html></html>" true)
    | 3%nat => Reply 200 (Body [Some (JNum 1); None] EmptyString true)
    | _ => Reply 200 (Body [Some JNull] EmptyString false)
    end in
  let r := Smdl.get_json net (JStr "/api/v2/album/x!images") (World ∅ [] []) in
  fst r = Ok JNull
  /\ w_requests (snd r)
     = repeat (ApiGet "https://www.smugmug.com/api/v2/album/x!images") 5
  /\ errors (snd r) = 6%nat.
Proof. vm_compute. repeat split. Qed.

(** ** Claims on the identity deriver *)

(** What of C2 holds.  On a metadata record the unique id is the first
    available (truthy) of [ArchivedMD5], [MD5Sum] and [id]; when none is, it
    is the SHA-256 hexadecimal digest of a non-empty [Uri] that is a string
    (a warning is logged); when that is missing too the image is skipped: an
    error is logged, nothing is requested or written.  The outcome depends on
    the record alone.  The file name carries the first 8 characters of an id
    that is a string, after the base name and before the extension.  A digest
    is 64 lowercase hexadecimal digits, so 8 of them are kept. *)
Lemma derived_id_precedence (album_name : string) (fields : list (string * json))
        (w : world) :
  Smdl.derive_unique_id album_name (JObj fields) w
  = match List.find truthy
            [field fields "ArchivedMD5"; field fields "MD5Sum"; field fields "id"] with
    | Some unique_id => (Ok unique_id, w)
    | None =>
        match assoc "Uri" fields with
        | Some (JStr uri) =>
            if nonempty uri
            then (Ok (JStr (sha256_hexdigest uri)),
                  add_log WARNING (UsingHashOfUri album_name) w)
            else (Sig Continue, add_log ERROR (MissingIdAndUri album_name) w)
        | Some v =>
            if truthy v then (Sig (Exn AttributeError), w)
            else (Sig Continue, add_log ERROR (MissingIdAndUri album_name) w)
        | None => (Sig Continue, add_log ERROR (MissingIdAndUri album_name) w)
        end
    end
  /\ (forall (other_name : string) (w2 : world),
         fst (Smdl.derive_unique_id other_name (JObj fields) w2)
         = fst (Smdl.derive_unique_id album_name (JObj fields) w))
  /\ (forall file_name id : string,
         py_get_default (JObj fields) "FileName" (JStr "unknown_filename")
         = Val (JStr file_name) ->
         Smdl.make_unique_filename (JObj fields) (JStr id)
         = Val (fst (splitext (Smdl.sanitize_filename file_name))
                  +:+ "_" +:+ str_take 8 id
                  +:+ snd (splitext (Smdl.sanitize_filename file_name))))
  /\ (forall uri : string,
         String.length (sha256_hexdigest uri) = 64%nat
         /\ all_chars is_lower_hex (sha256_hexdigest uri) = true
         /\ String.length (str_take 8 (sha256_hexdigest uri)) = 8%nat)
  /\ (forall (net : network) (album_path : string),
         List.find truthy
           [field fields "ArchivedMD5"; field fields "MD5Sum"; field fields "id"] = None ->
         truthy (field fields "Uri") = false ->
         Smdl.process_image net album_name album_path (JObj fields) w
         = (Sig Continue, add_log ERROR (MissingIdAndUri album_name) w)).
Proof.
  split; [apply derive_unique_id_run|].
  split; [intros; apply derive_unique_id_pure|].
  split; [intros; now apply make_unique_filename_str|].
  split.
  - intros uri. destruct (sha256_hexdigest_shape uri) as [Hl Hh].
    split; [exact Hl|]. split; [exact Hh|]. now rewrite str_take_length, Hl.
  - intros net album_path Hfind Huri. unfold Smdl.process_image.
    apply bind_sig. rewrite derive_unique_id_run, Hfind.
    unfold field in Huri. destruct (assoc "Uri" fields) as [v|]; [|reflexivity].
    destruct v; try (now rewrite Huri); simpl in Huri.
    unfold nonempty. now destruct (String.eqb s EmptyString).
Qed.

(** A record with nothing to derive an id from, and one with all four
    sources. *)
Lemma derived_id_precedence_witness :
  Smdl.process_image (fun _ _ => NoReply) "Trip" "output/Trip"
                     (JObj [("FileName", JStr "a.jpg"); ("Uri", JStr EmptyString)])
                     (World ∅ [] [])
  = (Sig Continue, World ∅ [] [(Logged ERROR, MissingIdAndUri "Trip")])
  /\ Smdl.make_unique_filename
       (JObj [("FileName", JStr "a.jpg"); ("ArchivedMD5", JStr "0123456789abcdef")])
       (JStr "0123456789abcdef")
     = Val "a_01234567.jpg".
Proof.
  split.
  - exact (proj2 (proj2 (proj2 (proj2
             (derived_id_precedence "Trip"
                [("FileName", JStr "a.jpg"); ("Uri", JStr EmptyString)] (World ∅ [] [])))))
             (fun _ _ => NoReply) "output/Trip" eq_refl eq_refl).
  - rewrite (proj1 (proj2 (proj2
               (derived_id_precedence "Trip"
                  [("FileName", JStr "a.jpg"); ("ArchivedMD5", JStr "0123456789abcdef")]
                  (World ∅ [] []))))
               "a.jpg" "0123456789abcdef" eq_refl).
    vm_compute. reflexivity.
Defined.

(** The four sources in turn. *)
Example derived_id_examples :
  let id_of fields := fst (Smdl.derive_unique_id "Trip" (JObj fields) (World ∅ [] [])) in
  id_of [("MD5Sum", JStr "m"); ("ArchivedMD5", JStr "a"); ("id", JStr "i"); ("Uri", JStr "/u")]
  = Ok (JStr "a")
  /\ id_of [("MD5Sum", JStr "m"); ("ArchivedMD5", JStr EmptyString); ("id", JStr "i")]
     = Ok (JStr "m")
  /\ id_of [("id", JStr "i"); ("Uri", JStr "/u")] = Ok (JStr "i")
  /\ id_of [("Uri", JStr "abc")]
     = Ok (JStr "ba7816bf8f01cfea414140de5dae2223b00361a396177a9cb410ff61f20015ad")
  /\ id_of [("FileName", JStr "a.jpg")] = Sig Continue.
Proof. vm_compute. repeat split. Qed.

(** What of C2 fails: an id that is a number.  It is the unique id as soon
    as the record has no checksum, and [unique_id[:8]] (line 209) raises a
    [TypeError] that nothing catches: the image is not skipped, the exception
    leaves the loop. *)
Lemma numeric_id_raises (net : network) (album_name album_path : string)
      (fields : list (string * json)) (n : Z) (w : world) :
  truthy (field fields "ArchivedMD5") = false ->
  truthy (field fields "MD5Sum") = false ->
  assoc "id" fields = Some (JNum n) ->
  n <> 0 ->
  Smdl.derive_unique_id album_name (JObj fields) w = (Ok (JNum n), w)
  /\ Smdl.make_unique_filename (JObj fields) (JNum n) = Err TypeError
  /\ Smdl.process_image net album_name album_path (JObj fields) w
     = (Sig (Exn TypeError), w).
Proof.
  intros Ha Hm Hid Hn.
  assert (Hd : Smdl.derive_unique_id album_name (JObj fields) w = (Ok (JNum n), w)).
  { rewrite derive_unique_id_run. cbn [List.find]. rewrite Ha, Hm.
    unfold field. rewrite Hid. cbn [truthy].
    now rewrite (proj2 (Z.eqb_neq n 0) Hn). }
  assert (Hf : Smdl.make_unique_filename (JObj fields) (JNum n) = Err TypeError).
  { unfold Smdl.make_unique_filename. cbn [py_get_default].
    destruct (match assoc "FileName" fields with Some x => x | None => _ end);
      cbn [Smdl.sanitize_value]; try reflexivity.
    now destruct (splitext _). }
  split; [exact Hd|]. split; [exact Hf|].
  unfold Smdl.process_image. rewrite (bind_ok _ _ _ _ _ Hd), bind_lift. now rewrite Hf.
Qed.

(** C2 at a failing input.  The image of album A has no checksum and the
    catalog id 12345, a number: the id is derived, the slice raises
    [TypeError], the run ends there without an error entry, nothing is
    downloaded and album B is never asked for.  With the same id as a string
    the image is saved as [a_12345.jpg] and album B is downloaded. *)
Theorem numeric_id_aborts_run :
  let record id :=
    JObj [("FileName", JStr "a.jpg"); ("id", id);
          ("Uris", JObj [("LargestImage",
                          JObj [("Uri", JStr "/api/v2/image/a!largestimage")])])] in
  let w0 := World ∅ [] [] in
  let bad := Smdl.main (two_albums (record (JNum 12345))) bob 8 w0 in
  let good := Smdl.main (two_albums (record (JStr "12345"))) bob 8 w0 in
  (fst (Smdl.derive_unique_id "A" (record (JNum 12345)) w0) = Ok (JNum 12345)
   /\ Smdl.make_unique_filename (record (JNum 12345)) (JNum 12345) = Err TypeError
   /\ fst bad = Sig (Exn TypeError)
   /\ errors (snd bad) = 0%nat
   /\ assets (snd bad) = 0%nat
   /\ requested "https://www.smugmug.com/api/v2/album/B!images" (snd bad) = false
   /\ isfile (w_fs (snd bad)) "output/B/b_bbbbbbbb.jpg" = false)
  /\ (fst good = Ok tt
      /\ isfile (w_fs (snd good)) "output/A/a_12345.jpg" = true
      /\ isfile (w_fs (snd good)) "output/B/b_bbbbbbbb.jpg" = true).
Proof. vm_compute. repeat split. Qed.

(** ** Claims on the download resolver *)

(** What of C5 holds.  For an image whose [Uris] is a mapping, the location
    chosen is the first present of [LargestVideo], [ImageDownload],
    [LargestImage].  When
    one is present and carries the descriptor URI [uri], the resolver makes
    one call of [get_json], on [uri], and nothing else on the network: the
    image is skipped with an error entry when the call returns [None],
    otherwise the URL is read in the descriptor.  When none is present the URL
    is the record's [ArchivedUri], and the image is skipped with an error
    entry when that is missing. *)
Lemma resolver_precedence (net : network) (album_name unique_filename : string)
        (fields uris : list (string * json)) (w : world) :
  assoc "Uris" fields = Some (JObj uris) ->
  let chosen :=
    List.find (has_key uris) ["LargestVideo"; "ImageDownload"; "LargestImage"] in
  let resolve := Smdl.resolve_download_url net album_name unique_filename (JObj fields) in
  Smdl.choose_largest_media (JObj uris) = Val chosen
  /\ (forall (media uri : string) (location : json),
         chosen = Some media ->
         assoc media uris = Some location ->
         py_item location "Uri" = Val (JStr uri) ->
         resolve w
         = match Smdl.get_json net (JStr uri) w with
           | (Ok JNull, w1) =>
               (Sig Continue, add_log ERROR (CouldNotRetrieveImageData uri) w1)
           | (Ok image_req, w1) =>
               (match url_in_descriptor image_req media with
                | Val url => Ok url
                | Err e => Sig (Exn e)
                end, w1)
           | (Sig s, w1) => (Sig s, w1)
           end
         /\ exists k : nat,
             (1 <= k <= 5)%nat
             /\ w_requests (snd (resolve w))
                = repeat (ApiGet (Smdl.endpoint +:+ uri)) k ++ w_requests w)
  /\ (chosen = None ->
      resolve w
      = if truthy (field fields "ArchivedUri")
        then (Ok (field fields "ArchivedUri"), w)
        else (Sig Continue, add_log ERROR (NoDownloadUrl unique_filename album_name) w)).
Proof.
  intros HU chosen resolve. split; [apply choose_largest_media_obj|]. split.
  - intros media uri location Hc Hloc Huri.
    assert (Heq := resolve_with_media net album_name unique_filename media fields uris
                     location (JStr uri) w HU Hc Hloc Huri).
    fold resolve in Heq. cbn [py_str] in Heq. split; [exact Heq|].
    rewrite Heq.
    destruct (get_json_run net uri w) as (j & k & logs & Hrun & Hk & _).
    rewrite Hrun. exists k. split; [exact Hk|].
    destruct j; try reflexivity.
  - intros Hc. unfold resolve.
    rewrite (resolve_without_media net album_name unique_filename fields uris w HU Hc).
    apply archived_url_run.
Qed.

(** An image with a video and a download location: the video is chosen, its
    descriptor is fetched once and holds the URL. *)
Lemma resolver_precedence_witness :
  let net : network := fun _ url =>
    if String.eqb url "https://www.smugmug.com/api/v2/image/I1!largestvideo"
    then Reply 200 (Body [Some (JObj [("Response",
             JObj [("LargestVideo", JObj [("Url", JStr "https://photos.smugmug.com/I1.mp4")])])])]
             EmptyString true)
    else NoReply in
  let uris := [("ImageDownload", JObj [("Uri", JStr "/api/v2/image/I1!download")]);
               ("LargestVideo", JObj [("Uri", JStr "/api/v2/image/I1!largestvideo")])] in
  Smdl.choose_largest_media (JObj uris) = Val (Some "LargestVideo")
  /\ Smdl.resolve_download_url net "Trip" "a_01234567.mp4"
       (JObj [("FileName", JStr "a.mp4"); ("Uris", JObj uris)]) (World ∅ [] [])
     = (Ok (JStr "https://photos.smugmug.com/I1.mp4"),
        World ∅ [ApiGet "https://www.smugmug.com/api/v2/image/I1!largestvideo"] []).
Proof.
  intros net uris.
  pose proof (resolver_precedence net "Trip" "a_01234567.mp4"
                [("FileName", JStr "a.mp4"); ("Uris", JObj uris)] uris (World ∅ [] [])
                eq_refl) as (Hchoose & Hmedia & _).
  split; [exact Hchoose|].
  destruct (Hmedia "LargestVideo" "/api/v2/image/I1!largestvideo"
              (JObj [("Uri", JStr "/api/v2/image/I1!largestvideo")])
              eq_refl eq_refl eq_refl) as [Heq _].
  rewrite Heq. vm_compute. reflexivity.
Defined.

(** What of C5 fails: a record without [Uris].  None of the three locations
    is present, yet the archive link is not used: the subscript [image["Uris"]]
    (line 219) raises a [KeyError] that nothing catches, whatever
    [ArchivedUri] holds. *)
Lemma resolve_without_uris (net : network) (album_name unique_filename : string)
      (fields : list (string * json)) (w : world) :
  assoc "Uris" fields = None ->
  Smdl.resolve_download_url net album_name unique_filename (JObj fields) w
  = (Sig (Exn KeyError), w).
Proof.
  intros HU. unfold Smdl.resolve_download_url. rewrite bind_lift.
  cbn [py_item]. now rewrite HU.
Qed.

(** C5 at a failing input.  The image of album A has an archive link and no
    [Uris]: the resolver raises [KeyError] instead of falling back to the
    link; the run ends there without an error entry, the image is not
    downloaded and album B is never asked for.  With an empty [Uris] the
    same image is downloaded from its archive link, and album B after it. *)
Theorem missing_uris_has_no_fallback :
  let no_uris :=
    JObj [("FileName", JStr "a.jpg"); ("ArchivedMD5", JStr "aaaaaaaaaaaaaaaa");
          ("ArchivedUri", JStr "https://photos.smugmug.com/a.jpg")] in
  let empty_uris :=
    JObj [("FileName", JStr "a.jpg"); ("ArchivedMD5", JStr "aaaaaaaaaaaaaaaa");
          ("ArchivedUri", JStr "https://photos.smugmug.com/a.jpg"); ("Uris", JObj [])] in
  let w0 := World ∅ [] [] in
  let bad := Smdl.main (two_albums no_uris) bob 8 w0 in
  let good := Smdl.main (two_albums empty_uris) bob 8 w0 in
  (Smdl.resolve_download_url (two_albums no_uris) "A" "a_aaaaaaaa.jpg" no_uris w0
   = (Sig (Exn KeyError), w0)
   /\ fst bad = Sig (Exn KeyError)
   /\ errors (snd bad) = 0%nat
   /\ assets (snd bad) = 0%nat
   /\ isfile (w_fs (snd bad)) "output/A/a_aaaaaaaa.jpg" = false
   /\ requested "https://www.smugmug.com/api/v2/album/B!images" (snd bad) = false)
  /\ (Smdl.resolve_download_url (two_albums empty_uris) "A" "a_aaaaaaaa.jpg" empty_uris w0
      = (Ok (JStr "https://photos.smugmug.com/a.jpg"), w0)
      /\ fst good = Ok tt
      /\ requested "https://photos.smugmug.com/a.jpg" (snd good) = true
      /\ isfile (w_fs (snd good)) "output/A/a_aaaaaaaa.jpg" = true
      /\ isfile (w_fs (snd good)) "output/B/b_bbbbbbbb.jpg" = true).
Proof. vm_compute. repeat split. Qed.

(** ** Claims on the catalog walker *)




(** C9.  When the album list is fetched and is empty, the script exits with
    status 1: a warning is logged, no album is visited, nothing is requested
    besides the album list and nothing is written after the set-up. *)
Theorem empty_album_list_exits (net : network) (args : Smdl.arguments) (fuel : nat)
        (w ws w1 : world) (albums_data resp : json) :
  Smdl.setup args w = (Ok tt, ws) ->
  Smdl.get_json net (JStr ("/api/v2/folder/user/" +:+ Smdl.user args +:+ "!albumlist"))
                (add_log INFO RetrievingAlbumList ws)
  = (Ok albums_data, w1) ->
  py_item albums_data "Response" = Val resp ->
  py_item resp "AlbumList" = Val (JArr []) ->
  Smdl.main net args fuel w
  = (Sig (SystemExit 1),
     add_log WARNING (NoAlbumsFound (Smdl.user args)) (add_log INFO AlbumListRetrieved w1))
  /\ Smdl.sync net args fuel ws
     = (Sig (SystemExit 1),
        add_log WARNING (NoAlbumsFound (Smdl.user args)) (add_log INFO AlbumListRetrieved w1))
  /\ w_fs w1 = w_fs ws
  /\ assets w1 = assets ws.
Proof.
  intros Hsetup Hget Hresp Hlist.
  assert (Hsync : Smdl.sync net args fuel ws
                  = (Sig (SystemExit 1),
                     add_log WARNING (NoAlbumsFound (Smdl.user args))
                             (add_log INFO AlbumListRetrieved w1))).
  { unfold Smdl.sync. unfold bind at 1. cbn [logging emit]. fold (add_log INFO RetrievingAlbumList ws).
    unfold bind at 1. rewrite Hget.
    destruct albums_data; try discriminate Hresp. cbn [Smdl.is_none].
    unfold bind at 1. cbn [logging emit]. fold (add_log INFO AlbumListRetrieved w1).
    unfold bind at 1. unfold Smdl.read_album_list, Smdl.except_KeyError.
    unfold bind at 1. rewrite Hresp. cbn [lift].
    unfold bind at 1. rewrite Hlist. cbn [lift truthy negb].
    reflexivity. }
  split; [|split; [exact Hsync|]].
  - unfold Smdl.main. rewrite (bind_ok _ _ _ _ _ Hsetup). exact Hsync.
  - destruct (get_json_quiet _ _ _ _ _ Hget) as (Hf & Ha & _). split; [exact Hf | exact Ha].
Qed.

(** A user without albums. *)
Lemma empty_album_list_exits_witness :
  let net := catalog [("/api/v2/folder/user/bob!albumlist",
                       JObj [("Response", JObj [("AlbumList", JArr [])])])] [] in
  fst (Smdl.main net (Smdl.Args None "bob" "output/" None) 8 (World ∅ [] []))
  = Sig (SystemExit 1).
Proof.
  intros net.
  set (args := Smdl.Args None "bob" "output/" None).
  set (w := World ∅ [] []).
  set (url := JStr ("/api/v2/folder/user/" +:+ Smdl.user args +:+ "!albumlist")).
  assert (Hsetup : Smdl.setup args w = (Ok tt, snd (Smdl.setup args w)))
    by (vm_compute; reflexivity).
  assert (Hget : Smdl.get_json net url
                   (add_log INFO RetrievingAlbumList (snd (Smdl.setup args w)))
                 = (Ok (JObj [("Response", JObj [("AlbumList", JArr [])])]),
                    snd (Smdl.get_json net url
                           (add_log INFO RetrievingAlbumList (snd (Smdl.setup args w))))))
    by (vm_compute; reflexivity).
  exact (f_equal fst
           (proj1 (empty_album_list_exits net args 8 w _ _ _ _ Hsetup Hget eq_refl eq_refl))).
Defined.

(** ** Claims on the recovery scan *)




(** ** Claims on failures *)

(** What of C4 holds: a next page that cannot be fetched ends the pagination
    with the items gathered so far and an error entry. *)
Lemma pagination_failure_keeps_items (net : network) (n : nat) (album_name : string)
      (images next : json) (w w1 : world) :
  truthy next = true ->
  Smdl.get_json net next w = (Ok JNull, w1) ->
  Smdl.paginate net (S n) album_name images next w
  = (Ok images, add_log ERROR (CouldNotRetrieveNextPage album_name) w1).
Proof.
  intros Ht Hg. cbn [Smdl.paginate]. rewrite Ht. cbn [negb].
  rewrite (bind_ok _ _ _ _ _ Hg). reflexivity.
Qed.

(** What of C4 holds: the download of an image never raises; it ends
    normally or, after an error entry, with [continue]. *)
Lemma download_failure_is_absorbed (net : network) (download_url : json)
      (image_path : string) (w : world) :
  fst (Smdl.download net download_url image_path w) = Ok tt
  \/ (fst (Smdl.download net download_url image_path w) = Sig Continue
      /\ (errors w < errors (snd (Smdl.download net download_url image_path w)))%nat).
Proof.
  destruct (Smdl.download net download_url image_path w) as [r w'] eqn:H.
  apply download_run in H as [_ [[-> _] | [-> He]]]; [now left | right; now split].
Qed.

(** C4 at a failing input.  The image of album A has no [Uris]: the look-up
    raises [KeyError], which nothing handles; the run ends there, album B is
    never asked for and its image is not downloaded.  With an empty [Uris]
    instead, the same image is skipped with an error entry and album B is
    downloaded. *)
Theorem malformed_image_aborts_run :
  let no_uris := JObj [("FileName", JStr "a.jpg"); ("ArchivedMD5", JStr "aaaaaaaaaaaaaaaa")] in
  let empty_uris := JObj [("FileName", JStr "a.jpg"); ("ArchivedMD5", JStr "aaaaaaaaaaaaaaaa");
                          ("Uris", JObj [])] in
  let w0 := World ∅ [] [] in
  let bad := Smdl.main (two_albums no_uris) bob 8 w0 in
  let good := Smdl.main (two_albums empty_uris) bob 8 w0 in
  (fst bad = Sig (Exn KeyError)
   /\ requested "https://www.smugmug.com/api/v2/album/B!images" (snd bad) = false
   /\ isfile (w_fs (snd bad)) "output/B/b_bbbbbbbb.jpg" = false)
  /\ (fst good = Ok tt
      /\ errors (snd good) = 1%nat
      /\ isfile (w_fs (snd good)) "output/B/b_bbbbbbbb.jpg" = true).
Proof. vm_compute. repeat split. Qed.

(** ** Claims on idempotence *)

Lemma derive_touches_log_only (album_name : string) (image : json) (w w' : world)
      (r : result json) :
  Smdl.derive_unique_id album_name image w = (r, w') ->
  w_fs w' = w_fs w /\ w_requests w' = w_requests w.
Proof.
  destruct image as [| | | | |fields];
    try (unfold Smdl.derive_unique_id; rewrite bind_lift; cbn; now intros [= <- <-]).
  rewrite derive_unique_id_run.
  repeat match goal with
         | |- context [match ?x with _ => _ end] => destruct x
         end; now intros [= <- <-].
Qed.

Lemma download_image_no_request (net : network) (args : Retry.arguments)
      (image_url : string) (w : world) :
  isfile (w_fs w)
         (path_join (path_join (Retry.output_dir args) (Retry.extract_album_path image_url))
                    (Retry.get_image_filename image_url)) = true ->
  w_requests (snd (Retry.download_image net args image_url w)) = w_requests w
  /\ (path_exists (w_fs w)
        (path_join (Retry.output_dir args) (Retry.extract_album_path image_url)) = true ->
      Retry.download_image net args image_url w
      = (Ok tt,
         add_log INFO
           (ImageAlreadyExists
              (path_join (path_join (Retry.output_dir args)
                                    (Retry.extract_album_path image_url))
                         (Retry.get_image_filename image_url))) w)).
Proof.
  intros Hfile.
  assert (Hthere : path_exists (w_fs w)
                     (path_join (Retry.output_dir args)
                                (Retry.extract_album_path image_url)) = true ->
                   Retry.download_image net args image_url w
                   = (Ok tt,
                      add_log INFO
                        (ImageAlreadyExists
                           (path_join (path_join (Retry.output_dir args)
                                                 (Retry.extract_album_path image_url))
                                      (Retry.get_image_filename image_url))) w)).
  { intros He. unfold Retry.download_image, Retry.download_into.
    unfold bind at 1, get_fs at 1. rewrite He.
    unfold bind at 1, get_fs at 1. now rewrite Hfile. }
  split; [|exact Hthere].
  destruct (path_exists (w_fs w)
              (path_join (Retry.output_dir args) (Retry.extract_album_path image_url)))
    eqn:He.
  - now rewrite (Hthere eq_refl).
  - unfold Retry.download_image, Retry.download_into.
    unfold bind at 1, get_fs at 1. rewrite He.
    destruct (makedirs (w_fs w) _) as [fs'|] eqn:Hm; [|reflexivity].
    apply makedirs_grows in Hm as [Hle _]. apply Hle in Hfile.
    unfold bind, put_fs, get_fs, logging, emit. cbn [w_fs]. now rewrite Hfile.
Qed.

(** C1.  In the main loop an image whose destination is a file is skipped
    before anything is resolved or requested: the requests and the files are
    what they were.  In the recovery script [download_image] sends no request
    for such an image (and, its directory being there, only logs that the
    image exists).  Consequently, after a run that ended normally without
    logging an error (every destination is in place), a second run against
    an unchanged remote state ends normally, requests no asset and leaves
    the file system as it is. *)
Theorem skip_if_exists :
  (forall (net : network) (album_name album_path : string) (image unique_id : json)
          (unique_filename : string) (w w1 : world),
      Smdl.derive_unique_id album_name image w = (Ok unique_id, w1) ->
      Smdl.make_unique_filename image unique_id = Val unique_filename ->
      isfile (w_fs w) (path_join album_path unique_filename) = true ->
      Smdl.process_image net album_name album_path image w = (Sig Continue, w1)
      /\ w_requests w1 = w_requests w /\ w_fs w1 = w_fs w)
  /\ (forall (net : network) (args : Retry.arguments) (image_url : string) (w : world),
         isfile (w_fs w)
                (path_join (path_join (Retry.output_dir args)
                                      (Retry.extract_album_path image_url))
                           (Retry.get_image_filename image_url)) = true ->
         w_requests (snd (Retry.download_image net args image_url w)) = w_requests w
         /\ (path_exists (w_fs w)
               (path_join (Retry.output_dir args) (Retry.extract_album_path image_url))
             = true ->
             Retry.download_image net args image_url w
             = (Ok tt,
                add_log INFO
                  (ImageAlreadyExists
                     (path_join (path_join (Retry.output_dir args)
                                           (Retry.extract_album_path image_url))
                                (Retry.get_image_filename image_url))) w)))
  /\ (forall (net : network) (args : Smdl.arguments) (fuel : nat) (w0 w1 : world),
         stable net ->
         Smdl.main net args fuel w0 = (Ok tt, w1) ->
         errors w1 = errors w0 ->
         exists w2 : world,
           Smdl.main net args fuel w1 = (Ok tt, w2)
           /\ w_fs w2 = w_fs w1
           /\ assets w2 = assets w1).
Proof.
  split; [|split].
  - intros net album_name album_path image unique_id unique_filename w w1 Hd Hf Hfile.
    destruct (derive_touches_log_only _ _ _ _ _ Hd) as [Hfs Hreq].
    split; [|split; assumption].
    apply (process_image_skip net album_name album_path image unique_id unique_filename
             w w1 Hd Hf). now rewrite Hfs.
  - exact download_image_no_request.
  - intros net args fuel w0 w1 Hs Hrun Herr.
    destruct (main_replay net args fuel w0 w1 Hs Hrun Herr) as (w2 & H2 & Hf & Ha & _).
    exists w2. repeat split; assumption.
Qed.

(** Two albums of one image each, downloaded by a first run; the second run
    ends normally, with the same files and as many asset requests as
    before. *)
Lemma skip_if_exists_witness :
  let net := two_albums (image_json "a.jpg" "aaaaaaaaaaaaaaaa" "/api/v2/image/a!largestimage") in
  let w1 := snd (Smdl.main net bob 8 (World ∅ [] [])) in
  isfile (w_fs w1) "output/A/a_aaaaaaaa.jpg" = true
  /\ isfile (w_fs w1) "output/B/b_bbbbbbbb.jpg" = true
  /\ assets w1 = 2%nat
  /\ exists w2 : world,
      Smdl.main net bob 8 w1 = (Ok tt, w2) /\ w_fs w2 = w_fs w1 /\ assets w2 = assets w1.
Proof.
  intros net w1.
  split; [vm_compute; reflexivity|]. split; [vm_compute; reflexivity|].
  split; [vm_compute; reflexivity|].
  apply (proj2 (proj2 skip_if_exists) net bob 8%nat (World ∅ [] []) w1).
  - intros t t' url. reflexivity.
  - vm_compute. reflexivity.
  - vm_compute. reflexivity.
Defined.

(** * Further properties of the code *)

(** ** Names and paths *)

(** X1.  [sanitize_filename] (smdl.py 120-124, retry_failed_images.py 34-38)
    returns a name of the same length that holds allowed characters only
    (word characters, hyphen, underscore, dot, space); applying it again
    changes nothing; the two scripts have the same function. *)
Theorem sanitize_filename_idempotent (s : string) :
  all_chars allowed (Smdl.sanitize_filename s) = true
  /\ String.length (Smdl.sanitize_filename s) = String.length s
  /\ Smdl.sanitize_filename (Smdl.sanitize_filename s) = Smdl.sanitize_filename s
  /\ Retry.sanitize_filename s = Smdl.sanitize_filename s.
Proof.
  assert (Hall : forall t, all_chars allowed (str_map sanitize_char t) = true).
  { induction t as [|c t IH]; simpl; [reflexivity|]. rewrite IH, andb_true_r.
    unfold sanitize_char. destruct (allowed c) eqn:Hc; [exact Hc | reflexivity]. }
  rewrite retry_sanitize_map, !smdl_sanitize_map.
  split; [apply Hall|]. split; [apply str_map_length|].
  split; [|reflexivity]. apply sanitize_allowed, Hall.
Qed.

(** X2.  The file name the recovery script builds (retry_failed_images.py
    46-54) is never empty and holds no slash, whatever the URL: joined to the
    album directory (line 91) it names a direct child of that directory. *)
Theorem recovered_file_in_album_directory (url album_path : string) :
  Retry.get_image_filename url <> EmptyString
  /\ no_slash (Retry.get_image_filename url)
  /\ components (path_join album_path (Retry.get_image_filename url))
     = components album_path ++ [Retry.get_image_filename url].
Proof.
  assert (Hne : Retry.get_image_filename url <> EmptyString).
  { unfold Retry.get_image_filename. destruct (splitext (basename url)) as [name ext].
    destruct (Retry.sanitize_filename name); discriminate. }
  assert (Hns : no_slash (Retry.get_image_filename url)).
  { unfold no_slash, Retry.get_image_filename.
    destruct (splitext_all_chars _ _ (basename_no_slash url)) as [_ Hext].
    destruct (splitext (basename url)) as [name ext]. simpl in Hext.
    assert (Hid : all_chars (fun c => negb (Ascii.eqb c "/")) (Retry.get_unique_id url)
                  = true).
    { apply (all_chars_impl is_lower_hex).
      - intros c Hc. destruct (Ascii.eqb c "/") eqn:E; [|reflexivity].
        apply Ascii.eqb_eq in E. subst c. discriminate Hc.
      - apply str_take_all_chars, sha256_hexdigest_shape. }
    now rewrite retry_sanitize_map, !all_chars_app, sanitized_has_no_slash, Hext, Hid. }
  split; [exact Hne|]. split; [exact Hns|]. now apply components_path_join.
Qed.

(** X3.  In the main script (smdl.py 205-211) the file name built for an
    image whose identifier is a string holds no slash as soon as the first
    eight characters of the identifier hold none, whatever [FileName] is: the
    image path then names a direct child of the album directory. *)
Theorem unique_filename_in_album_directory (image : json) (id f album_path : string) :
  Smdl.make_unique_filename image (JStr id) = Val f ->
  no_slash (str_take 8 id) ->
  f <> EmptyString
  /\ no_slash f
  /\ components (path_join album_path f) = components album_path ++ [f].
Proof.
  intros Hf Hid. unfold Smdl.make_unique_filename in Hf.
  destruct (py_get_default image "FileName" (JStr "unknown_filename")) as [v|]; [|discriminate].
  destruct v as [| | |file_name| |]; try discriminate Hf. cbn [Smdl.sanitize_value] in Hf.
  rewrite smdl_sanitize_map in Hf.
  destruct (splitext_all_chars _ _ (sanitized_has_no_slash file_name)) as [Hname Hext].
  destruct (splitext (str_map sanitize_char file_name)) as [name ext].
  cbn [fst snd] in Hname, Hext. cbn [py_slice_to_8 py_str] in Hf. injection Hf as <-.
  assert (Hne : name +:+ "_" +:+ str_take 8 id +:+ ext <> EmptyString)
    by (destruct name; discriminate).
  assert (Hns : no_slash (name +:+ "_" +:+ str_take 8 id +:+ ext)).
  { unfold no_slash in *. now rewrite !all_chars_app, Hname, Hid, Hext. }
  split; [exact Hne|]. split; [exact Hns|]. now apply components_path_join.
Qed.

(** An image of the album [trips/2024]. *)
Lemma unique_filename_in_album_directory_witness :
  components (path_join "output/trips/2024" "My Photo____01234567.jpg")
  = ["output"; "trips"; "2024"; "My Photo____01234567.jpg"].
Proof.
  exact (proj2 (proj2 (unique_filename_in_album_directory
                         (JObj [("FileName", JStr "My Photo?!*.jpg")])
                         "0123456789abcdef" "My Photo____01234567.jpg"
                         "output/trips/2024" eq_refl eq_refl))).
Defined.

(** ** The recovery scan on the lines the main script writes *)

(** X4.  A failure line as the main script writes it (smdl.py 30 and 249)
    ends with the text of the exception.  The recovery scanner
    (retry_failed_images.py 66-71) takes everything from the first [http] to
    the end of the line: what it hands to [download_image], and what is
    requested if a request is made, is the URL followed by a colon and the
    exception text, never the URL itself. *)
Theorem recovered_url_keeps_exception_text (net : network) (args : Retry.arguments)
        (asctime url details : string) (w : world) :
  all_chars (fun c => negb (Ascii.eqb c "h")) asctime = true ->
  startswith "http" url = true ->
  let line := failure_line asctime url details in
  let text := url +:+ ":" +:+ rstrip_by is_space (" " +:+ details +:+ newline) in
  retried line = true
  /\ url_of line = text
  /\ text <> url
  /\ Retry.scan_line net args line = Retry.download_image net args text
  /\ (w_requests (snd (Retry.scan_line net args line w)) = w_requests w
      \/ w_requests (snd (Retry.scan_line net args line w)) = AssetGet text :: w_requests w).
Proof.
  intros Hts Hurl line text.
  pose proof (find_http_failure_line asctime url details Hts Hurl) as Hfind.
  assert (Hret : retried line = true).
  { unfold retried, line. rewrite failure_line_marked, Hfind. cbn [andb].
    apply negb_true_iff, Z.eqb_neq. lia. }
  assert (Hof : url_of line = text).
  { unfold url_of, line, slice_from. rewrite Hfind, Nat2Z.id, slice_failure_line.
    unfold strip, text. clear Hfind Hret.
    destruct url as [|c rest]; [discriminate Hurl|]. cbn [startswith] in Hurl.
    apply andb_true_iff in Hurl as [Hc _]. apply Ascii.eqb_eq in Hc. subst c.
    change (": " +:+ details +:+ newline) with (String ":" (" " +:+ details +:+ newline)).
    rewrite (app_cons "h" rest), lstrip_by_first by reflexivity.
    rewrite <- app_cons, rstrip_by_keep by reflexivity. reflexivity. }
  split; [exact Hret|]. split; [exact Hof|].
  split; [apply append_not_shorter; discriminate|].
  assert (Hscan : Retry.scan_line net args line = Retry.download_image net args text)
    by (now rewrite scan_line_run, Hret, Hof).
  split; [exact Hscan|]. rewrite Hscan. apply download_image_requests.
Qed.

(** A line for a download that ended with HTTP status 404. *)
Lemma recovered_url_keeps_exception_text_witness :
  url_of (failure_line "2024-05-01 10:00:00,123"
            "https://photos.smugmug.com/photos/i-abc/0/M/trip/D/i-abc-D.jpg"
            "404 Client Error: Not Found for url: https://photos.smugmug.com/photos/i-abc/0/M/trip/D/i-abc-D.jpg")
  = "https://photos.smugmug.com/photos/i-abc/0/M/trip/D/i-abc-D.jpg: 404 Client Error: Not Found for url: https://photos.smugmug.com/photos/i-abc/0/M/trip/D/i-abc-D.jpg".
Proof.
  exact (proj1 (proj2 (recovered_url_keeps_exception_text
                         (fun _ _ => NoReply) (Retry.Args "s" "log" "output/")
                         "2024-05-01 10:00:00,123"
                         "https://photos.smugmug.com/photos/i-abc/0/M/trip/D/i-abc-D.jpg"
                         "404 Client Error: Not Found for url: https://photos.smugmug.com/photos/i-abc/0/M/trip/D/i-abc-D.jpg"
                         (World ∅ [] []) eq_refl eq_refl))).
Defined.

(** ** The album filter *)

(** X5.  [--albums] round trip (smdl.py 87-88 and 150-152): for names
    without a [$], joined by [$], the filter is the list of the stripped
    names.  An album whose stripped title is one of them is processed as it
    is without a filter; any other album is passed over with no effect at
    all. *)
Theorem albums_option_round_trip (net : network) (args : Smdl.arguments) (fuel : nat)
        (names : list string) (album : json) (title : string) (w : world) :
  Forall (fun n => all_chars (fun c => negb (Ascii.eqb c "$")) n = true) names ->
  join_char "$" names <> EmptyString ->
  Smdl.albums args = Some (join_char "$" names) ->
  py_get_default album "Name" (JStr "Unnamed_Album") = Val (JStr title) ->
  Smdl.specific_albums args = map strip names
  /\ (In (strip title) (map strip names) ->
      Smdl.process_album net args fuel album w
      = Smdl.process_album net
          (Smdl.Args (Smdl.session args) (Smdl.user args) (Smdl.output args) None)
          fuel album w)
  /\ (~ In (strip title) (map strip names) ->
      Smdl.process_album net args fuel album w = (Sig Continue, w)).
Proof.
  intros Hnames Hne Halbums Htitle.
  assert (Hspec : Smdl.specific_albums args = map strip names).
  { unfold Smdl.specific_albums. rewrite Halbums.
    assert (nonempty (join_char "$" names) = true) as ->.
    { unfold nonempty. destruct (String.eqb_spec (join_char "$" names) EmptyString);
        [contradiction | reflexivity]. }
    rewrite split_join_char; [reflexivity | | exact Hnames].
    intros ->. now apply Hne. }
  split; [exact Hspec|].
  rewrite !process_album_unfold, Htitle. cbn [py_strip]. rewrite Hspec.
  split.
  - intros Hin. apply existsb_eqb_In in Hin. rewrite Hin, andb_false_r.
    reflexivity.
  - intros Hout. destruct (existsb (String.eqb (strip title)) (map strip names)) eqn:E.
    + apply existsb_eqb_In in E. contradiction.
    + destruct names; [exfalso; now apply Hne | reflexivity].
Qed.

(** The filter [Summer 2023$Winter]. *)
Lemma albums_option_round_trip_witness :
  Smdl.specific_albums (Smdl.Args None "bob" "output/" (Some "Summer 2023$Winter"))
  = ["Summer 2023"; "Winter"].
Proof.
  exact (proj1 (albums_option_round_trip
                  (fun _ _ => NoReply)
                  (Smdl.Args None "bob" "output/" (Some "Summer 2023$Winter")) 0
                  ["Summer 2023"; "Winter"] (JObj [("Name", JStr "Winter")]) "Winter"
                  (World ∅ [] [])
                  ltac:(repeat constructor) ltac:(discriminate) eq_refl eq_refl)).
Defined.

(** X6.  No name of the filter holds a [$] (smdl.py 88 splits at every one),
    so an album whose title holds a [$] cannot be selected: whenever
    [--albums] is given, such an album is passed over with no effect. *)
Theorem dollar_album_is_never_selected (net : network) (args : Smdl.arguments)
        (fuel : nat) (a : string) (album : json) (title : string) (w : world) :
  Smdl.albums args = Some a ->
  nonempty a = true ->
  py_get_default album "Name" (JStr "Unnamed_Album") = Val (JStr title) ->
  contains "$" (strip title) = true ->
  Smdl.process_album net args fuel album w = (Sig Continue, w).
Proof.
  intros Ha Hne Htitle Hdollar.
  rewrite process_album_unfold, Htitle. cbn [py_strip].
  rewrite (specific_albums_given args a Ha Hne). cbn [andb].
  destruct (existsb (String.eqb (strip title)) (Smdl.specific_albums args)) eqn:E;
    [|reflexivity].
  apply existsb_eqb_In, specific_albums_no_dollar in E.
  rewrite contains_char, E in Hdollar. discriminate Hdollar.
Qed.

(** The album [Cost $5] and the filter that names it. *)
Lemma dollar_album_is_never_selected_witness :
  let args := Smdl.Args None "bob" "output/" (Some "Cost $5") in
  let album := album_json "Cost $5" "/Cost-5" "/api/v2/album/c" in
  Smdl.process_album (fun _ _ => NoReply) args 8 album (World ∅ [] [])
  = (Sig Continue, World ∅ [] []).
Proof.
  intros args album.
  exact (dollar_album_is_never_selected (fun _ _ => NoReply) args 8 "Cost $5" album
           "Cost $5" (World ∅ [] []) eq_refl eq_refl eq_refl eq_refl).
Defined.

(** ** What a run does to the files, and what it sends *)

(** X7.  The main script never removes, truncates or replaces a node of the
    file system it finds: directories are made where nothing is
    (smdl.py 75-77, 160-162) and a file is opened for writing only where
    [os.path.isfile] found none (lines 214-215, 243).  Whatever the remote
    side answers and however the run ends, every path that [stat] resolved
    before the run resolves to the same node after it, a file with the same
    bytes.  (The log file of [setup_logging] is made when it is missing; the
    records appended to it are the log of the model, not bytes of its
    node.) *)
Theorem smdl_only_adds (net : network) (args : Smdl.arguments) (fuel : nat) (w : world) :
  only_adds w (snd (Smdl.main net args fuel w))
  /\ preserved (w_fs w) (w_fs (snd (Smdl.main net args fuel w))).
Proof.
  assert (H : only_adds w (snd (Smdl.main net args fuel w))).
  { destruct (Smdl.main net args fuel w) as [r w'] eqn:Hrun. cbn [snd].
    revert Hrun. unfold Smdl.main.
    apply (obeys_bind _ only_adds_trans); [apply only_adds_setup|].
    intros _. apply only_adds_sync. }
  split; [exact H | exact (subseteq_preserved _ _ H)].
Qed.

(** X8.  The recovery script never removes, truncates or replaces a node
    either: directories are made where nothing is
    (retry_failed_images.py 81-83, 131-133) and a file is written only where
    [os.path.isfile] found none (lines 94-96, 103), for every log file and
    every answer of the remote side. *)
Theorem retry_only_adds (net : network) (args : Retry.arguments) (w : world) :
  only_adds w (snd (Retry.main net args w))
  /\ preserved (w_fs w) (w_fs (snd (Retry.main net args w))).
Proof.
  assert (H : only_adds w (snd (Retry.main net args w))).
  { destruct (Retry.main net args w) as [r w'] eqn:Hrun. cbn [snd].
    exact (only_adds_retry_main _ _ _ _ _ Hrun). }
  split; [exact H | exact (subseteq_preserved _ _ H)].
Qed.

(** X9.  For one image the main script (smdl.py 191-250) sends at most six
    requests, whatever the record holds and whatever is answered: at most
    five by [get_json] for the descriptor, and at most one for the asset. *)
Theorem image_requests_bounded (net : network) (album_name album_path : string)
        (image : json) (w : world) :
  sends_at_most 6 1 w (snd (Smdl.process_image net album_name album_path image w)).
Proof.
  destruct (Smdl.process_image net album_name album_path image w) as [r w'] eqn:Hrun.
  exact (costs_process_image _ _ _ _ _ _ _ Hrun).
Qed.



(** ** Set-up, album list and listings *)

(** X11.  The set-up of the main script (smdl.py 63-92, with
    [setup_logging], lines 17-39) sends nothing and ends in one of three
    ways.  Normally, with the output directory and the log file in place.
    With exit status 1 after the message of line 80 and the files as they
    were, when the directory is missing and cannot be made; an [--output]
    made of slashes only is such a case, since [rstrip] leaves the empty
    path.  Or with the [OSError] of the file handler, which nothing catches,
    when the directory is there but the log file cannot be opened; an output
    path that is a regular file is such a case.  In the last two cases the
    script ends there, before any request. *)
Theorem setup_outcomes (net : network) (args : Smdl.arguments) (fuel : nat) (w : world) :
  let run := Smdl.setup args w in
  let log_file := path_join (Smdl.output_dir args) "smugmug_downloader.log" in
  w_requests (snd run) = w_requests w
  /\ ((fst run = Ok tt
       /\ path_exists (w_fs (snd run)) (Smdl.output_dir args) = true
       /\ isfile (w_fs (snd run)) log_file = true)
      \/ (fst run = Sig (SystemExit 1)
          /\ w_fs (snd run) = w_fs w
          /\ path_exists (w_fs w) (Smdl.output_dir args) = false
          /\ head (w_log (snd run))
             = Some (Printed, CouldNotCreateOutputDir (Smdl.output_dir args))
          /\ Smdl.main net args fuel w = run)
      \/ (fst run = Sig (Exn OSError)
          /\ path_exists (w_fs (snd run)) (Smdl.output_dir args) = true
          /\ open_append (w_fs (snd run)) log_file = None
          /\ Smdl.main net args fuel w = run))
  /\ (all_chars (Ascii.eqb "/") (Smdl.output args) = true ->
      fst run = Sig (SystemExit 1))
  /\ (isfile (w_fs w) (Smdl.output_dir args) = true ->
      fst run = Sig (Exn OSError)).
Proof.
  intros run log_file. destruct (Smdl.setup args w) as [r w'] eqn:Hr.
  subst run. cbn [fst snd].
  assert (Hmain : forall s, r = Sig s -> Smdl.main net args fuel w = (r, w')).
  { intros s ->. unfold Smdl.main. exact (bind_sig _ _ _ _ _ Hr). }
  destruct (setup_steps _ _ _ _ Hr) as (Hreq & _ & Hcases).
  destruct (setup_run _ _ _ _ Hr) as (_ & _ & Hok).
  split; [exact Hreq|]. split; [|split].
  - destruct Hcases as [(-> & Hfs & Hex & _ & Hlog)
                       | (fs1 & Hdir & [(-> & Hfs & Hopen) | (-> & Hopen)])].
    + right. left. repeat (split; [assumption || reflexivity|]). now apply (Hmain _ eq_refl).
    + right. right. split; [reflexivity|]. rewrite Hfs.
      split; [|split; [exact Hopen | now apply (Hmain _ eq_refl)]].
      destruct Hdir as [[He ->] | [_ Hm]]; [exact He|].
      exact (proj2 (makedirs_grows _ _ _ Hm)).
    + left. split; [reflexivity|]. now apply Hok.
  - intros Hall.
    assert (Smdl.output_dir args = EmptyString) as Hout
      by (apply rstrip_by_all, Hall).
    destruct Hcases as [(-> & _) | (fs1 & Hdir & _)]; [reflexivity|]. exfalso.
    rewrite Hout in Hdir. destruct Hdir as [[He _] | [_ Hm]]; discriminate.
  - intros Hfile. pose proof (isfile_path_exists _ _ Hfile) as He.
    destruct Hcases as [(_ & _ & Hne & _) | (fs1 & Hdir & Hlog)]; [congruence|].
    destruct Hdir as [[_ ->] | [Hne _]]; [|congruence].
    destruct Hlog as [(-> & _) | (_ & Hopen)]; [reflexivity|].
    rewrite (open_append_under_file _ _ Hfile) in Hopen. discriminate Hopen.
Qed.

(** The output directory [/], and an output path that is a regular file. *)
Lemma setup_outcomes_witness :
  fst (Smdl.setup (Smdl.Args None "bob" "/" None) (World ∅ [] [])) = Sig (SystemExit 1)
  /\ fst (Smdl.setup (Smdl.Args None "bob" "output/" None)
                     (World (<[["output"] := File "notes"]> ∅) [] []))
     = Sig (Exn OSError).
Proof.
  split.
  - exact (proj1 (proj2 (proj2 (setup_outcomes (fun _ _ => NoReply)
                                  (Smdl.Args None "bob" "/" None) 0 (World ∅ [] []))))
             eq_refl).
  - assert (Hfile : isfile (w_fs (World (<[["output"] := File "notes"]> ∅) [] []))
                           (Smdl.output_dir (Smdl.Args None "bob" "output/" None)) = true)
      by (vm_compute; reflexivity).
    exact (proj2 (proj2 (proj2 (setup_outcomes (fun _ _ => NoReply)
                                  (Smdl.Args None "bob" "output/" None) 0
                                  (World (<[["output"] := File "notes"]> ∅) [] []))))
             Hfile).
Defined.

(** X12.  When the album list never arrives (smdl.py 131-135), the main
    logic gives up after the five attempts of [get_json]: it exits with
    status 1 after the error of line 134, having sent five requests, all for
    the album list, and written nothing. *)
Theorem album_list_unavailable (net : network) (args : Smdl.arguments) (fuel : nat)
        (w : world) :
  unreachable net ("/api/v2/folder/user/" +:+ Smdl.user args +:+ "!albumlist") ->
  exists logs : list (channel * message),
    Smdl.sync net args fuel w
    = (Sig (SystemExit 1),
       World (w_fs w)
             (repeat (ApiGet (Smdl.endpoint +:+ "/api/v2/folder/user/"
                                +:+ Smdl.user args +:+ "!albumlist")) 5
                ++ w_requests w)
             ((Logged ERROR, CouldNotRetrieveAlbumList) :: logs ++ w_log w)).
Proof.
  intros Hu. unfold Smdl.sync.
  unfold bind at 1, logging at 1, emit at 1.
  destruct (get_json_unreachable net _
              (World (w_fs w) (w_requests w) ((Logged INFO, RetrievingAlbumList) :: w_log w))
              Hu) as [logs Hg].
  exists (logs ++ [(Logged INFO, RetrievingAlbumList)]).
  unfold bind at 1. rewrite Hg. cbn [Smdl.is_none w_fs w_requests w_log].
  unfold bind, logging, emit, raise. cbn [w_fs w_requests w_log].
  now rewrite <- app_assoc.
Qed.

(** A remote side that answers nothing. *)
Lemma album_list_unavailable_witness :
  fst (Smdl.sync (fun _ _ => NoReply) bob 8 (World ∅ [] [])) = Sig (SystemExit 1).
Proof.
  assert (Hu : unreachable (fun _ _ => NoReply)
                 ("/api/v2/folder/user/" +:+ Smdl.user bob +:+ "!albumlist"))
    by (intros t; now exists RequestFailed).
  destruct (album_list_unavailable (fun _ _ => NoReply) bob 8 (World ∅ [] []) Hu)
    as [logs H].
  now rewrite H.
Defined.

(** X13.  When the album list document arrives as an object without
    [Response], or with a [Response] object without [AlbumList]
    (smdl.py 139-146), the [KeyError] is caught: the main logic exits with
    status 1 after the error of line 145, and no album is visited. *)
Theorem album_list_without_keys (net : network) (args : Smdl.arguments) (fuel : nat)
        (w w1 : world) (fields : list (string * json)) :
  Smdl.get_json net (JStr ("/api/v2/folder/user/" +:+ Smdl.user args +:+ "!albumlist"))
                (add_log INFO RetrievingAlbumList w)
  = (Ok (JObj fields), w1) ->
  (assoc "Response" fields = None
   \/ exists inner : list (string * json),
        assoc "Response" fields = Some (JObj inner) /\ assoc "AlbumList" inner = None) ->
  Smdl.sync net args fuel w
  = (Sig (SystemExit 1),
     add_log ERROR (NoAlbumsWereFound (Smdl.user args))
             (add_log INFO AlbumListRetrieved w1))
  /\ w_fs w1 = w_fs w
  /\ assets w1 = assets w.
Proof.
  intros Hget Hkeys. split.
  - unfold Smdl.sync. unfold bind at 1. cbn [logging emit].
    fold (add_log INFO RetrievingAlbumList w).
    unfold bind at 1. rewrite Hget. cbn [Smdl.is_none].
    unfold bind at 1. cbn [logging emit]. fold (add_log INFO AlbumListRetrieved w1).
    unfold bind at 1. unfold Smdl.read_album_list, Smdl.except_KeyError.
    unfold bind at 1. cbn [py_item].
    destruct Hkeys as [Hresp | (inner & Hresp & Hlist)]; rewrite Hresp; cbn [lift].
    + reflexivity.
    + unfold bind at 1. cbn [py_item]. rewrite Hlist. cbn [lift]. reflexivity.
  - destruct (get_json_quiet _ _ _ _ _ Hget) as (Hf & Ha & _). split; [exact Hf | exact Ha].
Qed.

(** A user that does not exist: the document holds a code and a message. *)
Lemma album_list_without_keys_witness :
  let net := catalog [("/api/v2/folder/user/bob!albumlist",
                       JObj [("Code", JNum 404); ("Message", JStr "Not Found")])] [] in
  fst (Smdl.sync net bob 8 (World ∅ [] [])) = Sig (SystemExit 1).
Proof.
  intros net.
  set (w := World ∅ [] []).
  set (url := JStr ("/api/v2/folder/user/" +:+ Smdl.user bob +:+ "!albumlist")).
  assert (Hget : Smdl.get_json net url (add_log INFO RetrievingAlbumList w)
                 = (Ok (JObj [("Code", JNum 404); ("Message", JStr "Not Found")]),
                    snd (Smdl.get_json net url (add_log INFO RetrievingAlbumList w))))
    by (vm_compute; reflexivity).
  exact (f_equal fst
           (proj1 (album_list_without_keys net bob 8 w _ _ Hget (or_introl eq_refl)))).
Defined.





(** ** Albums and the recovery entry point *)




(** ** Files left behind and names that coincide *)

(** X18.  In the main script a download whose body breaks off
    (smdl.py 243-250) ends the image with an error entry and leaves on disk
    the bytes that arrived: the handler does not remove the file.  From then
    on, as long as that file is there, the image is skipped as already
    downloaded (lines 214-215): no later run asks for it again, whatever the
    remote side would answer. *)
Theorem broken_download_leaves_partial_file (net : network)
        (album_name album_path unique_filename url : string) (image unique_id : json)
        (status : Z) (b : body) (fs' : gmap (list string) node) (w : world) :
  net (length (w_requests w)) url = Reply status b ->
  status_is_error status = false ->
  complete b = false ->
  open_write (w_fs w) (path_join album_path unique_filename) (content b) = Some fs' ->
  Smdl.make_unique_filename image unique_id = Val unique_filename ->
  exists w' : world,
    Smdl.download net (JStr url) (path_join album_path unique_filename) w
    = (Sig Continue, w')
    /\ stat (w_fs w') (path_join album_path unique_filename) = Some (File (content b))
    /\ head (w_log w') = Some (Logged ERROR, CouldNotFetchImage (JStr url) BodyBroken)
    /\ forall (later : network) (W W1 : world),
         preserved (w_fs w') (w_fs W) ->
         Smdl.derive_unique_id album_name image W = (Ok unique_id, W1) ->
         Smdl.process_image later album_name album_path image W = (Sig Continue, W1)
         /\ w_requests W1 = w_requests W
         /\ w_fs W1 = w_fs W.
Proof.
  intros Hnet Hst Hc Ho Hname.
  eexists. split; [exact (download_broken _ _ _ _ _ _ _ Hnet Hst Hc Ho)|].
  cbn [w_fs w_log head]. pose proof (open_write_stat _ _ _ _ Ho) as Hstat.
  split; [exact Hstat|]. split; [reflexivity|].
  intros later W W1 Hkept Hid.
  apply Hkept, stat_isfile in Hstat.
  pose proof (same_fs_derive _ _ _ _ _ Hid) as Hfs.
  pose proof (same_requests_derive _ _ _ _ _ Hid) as Hreq.
  split; [|split; assumption].
  apply (process_image_skip later album_name album_path image unique_id unique_filename
           W W1 Hid Hname).
  unfold same_fs in Hfs. now rewrite Hfs.
Qed.

(** The asset of the image breaks off after seven bytes; a later run against
    a remote side that would answer in full skips the image. *)
Lemma broken_download_leaves_partial_file_witness :
  let image := image_json "a.jpg" "aaaaaaaaaaaaaaaa" "/api/v2/image/a!largestimage" in
  let broken : network := fun _ _ => Reply 200 (Body [] "partial" false) in
  let w := World (<[["output"; "A"] := Dir]> (<[["output"] := Dir]> ∅)) [] [] in
  let w' := snd (Smdl.download broken (JStr "https://photos.smugmug.com/a.jpg")
                               "output/A/a_aaaaaaaa.jpg" w) in
  stat (w_fs w') "output/A/a_aaaaaaaa.jpg" = Some (File "partial")
  /\ Smdl.process_image (two_albums image) "A" "output/A" image w' = (Sig Continue, w').
Proof.
  intros image broken w w'.
  destruct (broken_download_leaves_partial_file broken "A" "output/A" "a_aaaaaaaa.jpg"
              "https://photos.smugmug.com/a.jpg" image (JStr "aaaaaaaaaaaaaaaa")
              200 (Body [] "partial" false)
              (<[["output"; "A"; "a_aaaaaaaa.jpg"] := File "partial"]> (w_fs w)) w
              eq_refl eq_refl eq_refl eq_refl eq_refl)
    as (w1 & Hrun & Hstat & _ & Hlater).
  assert (Hw : w' = w1) by exact (f_equal snd Hrun).
  rewrite Hw. split; [exact Hstat|].
  exact (proj1 (Hlater (two_albums image) w1 w1 (fun p n H => H) eq_refl)).
Defined.

(** X19.  The recovery script has the same behaviour
    (retry_failed_images.py 94-109): a body that breaks off is logged as an
    error, the bytes that arrived stay in the file, and as long as that file
    is there a later call for the same URL sends no request. *)
Theorem broken_recovery_leaves_partial_file (net : network) (args : Retry.arguments)
        (image_url : string) (status : Z) (b : body)
        (fs' : gmap (list string) node) (w : world) :
  let album_path := path_join (Retry.output_dir args) (Retry.extract_album_path image_url) in
  let image_path := path_join album_path (Retry.get_image_filename image_url) in
  path_exists (w_fs w) album_path = true ->
  isfile (w_fs w) image_path = false ->
  net (length (w_requests w)) image_url = Reply status b ->
  status_is_error status = false ->
  complete b = false ->
  open_write (w_fs w) image_path (content b) = Some fs' ->
  exists w' : world,
    Retry.download_image net args image_url w = (Ok tt, w')
    /\ stat (w_fs w') image_path = Some (File (content b))
    /\ head (w_log w') = Some (Logged ERROR, CouldNotFetchImage (JStr image_url) BodyBroken)
    /\ forall (later : network) (W : world),
         preserved (w_fs w') (w_fs W) ->
         w_requests (snd (Retry.download_image later args image_url W)) = w_requests W.
Proof.
  intros album_path image_path Hdir Hfile Hnet Hst Hc Ho.
  eexists. split.
  { unfold Retry.download_image. fold album_path.
    unfold bind at 1, get_fs at 1. rewrite Hdir.
    unfold Retry.download_into. fold image_path.
    unfold bind at 1, get_fs at 1. rewrite Hfile.
    exact (fetch_image_broken _ _ _ _ _ _ _ Hnet Hst Hc Ho). }
  cbn [w_fs w_log head]. pose proof (open_write_stat _ _ _ _ Ho) as Hstat.
  split; [exact Hstat|]. split; [reflexivity|].
  intros later W Hkept. apply Hkept, stat_isfile in Hstat.
  exact (proj1 (download_image_no_request later args image_url W Hstat)).
Qed.

(** A line of the log is retried and the body breaks off; a second call
    finds the file and sends nothing. *)
Lemma broken_recovery_leaves_partial_file_witness :
  let broken : network := fun _ _ => Reply 200 (Body [] "partial" false) in
  let args := Retry.Args "s" "log" "output" in
  let url := "https://photos.smugmug.com/photos/i-abc/0/M/trip/D/i-abc-D.jpg" in
  let w := World (<[["output"; "i-abc"; "0"; "M"; "trip"] := Dir]>
                    (<[["output"; "i-abc"; "0"; "M"] := Dir]>
                       (<[["output"; "i-abc"; "0"] := Dir]>
                          (<[["output"; "i-abc"] := Dir]> (<[["output"] := Dir]> ∅)))))
                 [] [] in
  let w' := snd (Retry.download_image broken args url w) in
  assets w' = 1%nat
  /\ w_requests (snd (Retry.download_image broken args url w')) = w_requests w'.
Proof.
  intros broken args url w w'.
  set (path := path_join (path_join (Retry.output_dir args) (Retry.extract_album_path url))
                         (Retry.get_image_filename url)).
  assert (Ho : open_write (w_fs w) path "partial"
               = Some (<[components path := File "partial"]> (w_fs w)))
    by (vm_compute; reflexivity).
  destruct (broken_recovery_leaves_partial_file broken args url 200
              (Body [] "partial" false) _ w
              ltac:(vm_compute; reflexivity) ltac:(vm_compute; reflexivity)
              eq_refl eq_refl eq_refl Ho)
    as (w1 & Hrun & _ & _ & Hlater).
  assert (Hw : w' = w1) by exact (f_equal snd Hrun).
  rewrite Hw. split; [|exact (Hlater broken w1 (fun p n H => H))].
  rewrite <- Hw. vm_compute. reflexivity.
Defined.

(** X20.  The local name of an image holds the first eight characters of its
    identifier only (smdl.py 209-210).  Two records with the same [FileName]
    whose [ArchivedMD5] agree on those characters get the same name: once a
    file of that name is in the album directory, the second record is skipped
    as already downloaded, without any request. *)
Theorem ids_sharing_a_prefix_collide (net : network) (album_name album_path : string)
        (fields1 fields2 : list (string * json)) (file_name id1 id2 : string)
        (w : world) :
  assoc "ArchivedMD5" fields1 = Some (JStr id1) -> nonempty id1 = true ->
  assoc "ArchivedMD5" fields2 = Some (JStr id2) -> nonempty id2 = true ->
  assoc "FileName" fields1 = Some (JStr file_name) ->
  assoc "FileName" fields2 = Some (JStr file_name) ->
  str_take 8 id1 = str_take 8 id2 ->
  exists f : string,
    Smdl.make_unique_filename (JObj fields1) (JStr id1) = Val f
    /\ Smdl.make_unique_filename (JObj fields2) (JStr id2) = Val f
    /\ Smdl.derive_unique_id album_name (JObj fields1) w = (Ok (JStr id1), w)
    /\ Smdl.derive_unique_id album_name (JObj fields2) w = (Ok (JStr id2), w)
    /\ (isfile (w_fs w) (path_join album_path f) = true ->
        Smdl.process_image net album_name album_path (JObj fields2) w = (Sig Continue, w)).
Proof.
  intros H1 Hn1 H2 Hn2 Hf1 Hf2 Hpre.
  assert (Hid : forall fields id,
             assoc "ArchivedMD5" fields = Some (JStr id) -> nonempty id = true ->
             Smdl.derive_unique_id album_name (JObj fields) w = (Ok (JStr id), w)).
  { intros fields id Ha Hn. rewrite derive_unique_id_run. unfold field. rewrite Ha.
    cbn [List.find truthy]. unfold nonempty in Hn. now rewrite Hn. }
  assert (Hname : forall fields id,
             assoc "FileName" fields = Some (JStr file_name) ->
             str_take 8 id = str_take 8 id1 ->
             Smdl.make_unique_filename (JObj fields) (JStr id)
             = Val (fst (splitext (Smdl.sanitize_filename file_name))
                      +:+ "_" +:+ str_take 8 id1
                      +:+ snd (splitext (Smdl.sanitize_filename file_name)))).
  { intros fields id Hf <-. apply make_unique_filename_str.
    cbn [py_get_default]. now rewrite Hf. }
  eexists. split; [exact (Hname _ _ Hf1 eq_refl)|].
  split; [exact (Hname _ _ Hf2 (eq_sym Hpre))|].
  split; [now apply Hid|]. split; [now apply Hid|].
  intros Hfile.
  exact (process_image_skip net album_name album_path (JObj fields2) (JStr id2) _ w w
           (Hid _ _ H2 Hn2) (Hname _ _ Hf2 (eq_sym Hpre)) Hfile).
Qed.

(** Two photographs named [IMG_0001.jpg] whose checksums start alike. *)
Lemma ids_sharing_a_prefix_collide_witness :
  Smdl.make_unique_filename
    (JObj [("FileName", JStr "IMG_0001.jpg"); ("ArchivedMD5", JStr "0123456789abcdef")])
    (JStr "0123456789abcdef")
  = Smdl.make_unique_filename
      (JObj [("FileName", JStr "IMG_0001.jpg"); ("ArchivedMD5", JStr "01234567ffffffff")])
      (JStr "01234567ffffffff").
Proof.
  destruct (ids_sharing_a_prefix_collide (fun _ _ => NoReply) "A" "output/A"
              [("FileName", JStr "IMG_0001.jpg"); ("ArchivedMD5", JStr "0123456789abcdef")]
              [("FileName", JStr "IMG_0001.jpg"); ("ArchivedMD5", JStr "01234567ffffffff")]
              "IMG_0001.jpg" "0123456789abcdef" "01234567ffffffff" (World ∅ [] [])
              eq_refl eq_refl eq_refl eq_refl eq_refl eq_refl eq_refl)
    as (f & Ha & Hb & _).
  now rewrite Ha, Hb.
Defined.

(** ** Album paths, listings without pages, and the last message *)

(** X21.  The directory of an album (smdl.py 72, 154-159): the output
    directory never ends with a slash, the leading slashes of [UrlPath] are
    dropped, and so the join never discards the output directory: the
    components of the album path are those of the output directory followed
    by those of [UrlPath].  (The components [.] and [..] are not interpreted
    by the model.) *)
Theorem album_path_under_output_dir (args : Smdl.arguments) (url_path : string) :
  endswith_char "/" (Smdl.output_dir args) = false
  /\ startswith "/" (lstrip_char "/" url_path) = false
  /\ components (path_join (Smdl.output_dir args) (lstrip_char "/" url_path))
     = components (Smdl.output_dir args)
         ++ List.filter nonempty (split_char "/" (lstrip_char "/" url_path)).
Proof.
  pose proof (rstrip_char_last "/" (Smdl.output args)) as Hout.
  pose proof (lstrip_char_first "/" url_path) as Hp.
  fold (Smdl.output_dir args) in Hout.
  split; [exact Hout|]. split; [exact Hp|].
  unfold path_join. rewrite Hp, Hout.
  destruct (Smdl.output_dir args) as [|c out] eqn:Ho.
  - cbn [String.eqb orb]. rewrite app_nil_l. unfold components. rewrite Hp. reflexivity.
  - cbn [String.eqb orb].
    change ("/" +:+ lstrip_char "/" url_path) with (String "/" (lstrip_char "/" url_path)).
    rewrite components_app_sep, components_trailing_sep by discriminate. reflexivity.
Qed.

(** X22.  The first page of a listing is read with [.get] for [Response]
    and [AlbumImage] but with subscripts for [Response] and [Pages]
    (smdl.py 174-180): a page that holds images but no [Pages] raises a
    [KeyError] that nothing catches.  The run ends there: the albums that
    follow are not visited. *)
Theorem listing_without_pages_aborts (net : network) (args : Smdl.arguments) (fuel : nat)
        (fields top resp : list (string * json)) (title url_path uri : string)
        (x : json) (items others : list json) (w : world) :
  assoc "Name" fields = Some (JStr title) ->
  selected args (strip title) = true ->
  assoc "UrlPath" fields = Some (JStr url_path) ->
  nonempty (lstrip_char "/" url_path) = true ->
  path_exists (w_fs w) (path_join (Smdl.output_dir args) (lstrip_char "/" url_path)) = true ->
  assoc "Uri" fields = Some (JStr uri) ->
  serves net (uri +:+ "!images") (JObj top) ->
  assoc "Response" top = Some (JObj resp) ->
  assoc "AlbumImage" resp = Some (JArr (x :: items)) ->
  assoc "Pages" resp = None ->
  let w' := World (w_fs w) (ApiGet (Smdl.endpoint +:+ uri +:+ "!images") :: w_requests w)
                  (w_log w) in
  Smdl.process_album net args fuel (JObj fields) w = (Sig (Exn KeyError), w')
  /\ for_each (JObj fields :: others) (Smdl.process_album net args fuel) w
     = (Sig (Exn KeyError), w').
Proof.
  intros Hname Hsel Hpath Hne Hdir Huri Hpage Hresp Himages Hpages w'.
  assert (Hrun : Smdl.process_album net args fuel (JObj fields) w = (Sig (Exn KeyError), w')).
  { rewrite process_album_unfold. cbn [py_get_default]. rewrite Hname, Hpath.
    cbn [py_strip py_lstrip_slash]. unfold selected in Hsel.
    apply negb_true_iff in Hsel. rewrite Hsel, Hne. cbn [negb].
    rewrite (bind_ok _ _ _ _ _ (ensure_album_path_there _ _ Hdir)).
    unfold Smdl.fetch_images.
    rewrite py_get_field. unfold field. rewrite Huri.
    unfold bind at 1. unfold bind at 1. cbn [lift py_str].
    unfold bind at 1. rewrite (get_json_served _ _ _ _ Hpage). cbn [Smdl.is_none].
    unfold bind at 1. cbn [py_get_default lift]. rewrite Hresp.
    unfold bind at 1. cbn [py_get_default lift]. rewrite Himages. cbn [truthy negb].
    unfold bind at 1. cbn [py_item lift]. rewrite Hresp.
    unfold bind at 1. cbn [py_item lift]. rewrite Hpages. reflexivity. }
  split; [exact Hrun|]. cbn [for_each]. now rewrite Hrun.
Qed.

(** An album whose listing has one image and no [Pages], and a second album
    that is never asked for. *)
Lemma listing_without_pages_aborts_witness :
  let net := catalog
               [("/api/v2/album/A!images",
                 JObj [("Response", JObj [("AlbumImage", JArr [JStr "image"])])])] [] in
  let w := World (<[["output"; "A"] := Dir]> (<[["output"] := Dir]> ∅)) [] [] in
  let run := for_each [album_json "A" "/A" "/api/v2/album/A";
                       album_json "B" "/B" "/api/v2/album/B"]
                      (Smdl.process_album net bob 8) w in
  fst run = Sig (Exn KeyError)
  /\ requested "https://www.smugmug.com/api/v2/album/B!images" (snd run) = false.
Proof.
  intros net w run.
  assert (Hpage : serves net ("/api/v2/album/A" +:+ "!images")
                         (JObj [("Response", JObj [("AlbumImage", JArr [JStr "image"])])]))
    by (intros t; reflexivity).
  destruct (listing_without_pages_aborts net bob 8
              [("Name", JStr "A"); ("UrlPath", JStr "/A"); ("Uri", JStr "/api/v2/album/A")]
              _ _ "A" "/A" "/api/v2/album/A" (JStr "image") []
              [album_json "B" "/B" "/api/v2/album/B"] w
              eq_refl eq_refl eq_refl eq_refl eq_refl eq_refl Hpage eq_refl eq_refl eq_refl)
    as [_ Hloop].
  subst run. unfold album_json at 1. rewrite Hloop. now split.
Defined.

(** X23.  Whenever the main logic reaches its end (smdl.py 252-253) it logs
    [All downloads completed successfully.] and prints [Completed.], whatever
    was logged before: images and albums that failed with an error entry do
    not change the last two messages. *)
Theorem completion_message_ignores_errors (net : network) (args : Smdl.arguments)
        (fuel : nat) (w w' : world) :
  Smdl.main net args fuel w = (Ok tt, w') ->
  exists rest : list (channel * message),
    w_log w' = (Printed, Completed) :: (Logged INFO, AllDownloadsCompleted) :: rest.
Proof.
  unfold Smdl.main. intros H.
  apply bind_inv in H as [(? & w1 & _ & H) | (s & _ & [=])].
  exact (sync_ends _ _ _ _ _ H).
Qed.

(** One album of one image whose asset is not served: one error is logged
    and the run ends with the two messages. *)
Lemma completion_message_ignores_errors_witness :
  let net := catalog
               [("/api/v2/folder/user/bob!albumlist",
                 album_list_json [album_json "A" "/A" "/api/v2/album/A"]);
                ("/api/v2/album/A!images",
                 page_json [image_json "a.jpg" "aaaaaaaaaaaaaaaa"
                                       "/api/v2/image/a!largestimage"] None);
                ("/api/v2/image/a!largestimage",
                 descriptor_json "https://photos.smugmug.com/a.jpg")] [] in
  let w' := snd (Smdl.main net bob 8 (World ∅ [] [])) in
  errors w' = 1%nat
  /\ exists rest : list (channel * message),
       w_log w' = (Printed, Completed) :: (Logged INFO, AllDownloadsCompleted) :: rest.
Proof.
  intros net w'. split; [vm_compute; reflexivity|].
  apply (completion_message_ignores_errors net bob 8 (World ∅ [] []) w').
  vm_compute. reflexivity.
Defined.
